(** * Guess-the-song group game: a shallow embedding of [main.py]

    The development follows the plugin class [GuessSongPlugin].

    Data.
    - A Python [str] is the list of its Unicode code points, so that [len],
      indexing and [in] count characters the way Python does.
    - A Python [int] is a [Z].
    - A [dict] whose iteration order is observable (the participants of a
      session, the playlist cache) is an insertion-ordered association list;
      the other dictionaries are [gmap]s, the administrators a [gset].
    - The leaderboard file of a group is the map of its ["users"] object;
      reading and writing it always succeeds.

    Effects.
    - A handler is a function from the state of the plugin to the new state
      and the messages it sends or yields, in order.
    - What the outside decides (the clock, [random.choice], the catalogue,
      the delivery of a voice message) comes in as an [Oracle].
    - The coroutines are cut at their [asyncio.sleep] calls, where the source
      hands control to the event loop for seconds: what runs between two
      sleeps is one atomic step, and sending a message does not let another
      coroutine in. A handler asleep is kept in [suspended], a timer task in
      [timers]; the event loop may wake any of them at any time.
    - [_fetch_playlist], [cmd_ranking] and the cache clean-up write nothing
      the game reads; they are embedded on their own, after the game, as
      functions of what they read: the answer of the catalogue, the users of
      a leaderboard file, the listing of the cache directory. [cmd_help]
      sends a fixed text and is left out. *)

From Stdlib Require Import ZArith NArith List Lia Bool Permutation Sorted.
From stdpp Require Import gmap list fin_maps.

Local Open Scope Z_scope.

(** ** Python strings *)

Module PyStr.

  (** A Python [str]: the sequence of its code points. *)
Abbreviation pystr := (list N).

  (** [str.isspace] on one character, the table [str.strip] uses
      (CPython's [_PyUnicode_IsWhitespace]). *)
Definition isspace (c : N) : bool :=
    (((9 <=? c) && (c <=? 13)) || ((28 <=? c) && (c <=? 32))
     || (c =? 133) || (c =? 160) || (c =? 5760)
     || ((8192 <=? c) && (c <=? 8202))
     || (c =? 8232) || (c =? 8233) || (c =? 8239) || (c =? 8287)
     || (c =? 12288))%N.

Fixpoint lstrip (s : pystr) : pystr :=
    match s with
    | [] => []
    | c :: t => if isspace c then lstrip t else s
    end.

Definition rstrip (s : pystr) : pystr := rev (lstrip (rev s)).

  (** [s.strip()] *)
Definition strip (s : pystr) : pystr := rstrip (lstrip s).

  (** [s.replace(" ", "")]: every U+0020 is dropped, nothing else. *)
Definition remove_spaces (s : pystr) : pystr :=
    List.filter (fun c => negb (c =? 32)%N) s.

Fixpoint startswith (s prefix : pystr) {struct prefix} : bool :=
    match prefix, s with
    | [], _ => true
    | p :: prefix', c :: s' => (p =? c)%N && startswith s' prefix'
    | _ :: _, [] => false
    end.

  (** [sub in s] *)
Fixpoint contains (sub s : pystr) : bool :=
    startswith s sub ||
    match s with
    | [] => false
    | _ :: t => contains sub t
    end.

  (** The lower-casing of ASCII letters; on strings made of ASCII characters
      and of caseless characters (CJK ideographs, digits, punctuation) it is
      what [str.lower] computes. *)
Definition ascii_lower (s : pystr) : pystr :=
    map (fun c => if ((65 <=? c) && (c <=? 90))%N then (c + 32)%N else c) s.

End PyStr.
Import PyStr.

(** ** AnswerMatcher and HintGenerator *)

Section Matcher.

  (** [str.lower] applies Unicode's case mapping, a table of the Python
      runtime; the matcher is embedded for any such function. *)
Variable lower : pystr -> pystr.

  (** [x.strip().lower().replace(" ", "")] *)
Definition normalize (x : pystr) : pystr :=
    remove_spaces (lower (strip x)).

Definition _check_answer (user_input correct_answer : pystr) : bool :=
    let user_input := normalize user_input in
    let correct_answer := normalize correct_answer in
    if bool_decide (user_input = correct_answer) then true
    else if contains correct_answer user_input then true
    else if (2 <=? Z.of_nat (length user_input)) && contains user_input correct_answer
         then true
    else false.

  (** The normalisation in the words of the specification: trim, fold the
      case, and remove every whitespace character that is left. *)
Definition spec_normalize (x : pystr) : pystr :=
    List.filter (fun c => negb (isspace c)) (lower (strip x)).

Definition spec_check_answer (user_input correct_answer : pystr) : bool :=
    let u := spec_normalize user_input in
    let c := spec_normalize correct_answer in
    bool_decide (u = c) || contains c u
    || ((2 <=? Z.of_nat (length u)) && contains u c).

End Matcher.

(** U+FF0A, the fullwidth asterisk that masks a hidden character. *)
Definition star : N := 65290%N.

Definition _get_hint (song_name : pystr) (level : Z) : pystr :=
  if level <=? 0 then replicate (length song_name) star
  else
    let revealed := Z.min level (Z.of_nat (length song_name)) in
    let hint := replicate (length song_name) star in
    foldl (fun hint i =>
             match song_name !! i with
             | Some c => <[i := c]> hint
             | None => hint (* IndexError; [i] stays below [len(song_name)] *)
             end)
          hint (seq 0 (Z.to_nat revealed)).


(** ** Insertion-ordered dictionaries *)

Module Dict.
Section Dict.
Context {K V : Type} `{EqDecision K}.

    (** [d.get(k)] *)
Fixpoint get (k : K) (d : list (K * V)) : option V :=
      match d with
      | [] => None
      | (k', v) :: d' => if decide (k = k') then Some v else get k d'
      end.

    (** [d[k] = v]: an existing key keeps its place, a new one goes last. *)
Fixpoint set (k : K) (v : V) (d : list (K * V)) : list (K * V) :=
      match d with
      | [] => [(k, v)]
      | (k', v') :: d' =>
          if decide (k = k') then (k', v) :: d' else (k', v') :: set k v d'
      end.

Definition keys (d : list (K * V)) : list K := map fst d.
End Dict.
End Dict.

(** ** Data model *)

(** One value of [GameSession.participants]: [{"name": str, "score": int}]. *)
Record Participant := mkParticipant { p_name : pystr; p_score : Z }.

(** One entry of a playlist: [{"id", "name", "artist"}]. *)
Record Song := mkSong { song_id : Z; song_name : pystr; song_artist : pystr }.

(** The values [status] takes: "waiting", "playing", "ended". *)
Inductive Status := Waiting | Playing | Ended.

#[global] Instance Status_eq_dec : EqDecision Status.
Proof. solve_decision. Defined.

(** [class GameSession]; [current_song = None] is the empty dict, and
    [timeout_task] names a task of the event loop. *)
Record GameSession := mkSession {
  group_id : pystr;
  status : Status;
  participants : list (pystr * Participant);
  current_song : option Song;
  hint_level : Z;
  round_num : Z;
  start_time : Z;
  timeout_task : option nat;
  umo : pystr;
  creator_id : pystr;
  round_answered : bool
}.

Definition set_status (v : Status) (s : GameSession) : GameSession :=
  mkSession (group_id s) v (participants s) (current_song s) (hint_level s)
            (round_num s) (start_time s) (timeout_task s) (umo s) (creator_id s)
            (round_answered s).
Definition set_participants (v : list (pystr * Participant)) (s : GameSession) : GameSession :=
  mkSession (group_id s) (status s) v (current_song s) (hint_level s)
            (round_num s) (start_time s) (timeout_task s) (umo s) (creator_id s)
            (round_answered s).
Definition set_current_song (v : option Song) (s : GameSession) : GameSession :=
  mkSession (group_id s) (status s) (participants s) v (hint_level s)
            (round_num s) (start_time s) (timeout_task s) (umo s) (creator_id s)
            (round_answered s).
Definition set_hint_level (v : Z) (s : GameSession) : GameSession :=
  mkSession (group_id s) (status s) (participants s) (current_song s) v
            (round_num s) (start_time s) (timeout_task s) (umo s) (creator_id s)
            (round_answered s).
Definition set_round_num (v : Z) (s : GameSession) : GameSession :=
  mkSession (group_id s) (status s) (participants s) (current_song s) (hint_level s)
            v (start_time s) (timeout_task s) (umo s) (creator_id s)
            (round_answered s).
Definition set_start_time (v : Z) (s : GameSession) : GameSession :=
  mkSession (group_id s) (status s) (participants s) (current_song s) (hint_level s)
            (round_num s) v (timeout_task s) (umo s) (creator_id s)
            (round_answered s).
Definition set_timeout_task (v : option nat) (s : GameSession) : GameSession :=
  mkSession (group_id s) (status s) (participants s) (current_song s) (hint_level s)
            (round_num s) (start_time s) v (umo s) (creator_id s)
            (round_answered s).
Definition set_round_answered (v : bool) (s : GameSession) : GameSession :=
  mkSession (group_id s) (status s) (participants s) (current_song s) (hint_level s)
            (round_num s) (start_time s) (timeout_task s) (umo s) (creator_id s) v.

(** [GameSession(group_id=g)]: the dataclass defaults. *)
Definition new_session (g : pystr) : GameSession :=
  mkSession g Waiting [] None 0 0 0 None [] [] false.

(** One user of [stats_<group>.json]: [{"nickname", "score", "wins"}]. *)
Record LedgerEntry := mkEntry { nickname : pystr; score : Z; wins : Z }.

(** A [_round_timeout] task: asleep for the round, asleep for the two
    seconds before the next round, cancelled while asleep, or over. *)
Inductive TimerState := Sleeping | Pausing | Cancelled | Finished.

Record TimerTask := mkTimer { tk_group : pystr; tk_state : TimerState }.

(** A command or message handler asleep in [asyncio.sleep], with the call
    it makes when it wakes up. *)
Inductive Suspended :=
| ThenNextRound (g : pystr)   (* await self._next_round(event, group_id) *)
| ThenEndGame (g : pystr).    (* await self._end_game(event, group_id) *)

(** The plugin object together with the files and the tasks it owns. *)
Record State := mkState {
  sessions : gmap pystr GameSession;                 (* self.sessions *)
  stats_files : gmap pystr (gmap pystr LedgerEntry); (* "users" of stats_<g>.json *)
  playlist_cache : list (pystr * list Song);         (* self.playlist_cache *)
  played_songs : gmap pystr (gmap Z Z);              (* self.played_songs *)
  timers : list TimerTask;          (* tasks made by asyncio.create_task *)
  suspended : list Suspended        (* handlers asleep *)
}.

Definition set_sessions (v : gmap pystr GameSession) (st : State) : State :=
  mkState v (stats_files st) (playlist_cache st) (played_songs st) (timers st) (suspended st).
Definition set_stats_files (v : gmap pystr (gmap pystr LedgerEntry)) (st : State) : State :=
  mkState (sessions st) v (playlist_cache st) (played_songs st) (timers st) (suspended st).
Definition set_playlist_cache (v : list (pystr * list Song)) (st : State) : State :=
  mkState (sessions st) (stats_files st) v (played_songs st) (timers st) (suspended st).
Definition set_played_songs (v : gmap pystr (gmap Z Z)) (st : State) : State :=
  mkState (sessions st) (stats_files st) (playlist_cache st) v (timers st) (suspended st).
Definition set_timers (v : list TimerTask) (st : State) : State :=
  mkState (sessions st) (stats_files st) (playlist_cache st) (played_songs st) v (suspended st).
Definition set_suspended (v : list Suspended) (st : State) : State :=
  mkState (sessions st) (stats_files st) (playlist_cache st) (played_songs st) (timers st) v.

(** The plugin's configuration, as [__init__] reads it. *)
Record Config := mkConfig {
  round_timeout : Z;
  max_rounds : Z;
  admin_ids : gset pystr;
  min_players : Z;
  max_players : Z;
  voice_send_timeout : Z
}.

(** What the world decides during one step: the clock, the draw of
    [random.choice], what the catalogue returns for a playlist id, how the
    voice message fares, and the draw of the closing challenge. *)
Inductive Punishment := Truth | Dare.
Inductive Delivery := VoiceSent | VoiceTimeout | VoiceFailed | OtherPlatform.

Record Oracle := mkOracle {
  now : Z;
  choice : nat;
  fetch : Z -> list Song;
  delivery : Delivery;
  punishment : Punishment
}.

(** The lines of the settlement message, with the values they interpolate. *)
Inductive Line :=
| LTitle                                   (* 🎵 【猜歌游戏结束】 *)
| LRounds (n : Z)                          (* 共进行 n 轮 *)
| LBlank
| LScoresHeader                            (* 📊 本局得分： *)
| LScore (rank : Z) (name : pystr) (points : Z)   (* medal name: points分 *)
| LWinner (name : pystr)                   (* 🎯 name 获胜！ *)
| LPunishment (p : Punishment)             (* 系统随机结果：p *)
| LChallenge (loser : pystr) (p : Punishment)     (* 请 loser 接受【p】挑战！ *)
| LTiedLosers (names : list pystr)         (* 最低分有多人：... *)
| LPickOne (winner : pystr).               (* 请 winner 指定一人接受挑战！ *)

(** What the plugin sends or yields, with the values it interpolates. *)
Inductive Msg :=
| MGroupOnly                               (* ❌ 仅支持群聊使用 (worded per command) *)
| MWaitingInfo (count : Z)                 (* ⏳ 已有游戏等待中 *)
| MPlayingInfo (round : Z)                 (* 🎮 游戏进行中！ *)
| MCreated (nick : pystr)                  (* 🎵 【猜歌游戏已创建】 *)
| MCreateFirst                             (* ❌ 请先发送「#猜歌」创建游戏 *)
| MRoundInfo (round : Z) (hint : pystr)    (* 🎵 游戏进行中！ 提示：hint *)
| MBadState                                (* ❌ 游戏状态异常 *)
| MTooFewPlayers (minimum : Z)             (* ❌ 人数不足 *)
| MUnauthorized                            (* ❌ 只有游戏创建者或管理员可以开始游戏 *)
| MStarting (nick : pystr)                 (* 🚀 nick 启动了游戏！ *)
| MGameStarted (count : Z) (players : list pystr)  (* 🎮 猜歌游戏开始！ *)
| MNoGame                                  (* ❌ 当前没有进行中的猜歌游戏 (worded per command) *)
| MHint (level : Z) (hint artist : pystr)  (* 💡 提示 #level *)
| MAdminOnly                               (* ❌ 只有管理员可以 ... (worded per command) *)
| MReveal (name artist : pystr)            (* 📢 管理员公布答案 *)
| MAnswerSettling (name artist : pystr)    (* 📢 本轮答案 ... 正在结算游戏 *)
| MForceEnd (nick : pystr) (answer : option (pystr * pystr))  (* 🛑 强制结束游戏 *)
| MAlreadyJoined                           (* ❌ 你已经加入了 *)
| MRosterFull (maximum : Z)                (* ❌ 人数已满 *)
| MJoined (nick : pystr) (count : Z)       (* ✅ nick 加入成功 *)
| MJoinedMidGame (nick : pystr) (count : Z)       (* ✅ nick 中途加入成功 *)
| MJoinFirst                               (* ❌ 请先发送 🎶 加入游戏 *)
| MCorrect (nick name artist : pystr) (total : Z) (* 🎉 恭喜 nick 答对了！ *)
| MNoSong                                  (* ❌ 无法获取歌曲，游戏结束。 *)
| MRecord (id : Z)                         (* the voice record of the song *)
| MRoundPrompt (how : Delivery) (round : Z) (id : Z)   (* 🎵 【第 round 轮】 *)
| MTimeUp (name artist : pystr)            (* ⏰ 时间到！ *)
| MEndedEmpty                              (* 🎵 【猜歌游戏结束】 本局无人参与 *)
| MSettlement (lines : list Line).

(** [PLAYLISTS]: 热门 and 经典. *)
Definition PLAYLISTS : list (pystr * Z) :=
  [ ([28909; 38376]%N, 3778678); ([32463; 20856]%N, 19723756) ].

(** The musical-notes emoji U+1F3B6 that asks to join. *)
Definition join_signal : pystr := [127926%N].

(** ** The plugin *)

Section Plugin.

Variable cfg : Config.
Variable lower : pystr -> pystr.

(** *** Timer tasks *)

(** [task.cancel()]: a task asleep gets [CancelledError] when it is next
    resumed; a task that is over is left alone. *)
Definition cancel_task (t : TimerTask) : TimerTask :=
  match tk_state t with
  | Sleeping | Pausing => mkTimer (tk_group t) Cancelled
  | Cancelled | Finished => t
  end.

Definition cancel (tid : nat) (st : State) : State :=
  set_timers (alter cancel_task tid (timers st)) st.

(** [if session.timeout_task: session.timeout_task.cancel()] *)
Definition cancel_timeout (session : GameSession) (st : State) : State :=
  match timeout_task session with
  | Some tid => cancel tid st
  | None => st
  end.

Definition finish (tid : nat) (st : State) : State :=
  set_timers (alter (fun t => mkTimer (tk_group t) Finished) tid (timers st)) st.

(** *** Leaderboard files *)

Definition _load_stats (g : pystr) (st : State) : gmap pystr LedgerEntry :=
  default ∅ (stats_files st !! g).

Definition _save_stats (g : pystr) (data : gmap pystr LedgerEntry) (st : State) : State :=
  set_stats_files (<[g := data]> (stats_files st)) st.

Definition _add_score (g user_id nick : pystr) (points : Z) (st : State) : State :=
  let users := _load_stats g st in
  let users :=
    match users !! user_id with
    | None => <[user_id := mkEntry nick 0 0]> users
    | Some _ => users
    end in
  let users :=
    alter (fun e => mkEntry nick (score e + points) (wins e + 1)) user_id users in
  _save_stats g users st.

(** *** Song source *)

Definition _preload_playlists (o : Oracle) (st : State) : State :=
  foldl (fun st '(name, playlist_id) =>
           match fetch o playlist_id with
           | [] => st
           | songs => set_playlist_cache (Dict.set name songs (playlist_cache st)) st
           end)
        st PLAYLISTS.

(** [random.choice(l)] for the draw [choice o]. *)
Definition random_choice {A} (o : Oracle) (l : list A) : option A :=
  l !! (choice o mod length l)%nat.

Definition all_cached (st : State) : list Song :=
  concat (map snd (playlist_cache st)).

Definition _get_random_song (o : Oracle) (g : pystr) (st : State) : option Song * State :=
  let st :=
    match all_cached st with
    | [] => _preload_playlists o st
    | _ => st
    end in
  let all_songs := all_cached st in
  match all_songs with
  | [] => (None, st)
  | _ =>
    let one_day_ago := now o - 86400 in
    let '(song, st) :=
      match (if bool_decide (g = []) then None else played_songs st !! g) with
      | Some played =>
          let played := filter (fun kv => one_day_ago < kv.2) played in
          let available :=
            List.filter (fun s => bool_decide (played !! song_id s = None)) all_songs in
          match available with
          | [] => (random_choice o all_songs,
                   set_played_songs (<[g := ∅]> (played_songs st)) st)
          | _ => (random_choice o available,
                  set_played_songs (<[g := played]> (played_songs st)) st)
          end
      | None => (random_choice o all_songs, st)
      end in
    match song with
    | None => (None, st)   (* not reached: the lists drawn from are not empty *)
    | Some song =>
        let st :=
          if bool_decide (g = []) then st
          else
            let played := default ∅ (played_songs st !! g) in
            set_played_songs (<[g := <[song_id song := now o]> played]> (played_songs st)) st in
        (Some song, st)
    end
  end.

(** *** Settlement *)

(** [sorted(items, key=score, reverse=True)]: a stable sort, the larger
    score first and equal scores in the order of the dictionary. *)
Fixpoint insert_desc (x : pystr * Participant) (l : list (pystr * Participant))
  : list (pystr * Participant) :=
  match l with
  | [] => [x]
  | y :: l' =>
      if p_score y.2 <=? p_score x.2 then x :: l else y :: insert_desc x l'
  end.

Definition sorted_scores_of (scores : list (pystr * Participant))
  : list (pystr * Participant) :=
  foldr insert_desc [] scores.

(** The lines of the ranking: [enumerate(sorted_scores, 1)]. *)
Definition score_lines (sorted_scores : list (pystr * Participant)) : list Line :=
  imap (fun i '(uid, data) => LScore (Z.of_nat i + 1) (p_name data) (p_score data))
       sorted_scores.

(** The ledger writes of the same loop: [if score > 0: self._add_score(...)]. *)
Definition save_scores (g : pystr) (sorted_scores : list (pystr * Participant))
  (st : State) : State :=
  foldl (fun st '(uid, data) =>
           if 0 <? p_score data
           then _add_score g uid (p_name data) (p_score data) st
           else st)
        st sorted_scores.

(** The truth-or-dare lines, for at least two participants. *)
Definition challenge_lines (o : Oracle) (sorted_scores : list (pystr * Participant))
  : list Line :=
  match sorted_scores, last sorted_scores with
  | (winner_id, winner_data) :: _, Some (_, last_data) =>
      if 2 <=? Z.of_nat (length sorted_scores) then
        let winner_name := p_name winner_data in
        let min_score := p_score last_data in
        let losers :=
          List.filter (fun x => p_score x.2 =? min_score) sorted_scores in
        let punishment_type := punishment o in
        LBlank ::
        match losers with
        | [(loser_id, loser_data)] =>
            [LWinner winner_name; LPunishment punishment_type;
             LChallenge (p_name loser_data) punishment_type]
        | _ =>
            [LWinner winner_name; LTiedLosers (map (fun x => p_name x.2) losers);
             LPunishment punishment_type; LPickOne winner_name]
        end
      else []
  | _, _ => []
  end.

Definition _end_game (o : Oracle) (g : pystr) (st : State) : State * list Msg :=
  match sessions st !! g with
  | None => (st, [])
  | Some session =>
      let st := cancel_timeout session st in
      let session := set_status Ended session in
      let st := set_sessions (<[g := session]> (sessions st)) st in
      let scores := participants session in
      match scores with
      | [] => (set_sessions (delete g (sessions st)) st, [MEndedEmpty])
      | _ =>
          let sorted_scores := sorted_scores_of scores in
          let lines :=
            [LTitle; LRounds (round_num session); LBlank; LScoresHeader]
            ++ score_lines sorted_scores in
          let st := save_scores g sorted_scores st in
          let lines := lines ++ challenge_lines o sorted_scores in
          (set_sessions (delete g (sessions st)) st, [MSettlement lines])
      end
  end.

(** *** Rounds *)

(** The presentation of a round: the voice record and a prompt, or a prompt
    with the link when the record is late, fails, or the platform has none. *)
Definition round_messages (o : Oracle) (round : Z) (song : Song) : list Msg :=
  match delivery o with
  | VoiceSent => [MRecord (song_id song); MRoundPrompt VoiceSent round (song_id song)]
  | how => [MRoundPrompt how round (song_id song)]
  end.

Definition create_task (g : pystr) (st : State) : nat * State :=
  (length (timers st), set_timers (timers st ++ [mkTimer g Sleeping]) st).

(** The rest of [_next_round] once a song is drawn: the round is set up, the
    previous timer cancelled, the song presented and a new timer started. *)
Definition begin_round (o : Oracle) (g : pystr) (session : GameSession)
  (next_round : Z) (song : Song) (st : State) : State * list Msg :=
  let session := set_current_song (Some song) session in
  let session := set_hint_level 0 session in
  let session := set_round_num next_round session in
  let session := set_round_answered false session in
  let st := cancel_timeout session st in
  let out := round_messages o (round_num session) song in
  let '(tid, st) := create_task g st in
  let session := set_timeout_task (Some tid) session in
  (set_sessions (<[g := session]> (sessions st)) st, out).

Definition _next_round (o : Oracle) (g : pystr) (st : State) : State * list Msg :=
  match sessions st !! g with
  | None => (st, [])
  | Some session =>
      let next_round := round_num session + 1 in
      if max_rounds cfg <? next_round then _end_game o g st
      else
        match _get_random_song o g st with
        | (None, st) =>
            let '(st, out) := _end_game o g st in (st, MNoSong :: out)
        | (Some song, st) => begin_round o g session next_round song st
        end
  end.

(** [self._get_session(group_id)] *)
Definition _get_session (g : pystr) (st : State) : GameSession * State :=
  match sessions st !! g with
  | Some session => (session, st)
  | None =>
      let session := new_session g in
      (session, set_sessions (<[g := session]> (sessions st)) st)
  end.

Definition _start_game (o : Oracle) (g : pystr) (st : State) : State * list Msg :=
  let '(session, st) := _get_session g st in
  let session := set_status Playing session in
  let session := set_round_num 0 session in
  let session := set_start_time (now o) session in
  let st := set_sessions (<[g := session]> (sessions st)) st in
  let started :=
    MGameStarted (Z.of_nat (length (participants session)))
                 (map (fun x => p_name x.2) (participants session)) in
  let '(st, out) := _next_round o g st in
  (st, started :: out).

(** The event loop resumes the task [tid] of [_round_timeout]: after the
    round's sleep it announces the timeout, after the pause it moves on, and
    a cancelled task only takes its [CancelledError]. *)
Definition _round_timeout (o : Oracle) (tid : nat) (st : State) : State * list Msg :=
  match timers st !! tid with
  | None => (st, [])
  | Some t =>
      match tk_state t with
      | Finished => (st, [])
      | Cancelled => (finish tid st, [])
      | Sleeping =>
          match sessions st !! tk_group t with
          | None => (finish tid st, [])
          | Some session =>
              if bool_decide (status session = Playing) then
                match current_song session with
                | Some song =>
                    (set_timers (alter (fun t => mkTimer (tk_group t) Pausing) tid
                                       (timers st)) st,
                     [MTimeUp (song_name song) (song_artist song)])
                | None => (finish tid st, [])   (* KeyError, logged *)
                end
              else (finish tid st, [])
          end
      | Pausing =>
          let '(st, out) := _next_round o (tk_group t) st in
          (finish tid st, out)
      end
  end.

(** *** Command handlers

    A handler gets the group of the event and the pair [_get_user_info]
    returns for it. *)

Definition cmd_create_game (g user_id nick origin : pystr) (st : State)
  : State * list Msg :=
  if bool_decide (g = []) then (st, [MGroupOnly])
  else
    let create :=
      let session :=
        mkSession g Waiting [(user_id, mkParticipant nick 0)] None 0 0 0 None
                  origin user_id false in
      (set_sessions (<[g := session]> (sessions st)) st, [MCreated nick]) in
    match sessions st !! g with
    | Some session =>
        match status session with
        | Waiting => (st, [MWaitingInfo (Z.of_nat (length (participants session)))])
        | Playing => (st, [MPlayingInfo (round_num session)])
        | Ended => create
        end
    | None => create
    end.

Definition cmd_start_game (o : Oracle) (g user_id nick : pystr) (st : State)
  : State * list Msg :=
  if bool_decide (g = []) then (st, [MGroupOnly])
  else
    match sessions st !! g with
    | None => (st, [MCreateFirst])
    | Some session =>
        match status session with
        | Playing =>
            match current_song session with
            | Some song =>
                (st, [MRoundInfo (round_num session)
                                 (_get_hint (song_name song) (hint_level session))])
            | None => (st, [])
            end
        | Ended => (st, [MBadState])
        | Waiting =>
            if Z.of_nat (length (participants session)) <? min_players cfg
            then (st, [MTooFewPlayers (min_players cfg)])
            else if bool_decide (creator_id session ≠ user_id)
                    && bool_decide (user_id ∉ admin_ids cfg)
            then (st, [MUnauthorized])
            else
              let '(st, out) := _start_game o g st in
              (st, MStarting nick :: out)
        end
    end.

Definition cmd_hint (g : pystr) (st : State) : State * list Msg :=
  if bool_decide (g = []) then (st, [MGroupOnly])
  else
    match sessions st !! g with
    | None => (st, [MNoGame])
    | Some session =>
        if bool_decide (status session ≠ Playing) then (st, [MNoGame])
        else
          let session := set_hint_level (hint_level session + 1) session in
          let st := set_sessions (<[g := session]> (sessions st)) st in
          match current_song session with
          | Some song =>
              (st, [MHint (hint_level session)
                          (_get_hint (song_name song) (hint_level session))
                          (song_artist song)])
          | None => (st, [])   (* KeyError on song["name"] *)
          end
    end.

Definition cmd_answer (g user_id : pystr) (st : State) : State * list Msg :=
  if bool_decide (g = []) then (st, [MGroupOnly])
  else if bool_decide (user_id ∉ admin_ids cfg) then (st, [MAdminOnly])
  else
    match sessions st !! g with
    | None => (st, [MNoGame])
    | Some session =>
        if bool_decide (status session ≠ Playing) then (st, [MNoGame])
        else
          let st := cancel_timeout session st in
          match current_song session with
          | Some song =>
              (set_suspended (suspended st ++ [ThenNextRound g]) st,
               [MReveal (song_name song) (song_artist song)])
          | None => (st, [])   (* KeyError on song['name'] *)
          end
    end.

Definition cmd_end_game (g : pystr) (st : State) : State * list Msg :=
  if bool_decide (g = []) then (st, [MGroupOnly])
  else
    match sessions st !! g with
    | None => (st, [MNoGame])
    | Some session =>
        match status session with
        | Ended => (st, [MNoGame])
        | status =>
            (set_suspended (suspended st ++ [ThenEndGame g]) st,
             match status, current_song session with
             | Playing, Some song =>
                 [MAnswerSettling (song_name song) (song_artist song)]
             | _, _ => []
             end)
        end
    end.

Definition cmd_admin_end_game (g user_id nick : pystr) (st : State)
  : State * list Msg :=
  if bool_decide (g = []) then (st, [MGroupOnly])
  else if bool_decide (user_id ∉ admin_ids cfg) then (st, [MAdminOnly])
  else
    match sessions st !! g with
    | None => (st, [MNoGame])
    | Some session =>
        match status session with
        | Ended => (st, [MNoGame])
        | status =>
            (set_suspended (suspended st ++ [ThenEndGame g]) st,
             [MForceEnd nick
                match status, current_song session with
                | Playing, Some song => Some (song_name song, song_artist song)
                | _, _ => None
                end])
        end
    end.

(** *** The message listener *)

Definition on_message (g user_id nick message_str : pystr) (st : State)
  : State * list Msg :=
  let text := strip message_str in
  if bool_decide (text = []) then (st, [])
  else if bool_decide (g = []) then (st, [])
  else
    match sessions st !! g with
    | None => (st, [])
    | Some session =>
        let status := status session in
        if contains join_signal text
           && bool_decide (status = Waiting ∨ status = Playing) then
          match Dict.get user_id (participants session) with
          | Some _ => (st, [MAlreadyJoined])
          | None =>
              if max_players cfg <=? Z.of_nat (length (participants session))
              then (st, [MRosterFull (max_players cfg)])
              else
                let session :=
                  set_participants
                    (Dict.set user_id (mkParticipant nick 0) (participants session))
                    session in
                let count := Z.of_nat (length (participants session)) in
                (set_sessions (<[g := session]> (sessions st)) st,
                 [if bool_decide (status = Waiting)
                  then MJoined nick count else MJoinedMidGame nick count])
          end
        else if bool_decide (status = Playing) then
          match current_song session with
          | None => (st, [])   (* no "name": the expected answer is empty *)
          | Some song =>
              let correct_answer := song_name song in
              if bool_decide (correct_answer = []) then (st, [])
              else if startswith text [35%N] || startswith text [47%N] then (st, [])
              else if _check_answer lower text correct_answer then
                if round_answered session then (st, [])
                else
                  match Dict.get user_id (participants session) with
                  | None => (st, [MJoinFirst])
                  | Some player =>
                      let session := set_round_answered true session in
                      let st := cancel_timeout session st in
                      let total_score := p_score player + 1 in
                      let session :=
                        set_participants
                          (Dict.set user_id
                                    (mkParticipant (p_name player) total_score)
                                    (participants session))
                          session in
                      let st := set_sessions (<[g := session]> (sessions st)) st in
                      (set_suspended (suspended st ++ [ThenNextRound g]) st,
                       [MCorrect nick (song_name song) (song_artist song) total_score])
                  end
              else (st, [])
          end
        else (st, [])
    end.

(** [terminate]: every session's timer is cancelled. *)
Definition terminate (st : State) : State :=
  map_fold (fun _ session st => cancel_timeout session st) st (sessions st).

(** *** The event loop *)

Inductive Event :=
| CreateGame (g user_id nick origin : pystr)
| StartGame (g user_id nick : pystr)
| Hint (g : pystr)
| Answer (g user_id : pystr)
| EndGame (g : pystr)
| AdminEndGame (g user_id nick : pystr)
| Message (g user_id nick message_str : pystr)
| TimerWakes (tid : nat)
| HandlerWakes (i : nat)
| Terminate.

(** A handler asleep wakes up and makes its call. *)
Definition resume (o : Oracle) (i : nat) (st : State) : State * list Msg :=
  match suspended st !! i with
  | None => (st, [])
  | Some k =>
      let st := set_suspended (delete i (suspended st)) st in
      match k with
      | ThenNextRound g => _next_round o g st
      | ThenEndGame g => _end_game o g st
      end
  end.

Definition step (o : Oracle) (e : Event) (st : State) : State * list Msg :=
  match e with
  | CreateGame g u nick origin => cmd_create_game g u nick origin st
  | StartGame g u nick => cmd_start_game o g u nick st
  | Hint g => cmd_hint g st
  | Answer g u => cmd_answer g u st
  | EndGame g => cmd_end_game g st
  | AdminEndGame g u nick => cmd_admin_end_game g u nick st
  | Message g u nick text => on_message g u nick text st
  | TimerWakes tid => _round_timeout o tid st
  | HandlerWakes i => resume o i st
  | Terminate => (terminate st, [])
  end.

(** A run of the event loop, with everything sent on the way. *)
Fixpoint run (es : list (Oracle * Event)) (st : State) : State * list Msg :=
  match es with
  | [] => (st, [])
  | (o, e) :: es' =>
      let '(st1, out1) := step o e st in
      let '(st2, out2) := run es' st1 in
      (st2, out1 ++ out2)
  end.

(** The plugin starts without sessions, tasks or sleeping handlers. *)
Definition initial (st : State) : Prop :=
  sessions st = ∅ ∧ timers st = [] ∧ suspended st = [].

Inductive reachable : State -> Prop :=
| reachable_initial st : initial st -> reachable st
| reachable_step o e st : reachable st -> reachable (step o e st).1.

End Plugin.

(** ** Notions the properties are stated with *)

(** [n] hint requests in a row: the level stored after each of them and
    what it sends. *)
Fixpoint hint_requests (n : nat) (g : pystr) (st : State) : list (Z * list Msg) :=
  match n with
  | O => []
  | S n' =>
      let r := cmd_hint g st in
      (from_option hint_level 0 (sessions r.1 !! g), r.2) :: hint_requests n' g r.1
  end.

(** The specification on the hint level, as it is worded: the stored level never
    exceeds the length of the title. *)
Definition hint_level_capped (st : State) : Prop :=
  forall g s song,
    sessions st !! g = Some s -> current_song s = Some song ->
    hint_level s <= Z.of_nat (length (song_name song)).

(** The specification on authorisation, as it is worded: whoever asks to start a
    waiting game without being its creator or an administrator is answered
    that only those may start it. *)
Definition start_refuses_strangers (cfg : Config) (o : Oracle)
  (g user_id nick : pystr) (st : State) : Prop :=
  forall session,
    sessions st !! g = Some session -> status session = Waiting ->
    creator_id session ≠ user_id -> user_id ∉ admin_ids cfg ->
    (cmd_start_game cfg o g user_id nick st).2 = [MUnauthorized].

Abbreviation score_of := (fun x : pystr * Participant => p_score x.2).

(** The order of the ranking: the earlier entry scores at least as much. *)
Definition ranks_before (x y : pystr * Participant) : Prop :=
  score_of y <= score_of x.


(** The ledger entry of a scorer after the merge: the latest name, the
    session score added, one more win. *)
Definition merged (old : option LedgerEntry) (p : Participant) : LedgerEntry :=
  mkEntry (p_name p) (from_option score 0 old + p_score p)
          (from_option wins 0 old + 1).

(** [m] is the least score of the roster [l]. *)
Definition minimum_score (m : Z) (l : list (pystr * Participant)) : Prop :=
  (exists x, x ∈ l /\ score_of x = m) /\ forall x, x ∈ l -> m <= score_of x.

(** [w] is the top scorer of the roster [l]: the first entry, in the order
    of the dictionary, that holds the largest score. *)
Definition top_scorer (w : pystr * Participant) (l : list (pystr * Participant)) : Prop :=
  exists before after,
    l = before ++ w :: after
    /\ (forall x, x ∈ before -> score_of x < score_of w)
    /\ (forall x, x ∈ after -> score_of x <= score_of w).

(** ** A small game, to run the definitions on *)

Module Demo.

(** One administrator, at least one and at most three players, ten rounds. *)
Definition admin : pystr := [57%N].
Definition alice : pystr := [49%N].
Definition bob : pystr := [50%N].
Definition carol : pystr := [51%N].
Definition dave : pystr := [52%N].
Definition group : pystr := [52; 50]%N.

Definition cfg : Config := mkConfig 60 10 {[admin]} 1 3 15.

(** 月亮 and two more titles. *)
Definition moon : Song := mkSong 1 [26376; 20142]%N [65%N].
Definition song2 : Song := mkSong 2 [28909; 38376; 20142]%N [66%N].
Definition song3 : Song := mkSong 3 [32463; 20856]%N [67%N].

(** The draw takes the first song not played yet; the platform has no voice. *)
Definition oracle : Oracle := mkOracle 1000 0 (fun _ => []) OtherPlatform Truth.

Definition st0 : State :=
  mkState ∅ ∅ [([28909; 38376]%N, [moon; song2; song3])] ∅ [] [].

(** Alice creates a game and Bob joins. *)
Definition lobby : State :=
  (run cfg ascii_lower
       [ (oracle, CreateGame group alice [65%N] []);
         (oracle, Message group bob [66%N] join_signal) ]
       st0).1.

Definition lobby_session : GameSession :=
  default (new_session []) (sessions lobby !! group).

(** Alice starts the game: round 1 plays 月亮. *)
Definition round1 : State :=
  (cmd_start_game cfg oracle group alice [65%N] lobby).1.

(** The draw that takes the second song, whose title has three characters. *)
Definition oracle2 : Oracle := mkOracle 1000 1 (fun _ => []) OtherPlatform Truth.

Definition three_char_round : State :=
  (cmd_start_game cfg oracle2 group alice [65%N] lobby).1.

Definition three_char_session : GameSession :=
  default (new_session []) (sessions three_char_round !! group).


(** The same plugin asked for three players at least. *)
Definition cfg3 : Config := mkConfig 60 10 {[admin]} 3 3 15.

End Demo.

(** ** Consistency of the plugin state *)

(** A timer task that will still run the body of [_round_timeout]. *)
Definition live (t : TimerTask) : Prop :=
  tk_state t = Sleeping \/ tk_state t = Pausing.

(** What every state of the event loop satisfies: a session that is over is
    not kept, a timer that can still fire is the one its session holds in
    [timeout_task], and a roster has one entry per user. *)
Record consistent (st : State) : Prop := mkConsistent {
  no_ended_session :
    forall g s, sessions st !! g = Some s -> status s ≠ Ended;
  live_timer_registered :
    forall tid t, timers st !! tid = Some t -> live t ->
      exists s, sessions st !! tk_group t = Some s /\ timeout_task s = Some tid;
  distinct_participants :
    forall g s, sessions st !! g = Some s -> NoDup (Dict.keys (participants s))
}.

(** [new] has the tasks of [old], some of them further on their way. *)
Definition weakens (old new : list TimerTask) : Prop :=
  forall tid t', new !! tid = Some t' ->
    exists t, old !! tid = Some t /\ tk_group t' = tk_group t /\ (live t' -> live t).

(** The part of the state the song source never writes. *)
Definition same_game (st st' : State) : Prop :=
  sessions st' = sessions st /\ timers st' = timers st
  /\ suspended st' = suspended st /\ stats_files st' = stats_files st.


Module DemoSessions.
(** The session of the demo group when round 1 is on. *)
Definition round1_session : GameSession :=
  default (new_session []) (sessions Demo.round1 !! Demo.group).
End DemoSessions.

(** ** Notions about rosters and rounds *)

(** From [s] to [s'] nobody leaves the roster, no name changes and no score
    goes down. *)
Definition grows (s s' : GameSession) : Prop :=
  forall u p, Dict.get u (participants s) = Some p ->
    exists p', Dict.get u (participants s') = Some p'
               /\ p_name p' = p_name p /\ p_score p <= p_score p'.

(** The session of [g] as [_next_round] leaves it when a round begins. *)
Definition round_begun (song : Song) (tid : nat) (s : GameSession) : GameSession :=
  set_timeout_task (Some tid)
    (set_round_answered false
       (set_round_num (round_num s + 1)
          (set_hint_level 0 (set_current_song (Some song) s)))).

(** The lines of the settlement message [_end_game] sends, if it sends one. *)
Definition settlement_lines (out : list Msg) : list Line :=
  match out with
  | [MSettlement lines] => lines
  | _ => []
  end.

Section RunNotions.

Variable cfg : Config.
Variable lower : pystr -> pystr.

(** The group keeps its session through every step of the run. *)
Fixpoint stays_open (g : pystr) (es : list (Oracle * Event)) (st : State) : Prop :=
  match es with
  | [] => True
  | (o, e) :: es' =>
      let st1 := (step cfg lower o e st).1 in
      is_Some (sessions st1 !! g) /\ stays_open g es' st1
  end.

End RunNotions.

(** Between [st] and [st'] every session that is kept only grows. *)
Definition rosters_grow (st st' : State) : Prop :=
  forall g s s', sessions st !! g = Some s -> sessions st' !! g = Some s' -> grows s s'.

Module DemoJoin.
(** Carol sends the join emoji while round 1 is on: the state she leaves. *)
Definition carol_joined : State :=
  set_sessions
    (<[Demo.group :=
         set_participants
           (participants DemoSessions.round1_session
            ++ [(Demo.carol, mkParticipant [67%N] 0)])
           DemoSessions.round1_session]>
       (sessions Demo.round1))
    Demo.round1.
End DemoJoin.

(** ** Notions about answers *)

(** The points a session has given out so far. *)
Definition total_score (s : GameSession) : Z :=
  foldr (fun x acc => p_score x.2 + acc) 0 (participants s).

(** A message that counts as a correct answer to [title]: it is not empty,
    carries no join emoji, is not a command, and the matcher accepts it. *)
Definition correct_submission (lower : pystr -> pystr) (message_str title : pystr) : Prop :=
  let text := strip message_str in
  text ≠ []
  /\ contains join_signal text = false
  /\ startswith text [35%N] = false
  /\ startswith text [47%N] = false
  /\ _check_answer lower text title = true.

(** What users send: commands and messages, as opposed to the wake-ups of
    sleeping coroutines; none of them begins or ends a round. *)
Definition inbound (e : Event) : Prop :=
  match e with
  | TimerWakes _ | HandlerWakes _ | Terminate => False
  | _ => True
  end.

(** From [s] to [s'] the round is the same, and at most one point was given:
    either the flag and the scores are as they were, or the flag went up and
    one score went up by one. *)
Definition same_round (s s' : GameSession) : Prop :=
  status s' = status s /\ round_num s' = round_num s
  /\ current_song s' = current_song s /\ grows s s'
  /\ ((round_answered s' = round_answered s /\ total_score s' = total_score s)
      \/ (round_answered s = false /\ round_answered s' = true
          /\ total_score s' = total_score s + 1)).

Module DemoAnswers.
(** Alice answers 月亮 in round 1. *)
Definition alice_answered : State :=
  (on_message Demo.cfg ascii_lower Demo.group Demo.alice [65%N] [26376; 20142]%N
              Demo.round1).1.

Definition alice_answered_session : GameSession :=
  default (new_session []) (sessions alice_answered !! Demo.group).
End DemoAnswers.

(** ** Notions about timers *)




Module DemoRace.
(** In round 1 Alice's answer is accepted; before the pause of two seconds is
    over the administrator reveals the answer; then both handlers wake up. *)
Definition answered : State := DemoAnswers.alice_answered.

Definition revealed : State :=
  (cmd_answer Demo.cfg Demo.group Demo.admin answered).1.

End DemoRace.

(** * More of the plugin *)

(** ** The catalogue filter *)

(** One character of the class [一-鿿]. *)
Definition is_cjk (c : N) : bool := ((19968 <=? c) && (c <=? 40959))%N.

(** [re.fullmatch(r"[一-鿿]{2,7}", (name or "").strip())] *)
Definition _is_valid_song_name (name : pystr) : bool :=
  let s := strip name in
  forallb is_cjk s && (2 <=? length s)%nat && (length s <=? 7)%nat.

(** [re.fullmatch(r"[一-鿿]+", (name or "").strip())] *)
Definition _is_chinese_artist_name (name : pystr) : bool :=
  let s := strip name in
  forallb is_cjk s && (1 <=? length s)%nat.

(** One track of the catalogue's answer; a key that is absent is [None]. *)
Record Track := mkTrack {
  track_id : Z;
  track_fee : option Z;
  track_name : option pystr;
  track_artists : list (option pystr)    (* the "name" of each artist *)
}.

(** 未知歌曲, 未知歌手 and the separator 、 *)
Definition unknown_song : pystr := [26410; 30693; 27468; 26354]%N.
Definition unknown_artist : pystr := [26410; 30693; 27468; 25163]%N.
Definition artist_separator : pystr := [12289%N].

(** [sep.join(parts)] *)
Fixpoint str_join (sep : pystr) (parts : list pystr) : pystr :=
  match parts with
  | [] => []
  | [p] => p
  | p :: rest => p ++ sep ++ str_join sep rest
  end.

(** The body of the loop of [_fetch_playlist] for one track: the song it
    appends, or [None] when the track is skipped (paid, a title or an artist
    that is not plain Chinese, no artist). *)
Definition song_of_track (track : Track) : option Song :=
  let fee := default 1 (track_fee track) in
  if negb ((fee =? 0) || (fee =? 8)) then None
  else
    let song_name := default unknown_song (track_name track) in
    if negb (_is_valid_song_name song_name) then None
    else
      let artist_names :=
        List.filter (fun n => negb (bool_decide (n = [])))
                    (map (fun a => strip (default [] a)) (track_artists track)) in
      if bool_decide (artist_names = [])
         || existsb (fun n => negb (_is_chinese_artist_name n)) artist_names
      then None
      else
        let artists := str_join artist_separator artist_names in
        Some (mkSong (track_id track) song_name
                     (if bool_decide (artists = []) then unknown_artist else artists)).

(** The loop over the tracks, with the songs kept so far; it stops at the
    hundredth. *)
Fixpoint scan_tracks (tracks : list Track) (songs : list Song) : list Song :=
  match tracks with
  | [] => songs
  | track :: rest =>
      match song_of_track track with
      | None => scan_tracks rest songs
      | Some song =>
          let songs := songs ++ [song] in
          if (100 <=? length songs)%nat then songs else scan_tracks rest songs
      end
  end.

(** [_fetch_playlist] on the answer of the catalogue: [None] when the
    request failed, else the code and the tracks. *)
Definition _fetch_playlist (result : option (Z * list Track)) : list Song :=
  match result with
  | None => []
  | Some (code, tracks) =>
      if bool_decide (code ≠ 200) then [] else scan_tracks (take 200 tracks) []
  end.

Module DemoCatalogue.
(** A free track 月亮 by 王菲, a paid one, one with a Latin title, one
    without the key "name" and one without the key "fee". *)
Definition faye : pystr := [29579; 33778]%N.
Definition tracks : list Track :=
  [ mkTrack 1 (Some 0) (Some [26376; 20142]%N) [Some faye];
    mkTrack 2 (Some 1) (Some [28909; 38376]%N) [Some faye];
    mkTrack 3 (Some 8) (Some [77; 111; 111; 110]%N) [Some faye];
    mkTrack 4 (Some 8) None [Some faye];
    mkTrack 5 None (Some [26376; 20142]%N) [Some faye] ].

Definition moon : Song := mkSong 1 [26376; 20142]%N faye.
End DemoCatalogue.

(** ** Notions about the song source *)

(** The group heard [song] during the last 24 hours before [now o]. *)
Definition recently_played (o : Oracle) (played : gmap Z Z) (song : Song) : Prop :=
  exists ts, played !! song_id song = Some ts /\ now o - 86400 < ts.

Module DemoSongs.
(** The group heard 月亮 a minute ago and the second song two days ago. *)
Definition heard : State :=
  set_played_songs (<[Demo.group := <[1 := 940]> (<[2 := -200000]> ∅)]> ∅) Demo.st0.
End DemoSongs.

(** ** Notions about the leaderboard *)

(** From [st] to [st'] no leaderboard loses a user, and no user's historical
    score or number of scoring games goes down. *)
Definition ledger_grows (st st' : State) : Prop :=
  forall g users u e,
    stats_files st !! g = Some users -> users !! u = Some e ->
    exists users' e',
      stats_files st' !! g = Some users' /\ users' !! u = Some e'
      /\ score e <= score e' /\ wins e <= wins e'.

(** ** Notions about groups *)

(** The group an event is about: the group of the command or message, the
    group a timer task was made for, the group a sleeping handler works
    for. [terminate] is about no group in particular. *)
Definition acts_on (st : State) (e : Event) : option pystr :=
  match e with
  | CreateGame g _ _ _ | StartGame g _ _ | Hint g | Answer g _ | EndGame g
  | AdminEndGame g _ _ | Message g _ _ _ => Some g
  | TimerWakes tid => tk_group <$> timers st !! tid
  | HandlerWakes i =>
      match suspended st !! i with
      | Some (ThenNextRound g) | Some (ThenEndGame g) => Some g
      | None => None
      end
  | Terminate => None
  end.

(** What the plugin holds for one group: its session, its leaderboard and
    the record of the songs it heard. *)
Definition group_view (g : pystr) (st : State)
  : option GameSession * option (gmap pystr LedgerEntry) * option (gmap Z Z) :=
  (sessions st !! g, stats_files st !! g, played_songs st !! g).

Module DemoGroups.
(** A second group, with a leaderboard of its own. *)
Definition other : pystr := [52; 51]%N.
Definition two_groups : State :=
  set_stats_files (<[other := <[Demo.bob := mkEntry [66%N] 3 1]> ∅]> ∅)
                  DemoAnswers.alice_answered.
End DemoGroups.

(** ** Notions about fair play *)

(** What holds of a session all along: no score is negative, the roster has
    at most [max_players] users (one if the limit is lower, the creator), a
    game that has not started has given no point, the points given do not
    exceed the rounds begun, and a round nobody has answered yet has a point
    left to give. *)
Record fair (cfg : Config) (s : GameSession) : Prop := mkFair {
  scores_not_negative : Forall (fun x => 0 <= score_of x) (participants s);
  roster_within_cap :
    Z.of_nat (length (participants s)) <= Z.max 1 (max_players cfg);
  rounds_not_negative : 0 <= round_num s;
  waiting_without_points : status s = Waiting -> total_score s = 0;
  one_point_per_round : total_score s <= round_num s;
  open_round_has_a_point_left :
    status s = Playing -> round_answered s = false -> total_score s < round_num s
}.

(** Every session is kept under the id of its group and is [fair]. *)
Definition fair_play (cfg : Config) (st : State) : Prop :=
  forall g s, sessions st !! g = Some s -> group_id s = g /\ fair cfg s.

(** ** Cache cleaning *)

(** [s.endswith(suffix)] *)
Definition endswith (s suffix : pystr) : bool := startswith (rev s) (rev suffix).

(** ".json" *)
Definition dot_json : pystr := [46; 106; 115; 111; 110]%N.

(** The name of the file [_get_stats_path] points to: f"stats_{group_id}.json". *)
Definition stats_file_name (g : pystr) : pystr :=
  [115; 116; 97; 116; 115; 95]%N ++ g ++ dot_json.

(** A name [os.listdir] returns, with what [os.path.isfile],
    [os.path.getmtime] and [os.path.getsize] answer for it (times in seconds,
    sizes in bytes), and whether [os.remove] raises on it. *)
Record DirEntry := mkDirEntry {
  d_name : pystr;
  d_isfile : bool;
  d_mtime : Z;
  d_size : Z;
  d_locked : bool
}.

(** What [_cleanup_cache] writes to the log. *)
Inductive CleanupLog :=
| LogNoDirectory                                  (* 缓存目录不存在 *)
| LogCleaned (deleted_count deleted_size : Z)     (* 缓存清理完成，删除 n 个文件 *)
| LogNothingExpired                               (* 缓存清理完成，无过期文件 *)
| LogFailed.                                      (* 缓存清理失败 *)

(** The loop over the listing: what is left of the directory, and the two
    counters, or [None] when [os.remove] raised and the loop was left. *)
Fixpoint cleanup_loop (now max_age : Z) (listing : list DirEntry)
  (deleted_count deleted_size : Z) : list DirEntry * option (Z * Z) :=
  match listing with
  | [] => ([], Some (deleted_count, deleted_size))
  | f :: rest =>
      let keep :=
        let '(kept, counters) :=
          cleanup_loop now max_age rest deleted_count deleted_size in
        (f :: kept, counters) in
      if negb (d_isfile f) then keep
      else if endswith (d_name f) dot_json then keep
      else if max_age <? now - d_mtime f then
        if d_locked f then (f :: rest, None)
        else cleanup_loop now max_age rest (deleted_count + 1) (deleted_size + d_size f)
      else keep
  end.

(** [_cleanup_cache], for the directory at [cache_path] if there is one. *)
Definition _cleanup_cache (cache_cleanup_hours now : Z) (dir : option (list DirEntry))
  : option (list DirEntry) * CleanupLog :=
  match dir with
  | None => (None, LogNoDirectory)
  | Some listing =>
      let max_age := cache_cleanup_hours * 3600 in
      match cleanup_loop now max_age listing 0 0 with
      | (kept, Some (deleted_count, deleted_size)) =>
          (Some kept,
           if 0 <? deleted_count then LogCleaned deleted_count deleted_size
           else LogNothingExpired)
      | (kept, None) => (Some kept, LogFailed)
      end
  end.

(** The test an entry has to pass to be removed: a regular file, not a
    .json file, older than [max_age] seconds. *)
Definition expired_file (now max_age : Z) (f : DirEntry) : bool :=
  d_isfile f && negb (endswith (d_name f) dot_json) && (max_age <? now - d_mtime f).

Definition removable (cache_cleanup_hours now : Z) (f : DirEntry) : bool :=
  expired_file now (cache_cleanup_hours * 3600) f.

Module DemoCache.
(** A data directory two days after the last game: the leaderboard of the
    demo group, a sub-directory, an old voice file and a new one. *)
Definition leaderboard : DirEntry :=
  mkDirEntry (stats_file_name Demo.group) true 0 300 false.
Definition old_voice : DirEntry :=
  mkDirEntry [49; 46; 109; 112; 51]%N true 0 4000 false.
Definition new_voice : DirEntry :=
  mkDirEntry [50; 46; 109; 112; 51]%N true 180000 5000 false.
Definition folder : DirEntry :=
  mkDirEntry [116; 109; 112]%N false 0 4096 false.
Definition listing : list DirEntry := [leaderboard; folder; old_voice; new_voice].
End DemoCache.

(** ** The leaderboard command *)

(** One user of the leaderboard file as [json.load] returns it; each of the
    three keys may be missing. *)
Record RankEntry := mkRankEntry {
  r_nickname : option pystr;
  r_score : option Z;
  r_wins : option Z
}.

(** The sort key: [x[1].get("score", 0)]. *)
Definition rank_score (x : pystr * RankEntry) : Z := default 0 (r_score x.2).

(** [sorted(users.items(), key=..., reverse=True)]: stable, the larger score
    first. *)
Fixpoint insert_ranked (x : pystr * RankEntry) (l : list (pystr * RankEntry))
  : list (pystr * RankEntry) :=
  match l with
  | [] => [x]
  | y :: l' =>
      if rank_score y <=? rank_score x then x :: l else y :: insert_ranked x l'
  end.

Definition sorted_users_of (users : list (pystr * RankEntry))
  : list (pystr * RankEntry) :=
  foldr insert_ranked [] users.

(** 用户, the prefix of a made-up nickname, and [uid[-4:]]. *)
Definition user_prefix : pystr := [29992; 25143]%N.
Definition last_four (uid : pystr) : pystr := drop (length uid - 4) uid.

(** One line of the board: the rank (shown as a medal up to 3), the
    nickname, the score and the number of scoring games. *)
Record RankLine := mkRankLine {
  l_rank : Z;
  l_name : pystr;
  l_score : Z;
  l_wins : Z
}.

Definition rank_line (i : nat) (x : pystr * RankEntry) : RankLine :=
  let '(uid, data) := x in
  mkRankLine (Z.of_nat i + 1)
             (default (user_prefix ++ last_four uid) (r_nickname data))
             (default 0 (r_score data))
             (default 0 (r_wins data)).

Inductive RankingReply :=
| RankingGroupOnly                         (* ❌ 仅支持群聊使用。 *)
| RankingNoData                            (* 📊 暂无排行榜数据 *)
| RankingBoard (lines : list RankLine).    (* 🏆 【猜歌排行榜】 *)

(** [cmd_ranking], for the "users" object of the group's leaderboard file,
    in the order of the file. *)
Definition cmd_ranking (g : pystr) (users : list (pystr * RankEntry)) : RankingReply :=
  if bool_decide (g = []) then RankingGroupOnly
  else
    match users with
    | [] => RankingNoData
    | _ =>
        let sorted_users := sorted_users_of users in
        RankingBoard (imap rank_line (take 10 sorted_users))
    end.

Module DemoBoard.
(** Twelve users, the i-th with i points; the second has no nickname. *)
Definition user (i : Z) : pystr * RankEntry :=
  ([48 + Z.to_N i; 48; 48; 48; 55]%N,
   mkRankEntry (if i =? 2 then None else Some [64 + Z.to_N i]%N) (Some i) (Some 1)).
Definition users : list (pystr * RankEntry) :=
  map user [1; 2; 3; 4; 5; 6; 7; 8; 9; 10; 11; 12].
End DemoBoard.

(** ** Notions about the songs in play *)

(** The fetch of the step answers the way [_fetch_playlist] does, for some
    answer of the catalogue. *)
Definition from_catalogue (o : Oracle) : Prop :=
  forall playlist_id, exists result, fetch o playlist_id = _fetch_playlist result.

(** A song the filter of [_fetch_playlist] lets through: the title is
    acceptable to [_is_valid_song_name] and the artist is not empty. *)
Definition playable (song : Song) : Prop :=
  _is_valid_song_name (song_name song) = true /\ song_artist song ≠ [].

(** Every cached playlist has at most a hundred songs, all of them
    [playable], and so is the song of every session. *)
Definition songs_playable (st : State) : Prop :=
  Forall (fun entry : pystr * list Song =>
            (length entry.2 <= 100)%nat /\ Forall playable entry.2)
         (playlist_cache st)
  /\ forall g s song,
       sessions st !! g = Some s -> current_song s = Some song -> playable song.
(** * Properties *)

(** ** Strings *)

Lemma startswith_spec (s prefix : pystr) :
  startswith s prefix = true <-> exists rest, s = prefix ++ rest.
Proof.
  revert s; induction prefix as [|p prefix IH]; intros s; simpl.
  - split; [intros _; by exists s | reflexivity].
  - destruct s as [|c s]; simpl.
    + split; [done | intros [rest H]; discriminate].
    + rewrite andb_true_iff, N.eqb_eq, IH. split.
      * intros [-> [rest ->]]. by exists rest.
      * intros [rest H]. injection H as -> ->. eauto.
Qed.

(** [contains sub s] holds exactly when [sub] occurs inside [s]. *)
Lemma contains_spec (sub s : pystr) :
  contains sub s = true <-> exists before after, s = before ++ sub ++ after.
Proof.
  induction s as [|c s IH].
  - simpl. rewrite orb_false_r, startswith_spec. split.
    + intros [rest H]. exists [], rest. done.
    + intros (before & after & H). destruct before; simpl in H.
      * by exists after.
      * discriminate.
  - simpl. rewrite orb_true_iff, startswith_spec, IH. split.
    + intros [[rest H] | (before & after & H)].
      * exists [], rest. done.
      * exists (c :: before), after. by rewrite H.
    + intros (before & after & H). destruct before as [|b before]; simpl in H.
      * left. by exists after.
      * right. injection H as _ H. by exists before, after.
Qed.

(** [lstrip] drops a prefix of whitespace, and what is left does not begin
    with whitespace. *)
Lemma lstrip_spec (s : pystr) :
  exists dropped,
    s = dropped ++ lstrip s
    /\ Forall (fun c => isspace c = true) dropped
    /\ (forall c rest, lstrip s = c :: rest -> isspace c = false).
Proof.
  induction s as [|c s (dropped & Heq & Hsp & Hfirst)]; simpl.
  - exists []. split; [done|]. split; [constructor|done].
  - destruct (isspace c) eqn:Hc.
    + exists (c :: dropped). split; [simpl; by f_equal|].
      split; [by constructor|done].
    + exists []. split; [done|]. split; [constructor|].
      by intros c' rest [= <- _].
Qed.

Example strip_trims_both_ends :
  strip [12288; 32; 77; 32; 111; 9; 10]%N = [77; 32; 111]%N.
Proof. reflexivity. Qed.

(** ** HintGenerator *)

Lemma reveal_loop (song_name : pystr) (n : nat) :
  (n <= length song_name)%nat ->
  foldl (fun hint i =>
           match song_name !! i with
           | Some c => <[i := c]> hint
           | None => hint
           end)
        (replicate (length song_name) star) (seq 0 n)
  = take n song_name ++ replicate (length song_name - n) star.
Proof.
  induction n as [|n IH]; intros Hn.
  - simpl. by rewrite Nat.sub_0_r.
  - rewrite seq_S, foldl_app, IH by lia. simpl.
    destruct (lookup_lt_is_Some_2 song_name n) as [c Hc]; [lia|].
    rewrite Hc.
    rewrite insert_app_r_alt by (rewrite length_take; lia).
    rewrite length_take, Nat.min_l by lia. rewrite Nat.sub_diag.
    replace (length song_name - n)%nat with (S (length song_name - S n)) by lia.
    simpl. rewrite (take_S_r _ _ c) by done.
    by rewrite <- app_assoc.
Qed.

(** The hint in closed form: the revealed prefix, then the mask. *)
Lemma _get_hint_closed (song_name : pystr) (level : Z) :
  let revealed := Z.to_nat (Z.min level (Z.of_nat (length song_name))) in
  _get_hint song_name level
  = take revealed song_name ++ replicate (length song_name - revealed) star.
Proof.
  unfold _get_hint. destruct (Z.leb_spec level 0) as [Hl|Hl]; simpl.
  - replace (Z.to_nat _) with 0%nat by lia.
    by rewrite take_0, Nat.sub_0_r.
  - apply reveal_loop. lia.
Qed.

(** C5. The hint has as many characters as the title; its first
    [min(level, len(title))] characters are those of the title, each in its
    place, and every other position holds the mask; a level of 0 or less
    reveals nothing. *)
Theorem hint_reveals_leading_characters (song_name : pystr) (level : Z) :
  let revealed := Z.to_nat (Z.min level (Z.of_nat (length song_name))) in
  length (_get_hint song_name level) = length song_name
  /\ (forall i, (i < revealed)%nat -> _get_hint song_name level !! i = song_name !! i)
  /\ (forall i, (revealed <= i < length song_name)%nat ->
                _get_hint song_name level !! i = Some star)
  /\ (level <= 0 -> _get_hint song_name level = replicate (length song_name) star).
Proof.
  intros revealed. rewrite _get_hint_closed. fold revealed.
  assert (revealed <= length song_name)%nat as Hr by (unfold revealed; lia).
  split; [|split; [|split]].
  - rewrite length_app, length_take, length_replicate. lia.
  - intros i Hi. rewrite lookup_app_l by (rewrite length_take; lia).
    by apply lookup_take_lt.
  - intros i Hi. rewrite lookup_app_r by (rewrite length_take; lia).
    rewrite length_take. apply lookup_replicate_2. lia.
  - intros Hl. replace revealed with 0%nat by (unfold revealed; lia).
    by rewrite take_0, Nat.sub_0_r.
Qed.

Lemma hint_of_moon_at_level_one :
  (0 < Z.to_nat (Z.min 1 (Z.of_nat (length [26376; 20142]%N))))%nat
  /\ (Z.to_nat (Z.min 1 (Z.of_nat (length [26376; 20142]%N))) <= 1 < 2)%nat
  /\ -1 <= 0
  /\ _get_hint [26376; 20142]%N 1 !! 0%nat = Some 26376%N
  /\ _get_hint [26376; 20142]%N 1 !! 1%nat = Some star
  /\ _get_hint [26376; 20142]%N (-1) = [star; star].
Proof.
  assert (0 < Z.to_nat (Z.min 1 (Z.of_nat (length [26376; 20142]%N))))%nat as H0
    by (vm_compute; lia).
  assert (Z.to_nat (Z.min 1 (Z.of_nat (length [26376; 20142]%N))) <= 1 < 2)%nat as H1
    by (vm_compute; lia).
  assert (-1 <= 0) as H2 by lia.
  split; [exact H0|]. split; [exact H1|]. split; [exact H2|].
  split; [|split].
  - exact (proj1 (proj2 (hint_reveals_leading_characters [26376; 20142]%N 1)) 0%nat H0).
  - exact (proj1 (proj2 (proj2 (hint_reveals_leading_characters [26376; 20142]%N 1)))
                 1%nat H1).
  - exact (proj2 (proj2 (proj2 (hint_reveals_leading_characters [26376; 20142]%N (-1))))
                 H2).
Defined.

(** ** AnswerMatcher *)

(** C3, as the code has it. Both sides are trimmed, lower-cased and freed of
    their U+0020 characters (other inner whitespace stays); the answer is
    accepted exactly when the two results are equal, or the title occurs in
    the submission, or the submission has two characters or more and occurs
    in the title. 月亮 against 月亮, 我好喜欢月亮啊 against 月亮 and
    [ Moon ] against [moon] match; 月 against 月亮 does not. *)
Theorem check_answer_three_way :
  (forall (lower : pystr -> pystr) (user_input correct_answer : pystr),
     let u := remove_spaces (lower (strip user_input)) in
     let c := remove_spaces (lower (strip correct_answer)) in
     _check_answer lower user_input correct_answer = true
     <-> (u = c
          \/ (exists before after, u = before ++ c ++ after)
          \/ ((2 <= length u)%nat /\ exists before after, c = before ++ u ++ after)))
  /\ _check_answer ascii_lower [26376; 20142]%N [26376; 20142]%N = true
  /\ _check_answer ascii_lower
                   [25105; 22909; 21916; 27426; 26376; 20142; 21834]%N
                   [26376; 20142]%N = true
  /\ _check_answer ascii_lower [26376]%N [26376; 20142]%N = false
  /\ _check_answer ascii_lower [32; 77; 111; 111; 110; 32]%N [109; 111; 111; 110]%N
     = true.
Proof.
  split; [|by vm_compute].
  intros lower user_input correct_answer u c.
  unfold _check_answer, normalize. fold u c.
  rewrite <- !contains_spec.
  case_bool_decide as Heq; [by split; [left|]|].
  destruct (contains c u) eqn:Hcu; [by split; [right; left|]|].
  destruct (Z.leb_spec 2 (Z.of_nat (length u))) as [Hlen|Hlen]; simpl.
  - destruct (contains u c) eqn:Huc.
    + split; [|done]. intros _. right. right. split; [lia|done].
    + split; [done|]. intros [?|[?|[_ ?]]]; done.
  - split; [done|]. intros [?|[?|[? _]]]; [done..|lia].
Qed.

(** C3, as it is worded: with every inner whitespace character removed, a
    submission that holds an ideographic space (U+3000) between 月 and 亮
    would match 月亮; the matcher refuses it. *)
Lemma check_answer_keeps_inner_whitespace :
  _check_answer ascii_lower [26376; 12288; 20142]%N [26376; 20142]%N
  <> spec_check_answer ascii_lower [26376; 12288; 20142]%N [26376; 20142]%N.
Proof. vm_compute. discriminate. Qed.

(** ** Settlement: the ranking *)

Lemma insert_desc_Permutation x l : insert_desc x l ≡ₚ x :: l.
Proof.
  induction l as [|y l IH]; simpl; [done|].
  destruct (score_of y <=? score_of x); [done|].
  rewrite IH. apply Permutation_swap.
Qed.

Lemma sorted_scores_Permutation l : sorted_scores_of l ≡ₚ l.
Proof.
  induction l as [|x l IH]; simpl; [done|].
  by rewrite insert_desc_Permutation, IH.
Qed.

Lemma insert_desc_sorted x l :
  StronglySorted ranks_before l -> StronglySorted ranks_before (insert_desc x l).
Proof.
  induction 1 as [|y l Hl IH Hy]; simpl.
  - repeat constructor.
  - destruct (Z.leb_spec (score_of y) (score_of x)) as [Hle|Hgt].
    + constructor; [by constructor|].
      constructor; [done|].
      eapply Forall_impl; [exact Hy|]. unfold ranks_before. intros z Hz. simpl in *. lia.
    + constructor; [done|].
      rewrite insert_desc_Permutation. constructor; [|done].
      unfold ranks_before. simpl in *. lia.
Qed.

Lemma sorted_scores_sorted l : StronglySorted ranks_before (sorted_scores_of l).
Proof.
  induction l as [|x l IH]; simpl; [constructor|]. by apply insert_desc_sorted.
Qed.

(** Stability: the entries of one score keep the order of the dictionary. *)
Lemma insert_desc_stable v x l :
  List.filter (fun y => score_of y =? v) (insert_desc x l)
  = List.filter (fun y => score_of y =? v) (x :: l).
Proof.
  induction l as [|y l IH]; [done|].
  cbn [insert_desc].
  destruct (Z.leb_spec (score_of y) (score_of x)) as [Hle|Hgt]; [done|].
  cbn [List.filter] in *. rewrite IH.
  destruct (Z.eqb_spec (score_of x) v), (Z.eqb_spec (score_of y) v); try done; lia.
Qed.

Lemma sorted_scores_stable v l :
  List.filter (fun y => score_of y =? v) (sorted_scores_of l)
  = List.filter (fun y => score_of y =? v) l.
Proof.
  induction l as [|x l IH]; [done|].
  cbn [sorted_scores_of foldr]. rewrite insert_desc_stable.
  cbn [List.filter]. fold (sorted_scores_of l). by rewrite IH.
Qed.

(** The last entry of the ranking holds the minimum score. *)
Lemma last_is_minimum l z :
  StronglySorted ranks_before l -> last l = Some z ->
  forall x, x ∈ l -> score_of z <= score_of x.
Proof.
  induction 1 as [|y l Hl IH Hy]; [done|].
  intros Hlast x Hx.
  destruct l as [|y' l'].
  - simpl in Hlast. injection Hlast as <-. apply list_elem_of_singleton in Hx as ->. lia.
  - change (last (y :: y' :: l')) with (last (y' :: l')) in Hlast.
    apply elem_of_cons in Hx as [->|Hx]; [|by apply IH].
    rewrite Forall_forall in Hy. apply (Hy z).
    by apply last_Some_elem_of.
Qed.

(** The head of the ranking is the first holder of the maximum score. *)
Lemma head_is_first_maximum l w rest :
  sorted_scores_of l = w :: rest ->
  exists before after,
    l = before ++ w :: after
    /\ (forall x, x ∈ before -> score_of x < score_of w)
    /\ (forall x, x ∈ after -> score_of x <= score_of w).
Proof.
  revert w rest; induction l as [|x l IH]; intros w rest; [done|].
  cbn [sorted_scores_of foldr]. fold (sorted_scores_of l).
  destruct (sorted_scores_of l) as [|y l'] eqn:Hs.
  - assert (l = []) as ->.
    { symmetry. apply Permutation_nil_l. rewrite <- Hs. apply sorted_scores_Permutation. }
    simpl. intros [= <- <-]. exists [], []. split; [done|]. split; intros ? H; by apply elem_of_nil in H.
  - destruct (IH y l' eq_refl) as (before & after & -> & Hb & Ha).
    cbn [insert_desc].
    destruct (Z.leb_spec (score_of y) (score_of x)) as [Hle|Hgt].
    + intros [= <- <-]. exists [], (before ++ y :: after). split; [done|].
      split; [intros ? H; by apply elem_of_nil in H|].
      intros z Hz. apply elem_of_app in Hz as [Hz|Hz].
      * specialize (Hb z Hz). lia.
      * apply elem_of_cons in Hz as [->|Hz]; [done|]. specialize (Ha z Hz). lia.
    + intros [= <- _]. exists (x :: before), after. split; [done|].
      split; [|done].
      intros z Hz. apply elem_of_cons in Hz as [->|Hz]; [lia|]. by apply Hb.
Qed.

(** ** Settlement: the ledger *)

Lemma dict_get_elem_of (l : list (pystr * Participant)) k v :
  NoDup (Dict.keys l) -> Dict.get k l = Some v <-> (k, v) ∈ l.
Proof.
  induction l as [|[k' v'] l IH]; simpl; intros Hnd.
  - split; [done | intros H; by apply elem_of_nil in H].
  - apply NoDup_cons in Hnd as [Hk Hnd]. rewrite elem_of_cons.
    destruct (decide (k = k')) as [->|Hne].
    + split.
      * intros [= ->]. by left.
      * intros [[= ->]|Hin]; [done|]. exfalso. apply Hk.
        apply list_elem_of_fmap. by exists (k', v).
    + rewrite IH by done. split; [by right|].
      intros [[= -> ->]|?]; done.
Qed.

Lemma dict_get_Permutation (l l' : list (pystr * Participant)) k :
  NoDup (Dict.keys l) -> l ≡ₚ l' -> Dict.get k l = Dict.get k l'.
Proof.
  intros Hnd Hp.
  assert (NoDup (Dict.keys l')) as Hnd'.
  { unfold Dict.keys in *. by rewrite <- Hp. }
  apply option_eq. intros v.
  rewrite !dict_get_elem_of by done. by rewrite Hp.
Qed.

Lemma dict_get_None (l : list (pystr * Participant)) k :
  Dict.get k l = None <-> k ∉ Dict.keys l.
Proof.
  induction l as [|[k' v'] l IH]; simpl.
  - split; [intros _ H; by apply elem_of_nil in H | done].
  - rewrite not_elem_of_cons. destruct (decide (k = k')) as [->|Hne]; simpl.
    + split; [done | intros [? _]; done].
    + rewrite IH. split; [by intros ? | by intros [_ ?]].
Qed.

Lemma _add_score_load g uid nick pts st uid' :
  _load_stats g (_add_score g uid nick pts st) !! uid'
  = if decide (uid' = uid)
    then Some (mkEntry nick (from_option score 0 (_load_stats g st !! uid) + pts)
                       (from_option wins 0 (_load_stats g st !! uid) + 1))
    else _load_stats g st !! uid'.
Proof.
  unfold _add_score, _save_stats, _load_stats at 1. simpl.
  rewrite lookup_insert_eq. simpl.
  destruct (decide (uid' = uid)) as [->|Hne].
  - rewrite lookup_alter_eq.
    destruct (_load_stats g st !! uid) as [e|] eqn:He; simpl.
    + by rewrite He.
    + by rewrite lookup_insert_eq.
  - rewrite lookup_alter_ne by done.
    destruct (_load_stats g st !! uid); [done|]. by rewrite lookup_insert_ne.
Qed.

Lemma _add_score_other_group g g' uid nick pts st :
  g' ≠ g -> stats_files (_add_score g uid nick pts st) !! g' = stats_files st !! g'.
Proof. intros Hne. unfold _add_score, _save_stats. simpl. by rewrite lookup_insert_ne. Qed.

Lemma save_scores_cons g k p l st :
  save_scores g ((k, p) :: l) st
  = save_scores g l (if 0 <? p_score p
                     then _add_score g k (p_name p) (p_score p) st else st).
Proof. reflexivity. Qed.

Lemma save_scores_load g l st uid :
  NoDup (Dict.keys l) ->
  _load_stats g (save_scores g l st) !! uid
  = match Dict.get uid l with
    | Some p => if 0 <? p_score p
                then Some (merged (_load_stats g st !! uid) p)
                else _load_stats g st !! uid
    | None => _load_stats g st !! uid
    end.
Proof.
  revert st; induction l as [|[k p] l IH]; intros st Hnd; [done|].
  simpl in Hnd. apply NoDup_cons in Hnd as [Hk Hnd].
  rewrite save_scores_cons, IH by done. cbn [Dict.get].
  destruct (decide (uid = k)) as [->|Hne].
  - apply dict_get_None in Hk. rewrite Hk.
    destruct (0 <? p_score p); [|done].
    rewrite _add_score_load. by rewrite decide_True.
  - destruct (0 <? p_score p).
    + rewrite _add_score_load, decide_False by done. done.
    + done.
Qed.

Lemma save_scores_other_group g g' l st :
  g' ≠ g -> stats_files (save_scores g l st) !! g' = stats_files st !! g'.
Proof.
  intros Hne. revert st; induction l as [|[k p] l IH]; intros st; [done|].
  rewrite save_scores_cons, IH.
  destruct (0 <? p_score p); [|done]. by apply _add_score_other_group.
Qed.

(** Without a scorer the loop writes nothing. *)
Lemma save_scores_no_scorer g l st :
  Forall (fun x => score_of x <= 0) l -> save_scores g l st = st.
Proof.
  induction 1 as [|[k p] l Hx Hl IH]; [done|].
  rewrite save_scores_cons.
  simpl in Hx. destruct (Z.ltb_spec 0 (p_score p)); [lia|]. done.
Qed.

Lemma save_scores_frame g l st :
  sessions (save_scores g l st) = sessions st
  /\ timers (save_scores g l st) = timers st
  /\ suspended (save_scores g l st) = suspended st
  /\ played_songs (save_scores g l st) = played_songs st
  /\ playlist_cache (save_scores g l st) = playlist_cache st.
Proof.
  revert st; induction l as [|[k p] l IH]; intros st; [done|].
  rewrite save_scores_cons.
  destruct (IH (if 0 <? p_score p then _add_score g k (p_name p) (p_score p) st else st))
    as (-> & -> & -> & -> & ->).
  by destruct (0 <? p_score p).
Qed.

Example demo_round1 :
  (fun s => (status s, round_num s, current_song s, hint_level s,
             round_answered s, timeout_task s, Dict.keys (participants s)))
    <$> sessions Demo.round1 !! Demo.group
  = Some (Playing, 1, Some Demo.moon, 0, false, Some 0%nat, [Demo.alice; Demo.bob])
  /\ timers Demo.round1 = [mkTimer Demo.group Sleeping].
Proof. vm_compute. done. Qed.

Lemma cancel_timeout_frame session st :
  sessions (cancel_timeout session st) = sessions st
  /\ stats_files (cancel_timeout session st) = stats_files st
  /\ suspended (cancel_timeout session st) = suspended st
  /\ played_songs (cancel_timeout session st) = played_songs st
  /\ playlist_cache (cancel_timeout session st) = playlist_cache st.
Proof. unfold cancel_timeout. by destruct (timeout_task session). Qed.

(** [_end_game] on a roster that is not empty, step by step. *)
Lemma _end_game_settles o g st session :
  sessions st !! g = Some session ->
  participants session ≠ [] ->
  let ranking := sorted_scores_of (participants session) in
  let st1 := cancel_timeout session st in
  let st2 := set_sessions (<[g := set_status Ended session]> (sessions st1)) st1 in
  let st3 := save_scores g ranking st2 in
  _end_game o g st
  = (set_sessions (delete g (sessions st3)) st3,
     [MSettlement ([LTitle; LRounds (round_num session); LBlank; LScoresHeader]
                   ++ score_lines ranking ++ challenge_lines o ranking)]).
Proof.
  intros Hs Hne. unfold _end_game. rewrite Hs. cbn [participants set_status].
  destruct (participants session) eqn:Hp; [done|]. reflexivity.
Qed.

Lemma challenge_lines_spec o (l : list (pystr * Participant)) :
  l ≠ [] ->
  exists w m,
    top_scorer w l /\ minimum_score m l
    /\ challenge_lines o (sorted_scores_of l)
       = if 2 <=? Z.of_nat (length l) then
           LBlank ::
           match List.filter (fun x => score_of x =? m) l with
           | [loser] =>
               [LWinner (p_name w.2); LPunishment (punishment o);
                LChallenge (p_name loser.2) (punishment o)]
           | losers =>
               [LWinner (p_name w.2);
                LTiedLosers (map (fun x => p_name x.2) losers);
                LPunishment (punishment o); LPickOne (p_name w.2)]
           end
         else [].
Proof.
  intros Hne.
  pose proof (sorted_scores_Permutation l) as Hperm.
  pose proof (sorted_scores_sorted l) as Hsorted.
  destruct (sorted_scores_of l) as [|w rest] eqn:Hr.
  { apply Permutation_nil_l in Hperm. by subst. }
  destruct (last (w :: rest)) as [z|] eqn:Hlast.
  2: { by apply last_None in Hlast. }
  exists w, (score_of z). split; [|split].
  - by eapply head_is_first_maximum.
  - split.
    + exists z. split; [|done]. rewrite <- Hperm. by apply last_Some_elem_of.
    + intros x Hx. apply (last_is_minimum _ _ Hsorted Hlast). by rewrite Hperm.
  - destruct w as [wid wdata], z as [zid zdata].
    assert (List.filter (fun x => score_of x =? p_score zdata) ((wid, wdata) :: rest)
            = List.filter (fun x => score_of x =? p_score zdata) l) as Hst.
    { rewrite <- Hr. apply sorted_scores_stable. }
    unfold challenge_lines. rewrite Hlast. cbv zeta.
    rewrite Hst, (Permutation_length Hperm).
    destruct (2 <=? Z.of_nat (length l)); [|done].
    cbn [snd]. destruct (List.filter _ l) as [|[??] [|??]]; done.
Qed.

(** C9. At settlement the participants are ranked by score, the larger
    first and ties in the order they joined; exactly the participants with
    a positive score are merged into the group's ledger (score added, one
    more win, name overwritten); and a challenge closes the message exactly
    when there are two participants or more: it names the only holder of the
    minimum score, or lets the top scorer pick among those who share it. *)
Theorem settlement_ranks_merges_and_challenges
  (o : Oracle) (g : pystr) (st : State) (session : GameSession) :
  sessions st !! g = Some session ->
  NoDup (Dict.keys (participants session)) ->
  let roster := participants session in
  let ranking := sorted_scores_of roster in
  let st' := (_end_game o g st).1 in
  (roster = [] -> (_end_game o g st).2 = [MEndedEmpty])
  /\ (roster ≠ [] -> exists w m,
       top_scorer w roster /\ minimum_score m roster
       /\ (_end_game o g st).2
          = [MSettlement
               ([LTitle; LRounds (round_num session); LBlank; LScoresHeader]
                ++ score_lines ranking
                ++ if 2 <=? Z.of_nat (length roster) then
                     LBlank ::
                     match List.filter (fun x => score_of x =? m) roster with
                     | [loser] =>
                         [LWinner (p_name w.2); LPunishment (punishment o);
                          LChallenge (p_name loser.2) (punishment o)]
                     | losers =>
                         [LWinner (p_name w.2);
                          LTiedLosers (map (fun x => p_name x.2) losers);
                          LPunishment (punishment o); LPickOne (p_name w.2)]
                     end
                   else [])])
  /\ (ranking ≡ₚ roster
   /\ StronglySorted ranks_before ranking
   /\ forall v, List.filter (fun x => score_of x =? v) ranking
                = List.filter (fun x => score_of x =? v) roster)
  /\ (forall uid,
        _load_stats g st' !! uid
        = match Dict.get uid roster with
          | Some p => if 0 <? p_score p
                      then Some (merged (_load_stats g st !! uid) p)
                      else _load_stats g st !! uid
          | None => _load_stats g st !! uid
          end)
  /\ (forall g', g' ≠ g -> stats_files st' !! g' = stats_files st !! g').
Proof.
  intros Hs Hnd roster ranking st'. subst roster ranking st'.
  pose proof (sorted_scores_Permutation (participants session)) as Hperm.
  assert (NoDup (Dict.keys (sorted_scores_of (participants session)))) as Hnd'.
  { unfold Dict.keys. by rewrite Hperm. }
  destruct (cancel_timeout_frame session st) as (_ & Hstats & _).
  split; [|split; [|split; [|split]]].
  - intros Hempty. unfold _end_game. rewrite Hs. cbn [participants set_status].
    by rewrite Hempty.
  - intros Hne. rewrite (_end_game_settles o g st session Hs Hne). cbn [snd].
    destruct (challenge_lines_spec o _ Hne) as (w & m & Hw & Hm & Hc).
    exists w, m. split; [done|]. split; [done|]. by rewrite Hc.
  - split; [done|]. split; [apply sorted_scores_sorted |].
    intros v. apply sorted_scores_stable.
  - intros uid.
    destruct (decide (participants session = [])) as [Hempty|Hne].
    { unfold _end_game. rewrite Hs. cbn [participants set_status]. rewrite Hempty.
      simpl. unfold _load_stats. simpl. by rewrite Hstats. }
    rewrite (_end_game_settles o g st session Hs Hne). cbn [fst].
    change (_load_stats g (set_sessions ?m ?s)) with (_load_stats g s).
    rewrite save_scores_load by done.
    rewrite (dict_get_Permutation _ _ uid Hnd' Hperm).
    replace (_load_stats g (set_sessions _ (cancel_timeout session st)))
      with (_load_stats g st); [done|].
    unfold _load_stats. simpl. by rewrite Hstats.
  - intros g' Hg'.
    destruct (decide (participants session = [])) as [Hempty|Hne].
    { unfold _end_game. rewrite Hs. cbn [participants set_status]. rewrite Hempty.
      simpl. by rewrite Hstats. }
    rewrite (_end_game_settles o g st session Hs Hne). cbn [fst].
    change (stats_files (set_sessions ?m ?s)) with (stats_files s).
    rewrite save_scores_other_group by done. simpl. by rewrite Hstats.
Qed.

(** ** Ending a session *)

(** What [_end_game] leaves alone: the other sessions, the song source, the
    sleeping handlers, and the number of tasks (it creates none). *)
Lemma _end_game_frame o g st :
  let st' := (_end_game o g st).1 in
  sessions st' = delete g (sessions st)
  /\ played_songs st' = played_songs st
  /\ playlist_cache st' = playlist_cache st
  /\ suspended st' = suspended st
  /\ timers st' = match sessions st !! g with
                  | Some session => timers (cancel_timeout session st)
                  | None => timers st
                  end.
Proof.
  unfold _end_game. destruct (sessions st !! g) as [session|] eqn:Hs; simpl.
  - destruct (cancel_timeout_frame session st) as (Hse & _ & Hsu & Hpl & Hca).
    destruct (participants session) as [|x roster]; simpl.
    + by rewrite delete_insert_eq, Hse, Hsu, Hpl, Hca.
    + set (ranking := insert_desc _ _).
      destruct (save_scores_frame g ranking
        (set_sessions (<[g:=set_status Ended session]> (sessions (cancel_timeout session st)))
                      (cancel_timeout session st))) as (-> & -> & -> & -> & ->).
      simpl. by rewrite delete_insert_eq, Hse, Hsu, Hpl, Hca.
  - split; [|done]. symmetry. by apply delete_id.
Qed.



(** ** Consistency is kept by every step *)

Lemma weakens_refl l : weakens l l.
Proof. intros tid t Ht. by exists t. Qed.

Lemma weakens_trans l1 l2 l3 : weakens l1 l2 -> weakens l2 l3 -> weakens l1 l3.
Proof.
  intros H12 H23 tid t3 Ht3.
  destruct (H23 _ _ Ht3) as (t2 & Ht2 & Hg2 & Hl2).
  destruct (H12 _ _ Ht2) as (t1 & Ht1 & Hg1 & Hl1).
  exists t1. split; [done|]. split; [congruence | tauto].
Qed.

Lemma weakens_alter (f : TimerTask -> TimerTask) tid l :
  (forall t, l !! tid = Some t -> tk_group (f t) = tk_group t /\ (live (f t) -> live t)) ->
  weakens l (alter f tid l).
Proof.
  intros Hf j t' Ht'. destruct (decide (tid = j)) as [->|Hne].
  - rewrite list_lookup_alter_eq in Ht'.
    destruct (l !! j) as [t|] eqn:Ht; [|done]. injection Ht' as <-.
    exists t. split; [done|]. by apply Hf.
  - rewrite list_lookup_alter_ne in Ht' by done. by exists t'.
Qed.

Lemma not_live_cancel_task t : ~ live (cancel_task t).
Proof. unfold cancel_task, live. destruct t as [g []]; simpl; intros [|]; done. Qed.

Lemma weakens_cancel tid st : weakens (timers st) (timers (cancel tid st)).
Proof.
  apply weakens_alter. intros t _. split.
  - unfold cancel_task. by destruct (tk_state t).
  - intros H. by apply not_live_cancel_task in H.
Qed.

Lemma weakens_cancel_timeout session st :
  weakens (timers st) (timers (cancel_timeout session st)).
Proof.
  unfold cancel_timeout. destruct (timeout_task session); [apply weakens_cancel|].
  apply weakens_refl.
Qed.

Lemma weakens_finish tid st : weakens (timers st) (timers (finish tid st)).
Proof.
  apply weakens_alter. intros t _. split; [done|]. unfold live. simpl. intros [|]; done.
Qed.

Lemma weakens_length old new :
  weakens old new -> (length new <= length old)%nat.
Proof.
  intros Hw. destruct (decide (length new <= length old)%nat) as [|Hgt]; [done|].
  destruct (lookup_lt_is_Some_2 new (length old)) as [t' Ht']; [lia|].
  destruct (Hw _ _ Ht') as (t & Ht & _).
  apply lookup_lt_Some in Ht. lia.
Qed.

Lemma consistent_frame st st' :
  consistent st -> sessions st' = sessions st ->
  weakens (timers st) (timers st') -> consistent st'.
Proof.
  intros [He Hr Hd] Hs Hw. split.
  - intros g s. rewrite Hs. apply He.
  - intros tid t' Ht' Hlive.
    destruct (Hw _ _ Ht') as (t & Ht & Hg & Hl).
    rewrite Hs, Hg. by apply Hr; [|apply Hl].
  - intros g s. rewrite Hs. apply Hd.
Qed.

(** One session is written back with the task it already held. *)
Lemma consistent_put st st' g s' :
  consistent st ->
  sessions st' = <[g := s']> (sessions st) ->
  weakens (timers st) (timers st') ->
  status s' ≠ Ended ->
  NoDup (Dict.keys (participants s')) ->
  (forall s, sessions st !! g = Some s -> timeout_task s' = timeout_task s) ->
  consistent st'.
Proof.
  intros [He Hr Hd] Hs Hw Hst Hnd Htt. split.
  - intros g0 s. rewrite Hs, lookup_insert. case_decide; [by intros [= <-]|]. apply He.
  - intros tid t' Ht' Hlive.
    destruct (Hw _ _ Ht') as (t & Ht & Hg & Hl).
    destruct (Hr _ _ Ht (Hl Hlive)) as (s & Hse & Htid).
    rewrite Hs, Hg, lookup_insert. case_decide as Heq.
    + exists s'. split; [done|]. rewrite <- Heq in Hse. by rewrite (Htt _ Hse).
    + by exists s.
  - intros g0 s. rewrite Hs, lookup_insert. case_decide; [by intros [= <-]|]. apply Hd.
Qed.

(** The task a session holds is the only one of its group that can fire. *)
Lemma cancel_timeout_kills st g s tid t' :
  consistent st -> sessions st !! g = Some s ->
  timers (cancel_timeout s st) !! tid = Some t' -> tk_group t' = g -> ~ live t'.
Proof.
  intros [_ Hr _] Hs Ht' Hg Hlive. unfold cancel_timeout in Ht'.
  assert (forall t, timers st !! tid = Some t -> tk_group t = g -> live t ->
                    timeout_task s = Some tid) as Hreg.
  { intros t Ht Hgt Hl. destruct (Hr _ _ Ht Hl) as (s2 & Hs2 & Htt).
    rewrite Hgt, Hs in Hs2. by injection Hs2 as <-. }
  destruct (timeout_task s) as [tid0|] eqn:Htt; simpl in Ht'.
  - destruct (decide (tid0 = tid)) as [->|Hne].
    + rewrite list_lookup_alter_eq in Ht'.
      destruct (timers st !! tid); [|done]. injection Ht' as <-.
      by apply not_live_cancel_task in Hlive.
    + rewrite list_lookup_alter_ne in Ht' by done.
      specialize (Hreg _ Ht' Hg Hlive). congruence.
  - by specialize (Hreg _ Ht' Hg Hlive).
Qed.

Lemma consistent_end_game o g st : consistent st -> consistent (_end_game o g st).1.
Proof.
  intros Hc. destruct (_end_game_frame o g st) as (Hse & _ & _ & _ & Hti).
  set (st' := (_end_game o g st).1) in *.
  destruct (sessions st !! g) as [session|] eqn:Hs.
  2: { apply (consistent_frame st); [done| |rewrite Hti; apply weakens_refl].
       rewrite Hse. by apply delete_id. }
  pose proof (weakens_cancel_timeout session st) as Hw. rewrite <- Hti in Hw.
  destruct Hc as [He Hr Hd]. split.
  - intros g0 s. rewrite Hse, lookup_delete. case_decide; [done|]. apply He.
  - intros tid t' Ht' Hlive.
    destruct (decide (tk_group t' = g)) as [Hg|Hg].
    + exfalso. rewrite Hti in Ht'.
      by apply (cancel_timeout_kills st g session tid t' (mkConsistent _ He Hr Hd)).
    + destruct (Hw _ _ Ht') as (t & Ht & Hgt & Hl).
      destruct (Hr _ _ Ht (Hl Hlive)) as (s & Hs2 & Htt).
      exists s. rewrite Hse, Hgt, lookup_delete_ne; [done|]. by rewrite <- Hgt.
  - intros g0 s. rewrite Hse, lookup_delete. case_decide; [done|]. apply Hd.
Qed.

Lemma _preload_playlists_same_game o st : same_game st (_preload_playlists o st).
Proof.
  unfold _preload_playlists, PLAYLISTS. simpl.
  destruct (fetch o 3778678), (fetch o 19723756); done.
Qed.

Lemma _get_random_song_same_game o g st :
  same_game st (_get_random_song o g st).2.
Proof.
  unfold _get_random_song.
  set (st1 := match all_cached st with [] => _preload_playlists o st | _ => st end).
  assert (same_game st st1) as (Hse & Hti & Hsu & Hsf).
  { subst st1. destruct (all_cached st); [apply _preload_playlists_same_game | done]. }
  unfold same_game. rewrite <- Hse, <- Hti, <- Hsu, <- Hsf. clearbody st1.
  destruct (all_cached st1) as [|x xs]; [done|].
  repeat case_match; simplify_eq; done.
Qed.

Lemma consistent_begin_round o g session n song st :
  consistent st -> sessions st !! g = Some session ->
  consistent (begin_round o g session n song st).1.
Proof.
  intros Hc Hs. unfold begin_round, create_task. simpl.
  set (s1 := set_round_answered _ _).
  assert (timeout_task s1 = timeout_task session) as Htt by done.
  assert (cancel_timeout s1 st = cancel_timeout session st) as Hcancel.
  { unfold cancel_timeout. by rewrite Htt. }
  rewrite Hcancel. clear Hcancel.
  pose proof (weakens_cancel_timeout session st) as Hw.
  pose proof (weakens_length _ _ Hw) as Hlen.
  destruct (cancel_timeout_frame session st) as (Hse & _).
  pose proof (cancel_timeout_kills st g session) as Hkill.
  set (st1 := cancel_timeout session st) in *.
  destruct Hc as [He Hr Hd]. split; simpl.
  - intros g0 s. rewrite lookup_insert. case_decide.
    + intros [= <-]. simpl. by apply (He g).
    + rewrite Hse. apply He.
  - intros tid t' Ht' Hlive.
    destruct (decide (tid < length (timers st1))%nat) as [Hlt|Hge].
    + rewrite lookup_app_l in Ht' by done.
      destruct (decide (tk_group t' = g)) as [Hg|Hg].
      * exfalso. by apply (Hkill tid t' (mkConsistent _ He Hr Hd) Hs Ht' Hg).
      * destruct (Hw _ _ Ht') as (t & Ht & Hgt & Hl).
        destruct (Hr _ _ Ht (Hl Hlive)) as (s & Hs2 & Htid).
        exists s. rewrite lookup_insert_ne by done. by rewrite Hse, Hgt.
    + rewrite lookup_app_r in Ht' by lia.
      apply list_lookup_singleton_Some in Ht' as [Hi <-]. simpl.
      rewrite lookup_insert_eq. eexists. split; [done|]. simpl. f_equal. lia.
  - intros g0 s. rewrite lookup_insert. case_decide.
    + intros [= <-]. simpl. by apply (Hd g).
    + rewrite Hse. apply Hd.
Qed.

Lemma consistent_same_game st st' : consistent st -> same_game st st' -> consistent st'.
Proof.
  intros Hc (Hse & Hti & _). apply (consistent_frame st); [done..|].
  rewrite Hti. apply weakens_refl.
Qed.

Lemma consistent_next_round cfg o g st :
  consistent st -> consistent (_next_round cfg o g st).1.
Proof.
  intros Hc. unfold _next_round.
  destruct (sessions st !! g) as [session|] eqn:Hs; [|done].
  destruct (max_rounds cfg <? round_num session + 1); [by apply consistent_end_game|].
  pose proof (_get_random_song_same_game o g st) as Hsame.
  destruct (_get_random_song o g st) as [[song|] st1]; simpl in Hsame.
  - apply consistent_begin_round; [by eapply consistent_same_game|].
    destruct Hsame as (-> & _). done.
  - pose proof (consistent_end_game o g st1 (consistent_same_game _ _ Hc Hsame)).
    by destruct (_end_game o g st1).
Qed.

(** ** Rosters *)

Lemma dict_set_fresh (d : list (pystr * Participant)) k v :
  Dict.get k d = None -> Dict.set k v d = d ++ [(k, v)].
Proof.
  induction d as [|[k' v'] d IH]; simpl; [done|].
  destruct (decide (k = k')); [done|]. intros H. by rewrite IH.
Qed.

Lemma dict_set_keys_present (d : list (pystr * Participant)) k v v0 :
  Dict.get k d = Some v0 -> Dict.keys (Dict.set k v d) = Dict.keys d.
Proof.
  induction d as [|[k' v'] d IH]; simpl; [done|].
  destruct (decide (k = k')); [done|]. intros H. simpl. f_equal. by apply IH.
Qed.

Lemma dict_set_NoDup (d : list (pystr * Participant)) k v :
  NoDup (Dict.keys d) -> NoDup (Dict.keys (Dict.set k v d)).
Proof.
  intros Hnd. destruct (Dict.get k d) as [v0|] eqn:Hg.
  - by rewrite (dict_set_keys_present _ _ _ _ Hg).
  - rewrite dict_set_fresh by done. unfold Dict.keys. rewrite map_app. simpl.
    apply NoDup_app. split; [done|]. split; [|apply NoDup_singleton].
    intros x Hx Hx'. apply list_elem_of_singleton in Hx' as ->.
    by apply dict_get_None in Hg.
Qed.

(** ** Every handler keeps the state consistent *)

Section Consistency.

Variable cfg : Config.
Variable lower : pystr -> pystr.

Lemma consistent_suspend st k : consistent st -> consistent (set_suspended k st).
Proof. intros Hc. apply (consistent_frame st); [done..|]. apply weakens_refl. Qed.

Lemma consistent_cancel_timeout session st :
  consistent st -> consistent (cancel_timeout session st).
Proof.
  intros Hc. apply (consistent_frame st); [done| |apply weakens_cancel_timeout].
  by destruct (cancel_timeout_frame session st) as (-> & _).
Qed.

Lemma consistent_cmd_create_game g u nick origin st :
  consistent st -> consistent (cmd_create_game g u nick origin st).1.
Proof.
  intros Hc. unfold cmd_create_game. case_bool_decide; [done|].
  destruct (sessions st !! g) as [session|] eqn:Hs.
  - destruct (status session) eqn:Hst; [done..|].
    by destruct (no_ended_session _ Hc _ _ Hs).
  - simpl. eapply (consistent_put st); [done|done|apply weakens_refl|done| |].
    + simpl. apply NoDup_singleton.
    + intros old Hold. congruence.
Qed.

Lemma consistent_start_game o g st :
  consistent st -> consistent (_start_game cfg o g st).1.
Proof.
  intros Hc. unfold _start_game, _get_session.
  set (upd := fun s => set_start_time (now o) (set_round_num 0 (set_status Playing s))).
  assert (forall st1, consistent st1 -> consistent (_next_round cfg o g st1).1) as Hnext
    by (intros; by apply consistent_next_round).
  destruct (sessions st !! g) as [session|] eqn:Hs; simpl.
  - specialize (Hnext (set_sessions (<[g:=upd session]> (sessions st)) st)).
    destruct (_next_round cfg o g _). apply Hnext.
    eapply (consistent_put st); [done|done|apply weakens_refl|done| |].
    + simpl. by apply (distinct_participants _ Hc g).
    + intros old Hold. rewrite Hs in Hold. by injection Hold as <-.
  - rewrite insert_insert_eq.
    specialize (Hnext (set_sessions (<[g:=upd (new_session g)]> (sessions st)) st)).
    destruct (_next_round cfg o g _). apply Hnext.
    eapply (consistent_put st); [done|done|apply weakens_refl|done| |].
    + simpl. apply NoDup_nil_2.
    + intros old Hold. congruence.
Qed.

Lemma consistent_cmd_start_game o g u nick st :
  consistent st -> consistent (cmd_start_game cfg o g u nick st).1.
Proof.
  intros Hc. unfold cmd_start_game.
  pose proof (consistent_start_game o g st Hc) as Hstart.
  repeat case_match; simplify_eq; done.
Qed.

Lemma consistent_cmd_hint g st : consistent st -> consistent (cmd_hint g st).1.
Proof.
  intros Hc. unfold cmd_hint. case_bool_decide; [done|].
  destruct (sessions st !! g) as [session|] eqn:Hs; [|done].
  case_bool_decide; [done|].
  assert (consistent (set_sessions
            (<[g:=set_hint_level (hint_level session + 1) session]> (sessions st)) st)).
  { eapply (consistent_put st); [done|done|apply weakens_refl| | |].
    - simpl. by apply (no_ended_session _ Hc g).
    - simpl. by apply (distinct_participants _ Hc g).
    - intros old Hold. rewrite Hs in Hold. by injection Hold as <-. }
  simpl. by destruct (current_song session).
Qed.

Lemma consistent_cmd_answer g u st : consistent st -> consistent (cmd_answer cfg g u st).1.
Proof.
  intros Hc. unfold cmd_answer.
  repeat case_match; simplify_eq; simpl; try done;
    try apply consistent_suspend; by apply consistent_cancel_timeout.
Qed.

Lemma consistent_cmd_end_game g st : consistent st -> consistent (cmd_end_game g st).1.
Proof.
  intros Hc. unfold cmd_end_game.
  repeat case_match; simplify_eq; simpl; try done; by apply consistent_suspend.
Qed.

Lemma consistent_cmd_admin_end_game g u nick st :
  consistent st -> consistent (cmd_admin_end_game cfg g u nick st).1.
Proof.
  intros Hc. unfold cmd_admin_end_game.
  repeat case_match; simplify_eq; simpl; try done; by apply consistent_suspend.
Qed.

Lemma consistent_on_message g u nick text st :
  consistent st -> consistent (on_message cfg lower g u nick text st).1.
Proof.
  intros Hc. unfold on_message. case_bool_decide; [done|]. case_bool_decide; [done|].
  destruct (sessions st !! g) as [session|] eqn:Hs; [|done].
  pose proof (no_ended_session _ Hc _ _ Hs) as Hne.
  pose proof (distinct_participants _ Hc _ _ Hs) as Hnd.
  destruct (contains join_signal (strip text) && _).
  - destruct (Dict.get u (participants session)); [done|].
    destruct (max_players cfg <=? _); [done|]. simpl.
    eapply (consistent_put st); [done|done|apply weakens_refl|done| |].
    + simpl. by apply dict_set_NoDup.
    + intros old Hold. rewrite Hs in Hold. by injection Hold as <-.
  - case_bool_decide; [|done].
    destruct (current_song session) as [song|]; [|done].
    case_bool_decide; [done|].
    destruct (startswith _ _ || startswith _ _); [done|].
    destruct (_check_answer _ _ _); [|done].
    destruct (round_answered session); [done|].
    destruct (Dict.get u (participants session)) as [player|] eqn:Hp; [|done].
    simpl. apply consistent_suspend.
    eapply (consistent_put (cancel_timeout (set_round_answered true session) st));
      [by apply consistent_cancel_timeout|done|apply weakens_refl|done| |].
    + simpl. by apply dict_set_NoDup.
    + intros old Hold.
      destruct (cancel_timeout_frame (set_round_answered true session) st) as (Hse & _).
      rewrite Hse, Hs in Hold. by injection Hold as <-.
Qed.

Lemma consistent_finish tid st : consistent st -> consistent (finish tid st).
Proof. intros Hc. apply (consistent_frame st); [done..|]. apply weakens_finish. Qed.

Lemma consistent_round_timeout o tid st :
  consistent st -> consistent (_round_timeout cfg o tid st).1.
Proof.
  intros Hc. unfold _round_timeout.
  destruct (timers st !! tid) as [t|] eqn:Ht; [|done].
  destruct (tk_state t) eqn:Hstate.
  - repeat case_match; simplify_eq; simpl; try by apply consistent_finish.
    apply (consistent_frame st); [done..|]. simpl.
    apply weakens_alter. intros t0 Ht0. split; [done|].
    intros _. left. congruence.
  - pose proof (consistent_next_round cfg o (tk_group t) st Hc) as Hn.
    destruct (_next_round cfg o (tk_group t) st). simpl. by apply consistent_finish.
  - by apply consistent_finish.
  - done.
Qed.

Lemma consistent_resume o i st : consistent st -> consistent (resume cfg o i st).1.
Proof.
  intros Hc. unfold resume. destruct (suspended st !! i) as [[g|g]|]; [| |done].
  - apply consistent_next_round. by apply consistent_suspend.
  - apply consistent_end_game. by apply consistent_suspend.
Qed.

Lemma terminate_weakens st :
  sessions (terminate st) = sessions st
  /\ weakens (timers st) (timers (terminate st))
  /\ suspended (terminate st) = suspended st
  /\ stats_files (terminate st) = stats_files st.
Proof.
  unfold terminate.
  apply (map_fold_weak_ind
           (fun r (_ : gmap pystr GameSession) =>
              sessions r = sessions st /\ weakens (timers st) (timers r)
              /\ suspended r = suspended st /\ stats_files r = stats_files st)).
  - split; [done|]. split; [apply weakens_refl | done].
  - intros g session m r _ (Hse & Hw & Hsu & Hsf).
    destruct (cancel_timeout_frame session r) as (-> & -> & -> & _).
    split; [done|]. split; [|done].
    eapply weakens_trans; [exact Hw|]. apply weakens_cancel_timeout.
Qed.

Lemma consistent_step o e st : consistent st -> consistent (step cfg lower o e st).1.
Proof.
  intros Hc. destruct e; simpl.
  - by apply consistent_cmd_create_game.
  - by apply consistent_cmd_start_game.
  - by apply consistent_cmd_hint.
  - by apply consistent_cmd_answer.
  - by apply consistent_cmd_end_game.
  - by apply consistent_cmd_admin_end_game.
  - by apply consistent_on_message.
  - by apply consistent_round_timeout.
  - by apply consistent_resume.
  - destruct (terminate_weakens st) as (Hse & Hw & _).
    by apply (consistent_frame st).
Qed.

Lemma reachable_consistent st : reachable cfg lower st -> consistent st.
Proof.
  induction 1 as [st (Hse & Hti & _)|o e st _ IH].
  - split.
    + intros g s. by rewrite Hse, lookup_empty.
    + intros tid t. by rewrite Hti.
    + intros g s. by rewrite Hse, lookup_empty.
  - by apply consistent_step.
Qed.

End Consistency.

(** ** The round limit *)

Section RoundLimit.

Variable cfg : Config.
Variable lower : pystr -> pystr.
Hypothesis limit_nonneg : 0 <= max_rounds cfg.









End RoundLimit.

Lemma reachable_run cfg lower es st :
  reachable cfg lower st -> reachable cfg lower (run cfg lower es st).1.
Proof.
  revert st; induction es as [|[o e] es IH]; intros st Hr; [done|].
  simpl. pose proof (IH _ (reachable_step cfg lower o e st Hr)) as H.
  destruct (step cfg lower o e st) as [st1 out1]. simpl in H.
  by destruct (run cfg lower es st1).
Qed.

Lemma demo_st0_reachable cfg lower : reachable cfg lower Demo.st0.
Proof. by apply reachable_initial. Qed.

Lemma demo_lobby_reachable : reachable Demo.cfg ascii_lower Demo.lobby.
Proof. apply reachable_run, demo_st0_reachable. Qed.

Lemma demo_round1_reachable : reachable Demo.cfg ascii_lower Demo.round1.
Proof.
  exact (reachable_step Demo.cfg ascii_lower Demo.oracle
           (StartGame Demo.group Demo.alice [65%N]) Demo.lobby demo_lobby_reachable).
Qed.




(** ** How a step changes the sessions *)

Lemma grows_refl s : grows s s.
Proof. intros u p Hp. exists p. split; [done|]. split; [done|lia]. Qed.

Lemma grows_trans s1 s2 s3 : grows s1 s2 -> grows s2 s3 -> grows s1 s3.
Proof.
  intros H12 H23 u p Hp.
  destruct (H12 _ _ Hp) as (p2 & Hp2 & Hn2 & Hs2).
  destruct (H23 _ _ Hp2) as (p3 & Hp3 & Hn3 & Hs3).
  exists p3. split; [done|]. split; [congruence|lia].
Qed.

Lemma grows_same_participants s s' : participants s' = participants s -> grows s s'.
Proof. intros Hp u p. rewrite Hp. intros H. exists p. split; [done|]. split; [done|lia]. Qed.

Lemma dict_get_set (d : list (pystr * Participant)) k k' v :
  Dict.get k' (Dict.set k v d) = if decide (k' = k) then Some v else Dict.get k' d.
Proof.
  induction d as [|[k0 v0] d IH]; simpl.
  - by destruct (decide (k' = k)).
  - destruct (decide (k = k0)) as [->|Hne]; simpl.
    + by destruct (decide (k' = k0)).
    + rewrite IH. destruct (decide (k' = k0)) as [->|]; [|done].
      by rewrite decide_False by done.
Qed.

Lemma grows_join s u nick :
  Dict.get u (participants s) = None ->
  grows s (set_participants (Dict.set u (mkParticipant nick 0) (participants s)) s).
Proof.
  intros Hnone u' p Hp. simpl. rewrite dict_get_set.
  destruct (decide (u' = u)) as [->|]; [congruence|].
  exists p. split; [done|]. split; [done|lia].
Qed.

Lemma grows_credit s s0 u player :
  participants s0 = participants s ->
  Dict.get u (participants s) = Some player ->
  grows s (set_participants
             (Dict.set u (mkParticipant (p_name player) (p_score player + 1))
                       (participants s0)) s0).
Proof.
  intros Hs0 Hplayer u' p Hp. simpl. rewrite dict_get_set, Hs0.
  destruct (decide (u' = u)) as [->|].
  - rewrite Hplayer in Hp. injection Hp as <-.
    eexists. split; [done|]. simpl. split; [done|lia].
  - exists p. split; [done|]. split; [done|lia].
Qed.

(** [_next_round] either removes the session of the group (or finds none),
    or begins the next round with a new song and a new timer. *)
Lemma _next_round_sessions cfg o g st :
  let st' := (_next_round cfg o g st).1 in
  sessions st' = delete g (sessions st)
  \/ exists s song,
       sessions st !! g = Some s
       /\ round_num s + 1 <= max_rounds cfg
       /\ sessions st' = <[g := round_begun song (length (timers st)) s]> (sessions st).
Proof.
  unfold _next_round.
  destruct (sessions st !! g) as [session|] eqn:Hs.
  2: { left. symmetry. by apply delete_id. }
  destruct (Z.ltb_spec (max_rounds cfg) (round_num session + 1)) as [Hlt|Hle].
  { left. by destruct (_end_game_frame o g st) as (-> & _). }
  pose proof (_get_random_song_same_game o g st) as (Hse & Hti & _).
  destruct (_get_random_song o g st) as [[song|] st1]; simpl in Hse, Hti.
  - right. exists session, song. split; [done|]. split; [done|].
    unfold begin_round, create_task, round_begun. simpl.
    set (s1 := set_round_answered _ _).
    destruct (cancel_timeout_frame s1 st1) as (-> & _). rewrite Hse. f_equal.
    assert (length (timers (cancel_timeout s1 st1)) = length (timers st)) as ->; [|done].
    rewrite <- Hti. unfold cancel_timeout, cancel.
    destruct (timeout_task s1); [|done]. simpl. apply length_alter.
  - left. destruct (_end_game_frame o g st1) as (Hd & _).
    destruct (_end_game o g st1). simpl in *. by rewrite Hd, Hse.
Qed.

Lemma _start_game_sessions cfg o g st :
  let st' := (_start_game cfg o g st).1 in
  let started s := set_start_time (now o) (set_round_num 0 (set_status Playing s)) in
  let s0 := default (new_session g) (sessions st !! g) in
  sessions st' = delete g (sessions st)
  \/ exists song tid,
       1 <= max_rounds cfg
       /\ sessions st' = <[g := round_begun song tid (started s0)]> (sessions st).
Proof.
  intros st' started s0. subst st'.
  assert (exists st1, sessions st1 = <[g := started s0]> (sessions st)
                      /\ (_start_game cfg o g st).1 = (_next_round cfg o g st1).1)
    as (st1 & Hst1 & Heq).
  { unfold _start_game, _get_session, s0.
    destruct (sessions st !! g) as [session|] eqn:Hs; simpl.
    - exists (set_sessions (<[g := started session]> (sessions st)) st).
      split; [done|]. by destruct (_next_round cfg o g _).
    - exists (set_sessions
                (<[g := started (new_session g)]> (<[g := new_session g]> (sessions st)))
                (set_sessions (<[g := new_session g]> (sessions st)) st)).
      split; [simpl; by rewrite insert_insert_eq|].
      by destruct (_next_round cfg o g _). }
  rewrite Heq.
  destruct (_next_round_sessions cfg o g st1) as [Hd|(s & song & Hs & Hle & Hi)].
  - left. by rewrite Hd, Hst1, delete_insert_eq.
  - right. rewrite Hst1, lookup_insert_eq in Hs. injection Hs as <-.
    exists song, (length (timers st1)). split; [simpl in Hle; lia|].
    by rewrite Hi, Hst1, insert_insert_eq.
Qed.

Lemma rosters_same st st' : sessions st' = sessions st -> rosters_grow st st'.
Proof. intros Hs g s s'. rewrite Hs. intros H1 H2. simplify_eq. apply grows_refl. Qed.

Lemma rosters_delete st st' g0 :
  sessions st' = delete g0 (sessions st) -> rosters_grow st st'.
Proof.
  intros Hs g s s'. rewrite Hs, lookup_delete. case_decide; [done|].
  intros H1 H2. simplify_eq. apply grows_refl.
Qed.

Lemma rosters_put st st' g0 s0 :
  sessions st' = <[g0 := s0]> (sessions st) ->
  (forall s, sessions st !! g0 = Some s -> grows s s0) ->
  rosters_grow st st'.
Proof.
  intros Hs Hg g s s'. rewrite Hs, lookup_insert. case_decide as Heq.
  - subst g0. intros H1 [= <-]. by apply Hg.
  - intros H1 H2. simplify_eq. apply grows_refl.
Qed.

Lemma rosters_next_round cfg o g st : rosters_grow st (_next_round cfg o g st).1.
Proof.
  destruct (_next_round_sessions cfg o g st) as [Hd|(s & song & Hs & _ & Hi)].
  - by eapply rosters_delete.
  - eapply rosters_put; [done|]. intros s0 Hs0. simplify_eq.
    by apply grows_same_participants.
Qed.

Lemma rosters_end_game o g st : rosters_grow st (_end_game o g st).1.
Proof. destruct (_end_game_frame o g st) as (Hd & _). by eapply rosters_delete. Qed.

Lemma rosters_start_game cfg o g st : rosters_grow st (_start_game cfg o g st).1.
Proof.
  destruct (_start_game_sessions cfg o g st) as [Hd|(song & tid & _ & Hi)].
  - by eapply rosters_delete.
  - eapply rosters_put; [done|]. intros s0 Hs0. rewrite Hs0. simpl.
    by apply grows_same_participants.
Qed.

Lemma rosters_on_message cfg lower g u nick text st :
  rosters_grow st (on_message cfg lower g u nick text st).1.
Proof.
  unfold on_message.
  repeat case_match; simplify_eq; simpl; try (by apply rosters_same).
  - eapply rosters_put; [done|]. intros s0 Hs0. simplify_eq. by apply grows_join.
  - eapply rosters_put; [done|]. intros s0 Hs0. simplify_eq. by apply grows_join.
  - eapply rosters_put.
    + simpl. f_equal.
      match goal with
      | |- context [cancel_timeout ?x st] =>
          by destruct (cancel_timeout_frame x st) as (-> & _)
      end.
    + intros s0 Hs0. simplify_eq.
      match goal with
      | Hsession : sessions st !! g = Some ?x |- _ =>
          by apply (grows_credit x (set_round_answered true x))
      end.
Qed.

(** A step never drops a participant, renames one or lowers a score, as long
    as the session is kept. *)
Lemma step_rosters_grow cfg lower o e st :
  consistent st -> rosters_grow st (step cfg lower o e st).1.
Proof.
  intros Hc. destruct e as [g u nick origin|g u nick|g|g u|g|g u nick|g u nick text|tid|i|];
    simpl.
  - unfold cmd_create_game. repeat case_match; simplify_eq; simpl;
      try (by apply rosters_same).
    + by destruct (no_ended_session _ Hc g g0).
    + eapply rosters_put; [done|]. intros s0 Hs0. congruence.
  - unfold cmd_start_game.
    pose proof (rosters_start_game cfg o g st) as Hstart.
    repeat case_match; simplify_eq; simpl; try (by apply rosters_same); done.
  - unfold cmd_hint. repeat case_match; simplify_eq; simpl; try (by apply rosters_same);
      (eapply rosters_put; [done|]; intros s0 Hs0; simplify_eq;
       by apply grows_same_participants).
  - unfold cmd_answer. repeat case_match; simplify_eq; simpl; try (by apply rosters_same);
      apply rosters_same; simpl;
      by destruct (cancel_timeout_frame g0 st) as (-> & _).
  - unfold cmd_end_game. repeat case_match; simplify_eq; by apply rosters_same.
  - unfold cmd_admin_end_game. repeat case_match; simplify_eq; by apply rosters_same.
  - apply rosters_on_message.
  - unfold _round_timeout.
    destruct (timers st !! tid) as [t|]; [|by apply rosters_same].
    pose proof (rosters_next_round cfg o (tk_group t) st) as Hn.
    destruct (_next_round cfg o (tk_group t) st).
    repeat case_match; simplify_eq; simpl; try (by apply rosters_same); done.
  - unfold resume. destruct (suspended st !! i) as [[g|g]|]; [| |by apply rosters_same].
    + intros g0 s s' Hs. by apply (rosters_next_round cfg o g (set_suspended _ st)).
    + intros g0 s s' Hs. by apply (rosters_end_game o g (set_suspended _ st)).
  - apply rosters_same. by destruct (terminate_weakens st) as (-> & _).
Qed.

(** ** Joining *)

Lemma dict_get_Some_elem_of (d : list (pystr * Participant)) k v :
  Dict.get k d = Some v -> (k, v) ∈ d.
Proof.
  induction d as [|[k' v'] d IH]; simpl; [done|].
  destruct (decide (k = k')) as [->|].
  - intros [= ->]. by left.
  - intros H. right. by apply IH.
Qed.

(** Whoever is on the roster gets a line of the ranking at settlement. *)
Lemma settlement_lists_participant o g st s u p :
  sessions st !! g = Some s -> Dict.get u (participants s) = Some p ->
  exists rank,
    LScore rank (p_name p) (p_score p) ∈ settlement_lines (_end_game o g st).2.
Proof.
  intros Hs Hp. apply dict_get_Some_elem_of in Hp.
  assert (participants s ≠ []) as Hne by (intros Heq; rewrite Heq in Hp; by apply elem_of_nil in Hp).
  rewrite (_end_game_settles o g st s Hs Hne). cbn [snd settlement_lines].
  rewrite <- (sorted_scores_Permutation (participants s)) in Hp.
  apply list_elem_of_lookup in Hp as [i Hi].
  exists (Z.of_nat i + 1).
  apply elem_of_app. right. apply elem_of_app. left.
  apply list_elem_of_lookup. exists i.
  unfold score_lines. rewrite list_lookup_imap, Hi. done.
Qed.

Lemma run_keeps_enrolled cfg lower g u es : forall st s p,
  consistent st ->
  sessions st !! g = Some s -> Dict.get u (participants s) = Some p ->
  stays_open cfg lower g es st ->
  exists s' p',
    sessions (run cfg lower es st).1 !! g = Some s'
    /\ Dict.get u (participants s') = Some p' /\ p_name p' = p_name p.
Proof.
  induction es as [|[o e] es IH]; intros st s p Hc Hs Hp Hopen.
  - exists s, p. done.
  - simpl in Hopen. destruct Hopen as [[s1 Hs1] Hopen].
    pose proof (step_rosters_grow cfg lower o e st Hc g s s1 Hs Hs1) as Hg.
    destruct (Hg u p Hp) as (p1 & Hp1 & Hn1 & _).
    pose proof (consistent_step cfg lower o e st Hc) as Hc1.
    destruct (IH _ s1 p1 Hc1 Hs1 Hp1 Hopen) as (s' & p' & Hs' & Hp' & Hn').
    simpl. destruct (step cfg lower o e st) as [st1 out1]. simpl in *.
    destruct (run cfg lower es st1) as [st2 out2]. simpl in *.
    exists s', p'. split; [done|]. split; [done|congruence].
Qed.

(** C7. A message with the join emoji is handled the same in a waiting and
    in a playing session: a user already on the roster is told so and a full
    roster refuses the newcomer, both without any change of state; otherwise
    the user is appended to the roster with score 0 and nothing else changes.
    From then on, as long as the session lasts, the settlement has a ranking
    line with the name the user joined under. *)
Theorem join_waiting_or_playing
  (cfg : Config) (lower : pystr -> pystr)
  (g user_id nick message_str : pystr) (st : State) (session : GameSession) :
  reachable cfg lower st ->
  g ≠ [] ->
  sessions st !! g = Some session ->
  status session = Waiting \/ status session = Playing ->
  contains join_signal (strip message_str) = true ->
  let roster := participants session in
  let count := Z.of_nat (length roster) in
  let joined :=
    set_sessions
      (<[g := set_participants (roster ++ [(user_id, mkParticipant nick 0)]) session]>
         (sessions st)) st in
  on_message cfg lower g user_id nick message_str st
  = match Dict.get user_id roster with
    | Some _ => (st, [MAlreadyJoined])
    | None =>
        if max_players cfg <=? count then (st, [MRosterFull (max_players cfg)])
        else (joined,
              [if bool_decide (status session = Waiting)
               then MJoined nick (count + 1)
               else MJoinedMidGame nick (count + 1)])
    end
  /\ (Dict.get user_id roster = None -> count < max_players cfg ->
      forall es o,
        stays_open cfg lower g es joined ->
        exists rank points,
          LScore rank nick points
          ∈ settlement_lines (_end_game o g (run cfg lower es joined).1).2).
Proof.
  intros Hr Hg Hs Hst Hjoin roster count joined.
  assert (on_message cfg lower g user_id nick message_str st
          = match Dict.get user_id roster with
            | Some _ => (st, [MAlreadyJoined])
            | None =>
                if max_players cfg <=? count then (st, [MRosterFull (max_players cfg)])
                else (joined,
                      [if bool_decide (status session = Waiting)
                       then MJoined nick (count + 1)
                       else MJoinedMidGame nick (count + 1)])
            end) as Heq.
  { unfold on_message. rewrite Hs, Hjoin.
    rewrite bool_decide_eq_false_2.
    2: { intros Htext. rewrite Htext in Hjoin. discriminate. }
    rewrite (bool_decide_eq_false_2 (g = [])) by done.
    rewrite (bool_decide_eq_true_2 (_ \/ _)) by done. cbn [andb].
    fold roster. destruct (Dict.get user_id roster) eqn:Hget; [done|].
    fold count. destruct (max_players cfg <=? count); [done|].
    subst joined. rewrite dict_set_fresh by done. cbn [participants set_participants].
    rewrite length_app. cbn [length].
    replace (Z.of_nat (length roster + 1)) with (count + 1)
      by (unfold count; lia).
    done. }
  split; [exact Heq|].
  intros Hnone Hroom es o Hopen.
  pose proof (reachable_consistent cfg lower st Hr) as Hc.
  assert (consistent joined) as Hcj.
  { replace joined with (on_message cfg lower g user_id nick message_str st).1.
    - by apply consistent_on_message.
    - rewrite Heq, Hnone. destruct (Z.leb_spec (max_players cfg) count); [lia|done]. }
  destruct (run_keeps_enrolled cfg lower g user_id es joined
              (set_participants (roster ++ [(user_id, mkParticipant nick 0)]) session)
              (mkParticipant nick 0) Hcj) as (s' & p' & Hs' & Hp' & Hn'); [| |done|].
  - subst joined. simpl. apply lookup_insert_eq.
  - simpl. rewrite <- (dict_set_fresh roster user_id) by done.
    rewrite dict_get_set. by rewrite decide_True.
  - destruct (settlement_lists_participant o g _ s' user_id p' Hs' Hp') as [rank Hrank].
    exists rank, (p_score p'). simpl in Hn'. by rewrite <- Hn'.
Qed.

Lemma carol_joins_mid_game :
  Demo.group ≠ []
  /\ sessions Demo.round1 !! Demo.group = Some DemoSessions.round1_session
  /\ (status DemoSessions.round1_session = Waiting
      \/ status DemoSessions.round1_session = Playing)
  /\ contains join_signal (strip join_signal) = true
  /\ Dict.get Demo.carol (participants DemoSessions.round1_session) = None
  /\ Z.of_nat (length (participants DemoSessions.round1_session)) < max_players Demo.cfg
  /\ stays_open Demo.cfg ascii_lower Demo.group [] DemoJoin.carol_joined
  /\ on_message Demo.cfg ascii_lower Demo.group Demo.carol [67%N] join_signal Demo.round1
     = (DemoJoin.carol_joined, [MJoinedMidGame [67%N] 3])
  /\ exists rank points,
       LScore rank [67%N] points
       ∈ settlement_lines (_end_game Demo.oracle Demo.group DemoJoin.carol_joined).2.
Proof.
  assert (Demo.group ≠ []) as H1 by discriminate.
  assert (sessions Demo.round1 !! Demo.group = Some DemoSessions.round1_session) as H2
    by (vm_compute; reflexivity).
  assert (status DemoSessions.round1_session = Waiting
          \/ status DemoSessions.round1_session = Playing) as H3
    by (right; vm_compute; reflexivity).
  assert (contains join_signal (strip join_signal) = true) as H4
    by (vm_compute; reflexivity).
  assert (Dict.get Demo.carol (participants DemoSessions.round1_session) = None) as H5
    by (vm_compute; reflexivity).
  assert (Z.of_nat (length (participants DemoSessions.round1_session))
          < max_players Demo.cfg) as H6 by (vm_compute; reflexivity).
  assert (stays_open Demo.cfg ascii_lower Demo.group [] DemoJoin.carol_joined) as H7
    by exact I.
  destruct (join_waiting_or_playing Demo.cfg ascii_lower Demo.group Demo.carol [67%N]
              join_signal Demo.round1 DemoSessions.round1_session
              demo_round1_reachable H1 H2 H3 H4) as [Heq Hsettle].
  do 7 (split; [assumption|]). split.
  - rewrite Heq, H5.
    destruct (Z.leb_spec (max_players Demo.cfg)
                (Z.of_nat (length (participants DemoSessions.round1_session))));
      [lia|].
    vm_compute. reflexivity.
  - exact (Hsettle H5 H6 [] Demo.oracle H7).
Defined.

(** ** Starting a game *)

(** C8, as the code has it. A start request changes the state only in a
    waiting session. There the head count is checked first: below the
    minimum the request fails with TooFewPlayers; with enough players it
    fails with Unauthorized when the requester is neither the creator nor an
    administrator; otherwise the session is set to Playing with round number
    0 and the first advance follows, so that a round that begins has number
    1. Every failure leaves the state as it was. *)
Theorem start_game_checks
  (cfg : Config) (o : Oracle) (g user_id nick : pystr) (st : State) :
  g ≠ [] ->
  (sessions st !! g = None ->
   cmd_start_game cfg o g user_id nick st = (st, [MCreateFirst]))
  /\ forall session,
       sessions st !! g = Some session ->
       let count := Z.of_nat (length (participants session)) in
       let authorized := creator_id session = user_id \/ user_id ∈ admin_ids cfg in
       let started :=
         set_start_time (now o) (set_round_num 0 (set_status Playing session)) in
       let playing := set_sessions (<[g := started]> (sessions st)) st in
       (status session = Ended ->
        cmd_start_game cfg o g user_id nick st = (st, [MBadState]))
       /\ (status session = Playing ->
           (cmd_start_game cfg o g user_id nick st).1 = st)
       /\ (status session = Waiting -> count < min_players cfg ->
           cmd_start_game cfg o g user_id nick st
           = (st, [MTooFewPlayers (min_players cfg)]))
       /\ (status session = Waiting -> min_players cfg <= count -> ~ authorized ->
           cmd_start_game cfg o g user_id nick st = (st, [MUnauthorized]))
       /\ (status session = Waiting -> min_players cfg <= count -> authorized ->
           cmd_start_game cfg o g user_id nick st
           = ((_next_round cfg o g playing).1,
              MStarting nick
              :: MGameStarted count (map (fun x => p_name x.2) (participants session))
              :: (_next_round cfg o g playing).2)
           /\ status started = Playing /\ round_num started = 0
           /\ forall s',
                sessions (cmd_start_game cfg o g user_id nick st).1 !! g = Some s' ->
                status s' = Playing /\ round_num s' = 1).
Proof.
  intros Hg. split.
  { intros Hnone. unfold cmd_start_game.
    by rewrite bool_decide_eq_false_2, Hnone by done. }
  intros session Hs count authorized started playing.
  unfold cmd_start_game. rewrite bool_decide_eq_false_2 by done. rewrite Hs.
  split; [by intros ->|]. split; [intros ->; by destruct (current_song session)|].
  split.
  { intros -> Hlt. fold count.
    destruct (Z.ltb_spec count (min_players cfg)); [done|lia]. }
  assert (bool_decide (creator_id session ≠ user_id) && bool_decide (user_id ∉ admin_ids cfg)
          = true <-> ~ authorized) as Hauth.
  { rewrite andb_true_iff, !bool_decide_eq_true. unfold authorized.
    destruct (decide (creator_id session = user_id)); tauto. }
  split.
  - intros -> Hle Hno. fold count.
    destruct (Z.ltb_spec count (min_players cfg)); [lia|].
    apply Hauth in Hno. by rewrite Hno.
  - intros -> Hle Hyes. fold count.
    destruct (Z.ltb_spec count (min_players cfg)); [lia|].
    assert (bool_decide (creator_id session ≠ user_id)
            && bool_decide (user_id ∉ admin_ids cfg) = false) as ->.
    { apply not_true_is_false. intros Hb. apply Hauth in Hb. tauto. }
    assert (_start_game cfg o g st
            = ((_next_round cfg o g playing).1,
               MGameStarted count (map (fun x => p_name x.2) (participants session))
               :: (_next_round cfg o g playing).2)) as Hstart.
    { unfold _start_game, _get_session. rewrite Hs. fold started. cbn zeta.
      fold playing. by destruct (_next_round cfg o g playing). }
    rewrite Hstart. split; [done|]. split; [done|]. split; [done|].
    intros s'. cbn [fst].
    destruct (_next_round_sessions cfg o g playing) as [Hd|(s & song & Hs1 & _ & Hi)].
    + rewrite Hd, lookup_delete_eq. done.
    + rewrite Hi, lookup_insert_eq. intros [= <-].
      subst playing. simpl in Hs1. rewrite lookup_insert_eq in Hs1.
      injection Hs1 as <-. done.
Qed.

(** C8, as it is worded, fails where both checks fail: Dave, who neither
    created the game nor administers the plugin, asks to start a waiting game
    of two when three players are required; he is told that players are
    missing, not that he may not start. *)
Lemma stranger_is_told_too_few_players :
  ~ start_refuses_strangers Demo.cfg3 Demo.oracle Demo.group Demo.dave [68%N] Demo.lobby.
Proof.
  intros Hclaim.
  specialize (Hclaim Demo.lobby_session).
  assert ((cmd_start_game Demo.cfg3 Demo.oracle Demo.group Demo.dave [68%N] Demo.lobby).2
          = [MTooFewPlayers 3]) as Hreply by (vm_compute; reflexivity).
  rewrite Hreply in Hclaim.
  assert ([MTooFewPlayers 3] = [MUnauthorized]) as Habs; [|discriminate].
  apply Hclaim.
  - vm_compute. reflexivity.
  - vm_compute. reflexivity.
  - vm_compute. discriminate.
  - intros Hin. change (Demo.dave ∈ ({[Demo.admin]} : gset pystr)) in Hin.
    apply elem_of_singleton in Hin. discriminate.
Qed.

Lemma alice_starts_round_one :
  Demo.group ≠ []
  /\ sessions Demo.lobby !! Demo.group = Some Demo.lobby_session
  /\ status Demo.lobby_session = Waiting
  /\ min_players Demo.cfg <= Z.of_nat (length (participants Demo.lobby_session))
  /\ (creator_id Demo.lobby_session = Demo.alice \/ Demo.alice ∈ admin_ids Demo.cfg)
  /\ sessions Demo.round1 !! Demo.group = Some DemoSessions.round1_session
  /\ status DemoSessions.round1_session = Playing
  /\ round_num DemoSessions.round1_session = 1.
Proof.
  assert (Demo.group ≠ []) as H1 by discriminate.
  assert (sessions Demo.lobby !! Demo.group = Some Demo.lobby_session) as H2
    by (vm_compute; reflexivity).
  assert (status Demo.lobby_session = Waiting) as H3 by (vm_compute; reflexivity).
  assert (min_players Demo.cfg <= Z.of_nat (length (participants Demo.lobby_session)))
    as H4 by (vm_compute; discriminate).
  assert (creator_id Demo.lobby_session = Demo.alice \/ Demo.alice ∈ admin_ids Demo.cfg)
    as H5 by (left; vm_compute; reflexivity).
  assert (sessions Demo.round1 !! Demo.group = Some DemoSessions.round1_session) as H6
    by (vm_compute; reflexivity).
  do 6 (split; [assumption|]).
  destruct (start_game_checks Demo.cfg Demo.oracle Demo.group Demo.alice [65%N]
              Demo.lobby H1) as [_ Hsession].
  destruct (Hsession Demo.lobby_session H2) as (_ & _ & _ & _ & Hok).
  destruct (Hok H3 H4 H5) as (_ & _ & _ & Hfirst).
  exact (Hfirst DemoSessions.round1_session H6).
Defined.

(** ** Hints *)

(** C4, as the code has it. A round that begins has hint level 0. A hint
    request in a playing session adds exactly one to the stored level, which
    is not capped, and changes nothing else; the cap is in the rendering: the
    hint shows the first [min(level, len(title))] characters. For a title of
    three characters, five requests store the levels 1, 2, 3, 4, 5 and show
    1, 2, 3, 3, 3 characters. *)
Theorem hint_level_counts_requests (cfg : Config) :
  (forall o g st s',
     sessions (_next_round cfg o g st).1 !! g = Some s' -> hint_level s' = 0)
  /\ (forall g st session song,
        g ≠ [] -> sessions st !! g = Some session ->
        status session = Playing -> current_song session = Some song ->
        let level := hint_level session + 1 in
        let title := song_name song in
        let revealed := Z.to_nat (Z.min level (Z.of_nat (length title))) in
        cmd_hint g st
        = (set_sessions (<[g := set_hint_level level session]> (sessions st)) st,
           [MHint level
                  (take revealed title ++ replicate (length title - revealed) star)
                  (song_artist song)]))
  /\ hint_requests 5 Demo.group Demo.three_char_round
     = [ (1, [MHint 1 [28909; star; star]%N [66%N]]);
         (2, [MHint 2 [28909; 38376; star]%N [66%N]]);
         (3, [MHint 3 [28909; 38376; 20142]%N [66%N]]);
         (4, [MHint 4 [28909; 38376; 20142]%N [66%N]]);
         (5, [MHint 5 [28909; 38376; 20142]%N [66%N]]) ].
Proof.
  split; [|split].
  - intros o g st s'.
    destruct (_next_round_sessions cfg o g st) as [Hd|(s & song & _ & _ & Hi)].
    + by rewrite Hd, lookup_delete_eq.
    + rewrite Hi, lookup_insert_eq. by intros [= <-].
  - intros g st session song Hg Hs Hst Hsong level title revealed.
    unfold cmd_hint. rewrite bool_decide_eq_false_2 by done. rewrite Hs.
    rewrite bool_decide_eq_false_2 by (intros Hne; by apply Hne).
    cbn [current_song set_hint_level hint_level]. rewrite Hsong.
    fold level. by rewrite _get_hint_closed.
  - vm_compute. reflexivity.
Qed.

(** C4, as it is worded, fails on the stored level: after four requests on
    a title of three characters the session holds level 4, and five requests
    store 1, 2, 3, 4, 5 rather than 1, 2, 3, 3, 3. *)
Lemma fourth_hint_stores_level_four :
  ~ hint_level_capped
      (cmd_hint Demo.group
         (cmd_hint Demo.group
            (cmd_hint Demo.group
               (cmd_hint Demo.group Demo.three_char_round).1).1).1).1
  /\ map fst (hint_requests 5 Demo.group Demo.three_char_round) <> [1; 2; 3; 3; 3].
Proof.
  split; [|vm_compute; discriminate].
  intros Hcap.
  set (st4 := (cmd_hint Demo.group _).1) in Hcap.
  specialize (Hcap Demo.group
                   (set_hint_level 4 Demo.three_char_session) Demo.song2).
  assert (4 <= Z.of_nat (length (song_name Demo.song2))) as Habs; [|vm_compute in Habs; done].
  apply Hcap; vm_compute; reflexivity.
Qed.

Lemma first_hint_in_demo :
  Demo.group ≠ []
  /\ sessions Demo.three_char_round !! Demo.group = Some Demo.three_char_session
  /\ status Demo.three_char_session = Playing
  /\ current_song Demo.three_char_session = Some Demo.song2
  /\ hint_level Demo.three_char_session = 0
  /\ (cmd_hint Demo.group Demo.three_char_round).2
     = [MHint 1 [28909; star; star]%N [66%N]].
Proof.
  assert (Demo.group ≠ []) as H1 by discriminate.
  assert (sessions Demo.three_char_round !! Demo.group = Some Demo.three_char_session)
    as H2 by (vm_compute; reflexivity).
  assert (status Demo.three_char_session = Playing) as H3 by (vm_compute; reflexivity).
  assert (current_song Demo.three_char_session = Some Demo.song2) as H4
    by (vm_compute; reflexivity).
  assert (hint_level Demo.three_char_session = 0) as H5.
  { apply (proj1 (hint_level_counts_requests Demo.cfg) Demo.oracle2 Demo.group
                 (set_sessions
                    (<[Demo.group :=
                         set_start_time (now Demo.oracle2)
                           (set_round_num 0 (set_status Playing Demo.lobby_session))]>
                       (sessions Demo.lobby)) Demo.lobby)).
    vm_compute. reflexivity. }
  do 5 (split; [assumption|]).
  rewrite (proj1 (proj2 (hint_level_counts_requests Demo.cfg)) Demo.group
                 Demo.three_char_round Demo.three_char_session Demo.song2 H1 H2 H3 H4).
  vm_compute. reflexivity.
Defined.

(** ** One credit per round *)

Lemma total_score_set_fresh (d : list (pystr * Participant)) u name s :
  Dict.get u d = None ->
  total_score (set_participants (Dict.set u (mkParticipant name 0) d) s)
  = foldr (fun x acc => p_score x.2 + acc) 0 d.
Proof.
  intros Hnone. unfold total_score. simpl. rewrite dict_set_fresh by done.
  rewrite foldr_app. simpl. induction d as [|x d IH]; simpl; [done|].
  simpl in Hnone. destruct x as [k v]. destruct (decide (u = k)); [done|].
  by rewrite IH.
Qed.

Lemma total_score_set_credit (d : list (pystr * Participant)) u player s :
  Dict.get u d = Some player ->
  total_score
    (set_participants
       (Dict.set u (mkParticipant (p_name player) (p_score player + 1)) d) s)
  = foldr (fun x acc => p_score x.2 + acc) 0 d + 1.
Proof.
  intros Hsome. unfold total_score. simpl.
  induction d as [|[k v] d IH]; simpl in *; [done|].
  destruct (decide (u = k)) as [->|Hne]; simpl.
  - injection Hsome as ->. lia.
  - rewrite IH by done. lia.
Qed.

Lemma same_round_refl s : same_round s s.
Proof. repeat split; try done. - apply grows_refl. - by left. Qed.

Lemma same_round_trans s1 s2 s3 : same_round s1 s2 -> same_round s2 s3 -> same_round s1 s3.
Proof.
  intros (Ha & Hb & Hc & Hd & He) (Ha' & Hb' & Hc' & Hd' & He').
  split; [congruence|]. split; [congruence|]. split; [congruence|].
  split; [by eapply grows_trans|].
  destruct He as [[He1 He2]|(He1 & He2 & He3)], He' as [[Hf1 Hf2]|(Hf1 & Hf2 & Hf3)].
  - left. split; congruence.
  - right. split; [congruence|]. split; [done|lia].
  - right. split; [done|]. split; [congruence|lia].
  - congruence.
Qed.

(** What [on_message] does to the session of its group while it plays. *)
Lemma on_message_same_round cfg lower g u nick text st s :
  sessions st !! g = Some s -> status s = Playing ->
  exists s', sessions (on_message cfg lower g u nick text st).1 !! g = Some s'
             /\ same_round s s'.
Proof.
  intros Hs Hst. unfold on_message.
  assert (exists s', sessions st !! g = Some s' /\ same_round s s') as Hsame
    by (exists s; split; [done|apply same_round_refl]).
  case_bool_decide; [done|]. case_bool_decide; [done|]. rewrite Hs.
  destruct (contains join_signal (strip text) && _).
  - destruct (Dict.get u (participants s)) eqn:Hget; [done|].
    destruct (max_players cfg <=? _); [done|]. simpl.
    rewrite lookup_insert_eq. eexists. split; [done|].
    repeat split; try done; [by apply grows_join|].
    left. split; [done|]. by apply total_score_set_fresh.
  - case_bool_decide; [|done].
    destruct (current_song s) as [song|]; [|done].
    case_bool_decide; [done|].
    destruct (startswith _ _ || startswith _ _); [done|].
    destruct (_check_answer _ _ _); [|done].
    destruct (round_answered s) eqn:Hra; [done|].
    destruct (Dict.get u (participants s)) as [player|] eqn:Hp; [|done].
    simpl. rewrite lookup_insert_eq. eexists. split; [done|].
    repeat split; try done.
    + by apply (grows_credit s (set_round_answered true s)).
    + right. split; [done|]. split; [done|]. by apply total_score_set_credit.
Qed.

Lemma session_kept_elsewhere st st' g g0 s :
  g0 ≠ g -> sessions st !! g = Some s ->
  (sessions st' = delete g0 (sessions st)
   \/ exists s0, sessions st' = <[g0 := s0]> (sessions st)) ->
  exists s', sessions st' !! g = Some s' /\ same_round s s'.
Proof.
  intros Hne Hs [->|[s0 ->]]; exists s.
  - rewrite lookup_delete_ne by done. split; [done|apply same_round_refl].
  - rewrite lookup_insert_ne by done. split; [done|apply same_round_refl].
Qed.

(** No command or message begins or ends a round of a playing session. *)
Lemma inbound_same_round cfg lower o e st g s :
  inbound e -> sessions st !! g = Some s -> status s = Playing ->
  exists s', sessions (step cfg lower o e st).1 !! g = Some s' /\ same_round s s'.
Proof.
  intros Hin Hs Hst.
  assert (exists s', sessions st !! g = Some s' /\ same_round s s') as Hsame
    by (exists s; split; [done|apply same_round_refl]).
  destruct e as [g0 u nick origin|g0 u nick|g0|g0 u|g0|g0 u nick|g0 u nick text|tid|i|];
    simpl; try done.
  - unfold cmd_create_game. case_bool_decide; [done|].
    destruct (decide (g0 = g)) as [->|Hne].
    + by rewrite Hs, Hst.
    + destruct (sessions st !! g0) as [s0|]; [destruct (status s0); try done|];
        simpl; rewrite lookup_insert_ne by done; done.
  - unfold cmd_start_game. case_bool_decide; [done|].
    destruct (decide (g0 = g)) as [->|Hne].
    + rewrite Hs, Hst. by destruct (current_song s).
    + destruct (sessions st !! g0) as [s0|]; [|done].
      destruct (status s0); [|by destruct (current_song s0)|done].
      destruct (_ <? _); [done|]. destruct (_ && _); [done|].
      pose proof (_start_game_sessions cfg o g0 st) as Hshape.
      destruct (_start_game cfg o g0 st) as [st1 out1]. simpl in *.
      apply (session_kept_elsewhere st st1 g g0 s Hne Hs).
      destruct Hshape as [Hd|(song & tid & _ & Hi)]; [by left|right; eauto].
  - unfold cmd_hint. case_bool_decide; [done|].
    destruct (decide (g0 = g)) as [->|Hne].
    + rewrite Hs. rewrite bool_decide_eq_false_2 by (intros Hn; by apply Hn).
      exists (set_hint_level (hint_level s + 1) s). split.
      * destruct (current_song _); simpl; by rewrite lookup_insert_eq.
      * repeat split; try done. -- by apply grows_same_participants. -- by left.
    + destruct (sessions st !! g0) as [s0|]; [|done].
      case_bool_decide; [done|].
      destruct (current_song _); simpl; rewrite lookup_insert_ne by done; done.
  - unfold cmd_answer. repeat case_match; simplify_eq; simpl; try done;
      match goal with
      | |- context [cancel_timeout ?x st] =>
          by destruct (cancel_timeout_frame x st) as (-> & _)
      end.
  - unfold cmd_end_game. repeat case_match; simplify_eq; simpl; done.
  - unfold cmd_admin_end_game. repeat case_match; simplify_eq; simpl; done.
  - destruct (decide (g0 = g)) as [->|Hne]; [by apply on_message_same_round|].
    pose proof (rosters_on_message cfg lower g0 u nick text st) as _.
    unfold on_message.
    repeat case_match; simplify_eq; simpl; try done;
      rewrite lookup_insert_ne by done;
      try match goal with
          | |- context [cancel_timeout ?x st] =>
              destruct (cancel_timeout_frame x st) as (-> & _)
          end; done.
Qed.

Lemma run_same_round cfg lower g es : forall st s,
  Forall (fun oe : Oracle * Event => inbound oe.2) es ->
  sessions st !! g = Some s -> status s = Playing ->
  exists s', sessions (run cfg lower es st).1 !! g = Some s' /\ same_round s s'.
Proof.
  induction es as [|[o e] es IH]; intros st s Hin Hs Hst.
  - exists s. split; [done|apply same_round_refl].
  - apply Forall_cons in Hin as [He Hes]. simpl in He.
    destruct (inbound_same_round cfg lower o e st g s He Hs Hst) as (s1 & Hs1 & Hr1).
    assert (status s1 = Playing) as Hst1 by (destruct Hr1 as (-> & _); done).
    simpl. destruct (step cfg lower o e st) as [st1 out1]. simpl in Hs1.
    destruct (IH st1 s1 Hes Hs1 Hst1) as (s2 & Hs2 & Hr2).
    destruct (run cfg lower es st1) as [st2 out2]. simpl in *.
    exists s2. split; [done|]. by eapply same_round_trans.
Qed.

(** The accepted answer: what [on_message] returns for a correct answer of a
    participant while the round is unanswered. *)
Lemma on_message_accepts cfg lower g user_id nick message_str st session song player :
  g ≠ [] ->
  sessions st !! g = Some session ->
  status session = Playing ->
  current_song session = Some song ->
  song_name song ≠ [] ->
  correct_submission lower message_str (song_name song) ->
  round_answered session = false ->
  Dict.get user_id (participants session) = Some player ->
  on_message cfg lower g user_id nick message_str st
  = (set_suspended
       (suspended st ++ [ThenNextRound g])
       (set_sessions
          (<[g := set_participants
                    (Dict.set user_id
                              (mkParticipant (p_name player) (p_score player + 1))
                              (participants session))
                    (set_round_answered true session)]> (sessions st))
          (cancel_timeout session st)),
     [MCorrect nick (song_name song) (song_artist song) (p_score player + 1)]).
Proof.
  intros Hg Hs Hst Hsong Hname (Htext & Hnote & Hhash & Hslash & Hok) Hra Hplayer.
  unfold on_message.
  rewrite bool_decide_eq_false_2 by done. rewrite bool_decide_eq_false_2 by done.
  rewrite Hs, Hnote. cbn [andb].
  rewrite bool_decide_eq_true_2 by done. rewrite Hsong.
  rewrite bool_decide_eq_false_2 by done. rewrite Hhash, Hslash. cbn [orb].
  rewrite Hok, Hra, Hplayer. cbn zeta.
  assert (cancel_timeout (set_round_answered true session) st
          = cancel_timeout session st) as -> by done.
  destruct (cancel_timeout_frame session st) as (Hse & _ & Hsu & _).
  cbn [suspended set_sessions]. by rewrite Hse, Hsu.
Qed.

(** C2. In a playing round, a correct answer from a participant while the
    round is unanswered raises the flag, adds exactly one point to that
    participant and to nobody else, cancels the timer and schedules the
    advance; a correct answer once the flag is up changes nothing and sends
    nothing; a correct answer from a user who has not joined changes no
    state either (the user is asked to join). Over any sequence of commands
    and messages within the round, no score goes down and the points given
    out grow by one at most, and not at all if the round was answered. *)
Theorem first_correct_answer_is_credited
  (cfg : Config) (lower : pystr -> pystr)
  (g user_id nick message_str : pystr) (st : State)
  (session : GameSession) (song : Song) :
  g ≠ [] ->
  sessions st !! g = Some session ->
  status session = Playing ->
  current_song session = Some song ->
  song_name song ≠ [] ->
  correct_submission lower message_str (song_name song) ->
  (round_answered session = true ->
   on_message cfg lower g user_id nick message_str st = (st, []))
  /\ (round_answered session = false ->
      Dict.get user_id (participants session) = None ->
      on_message cfg lower g user_id nick message_str st = (st, [MJoinFirst]))
  /\ (round_answered session = false ->
      forall player,
        Dict.get user_id (participants session) = Some player ->
        let credited :=
          set_participants
            (Dict.set user_id (mkParticipant (p_name player) (p_score player + 1))
                      (participants session))
            (set_round_answered true session) in
        on_message cfg lower g user_id nick message_str st
        = (set_suspended
             (suspended st ++ [ThenNextRound g])
             (set_sessions (<[g := credited]> (sessions st))
                           (cancel_timeout session st)),
           [MCorrect nick (song_name song) (song_artist song) (p_score player + 1)])
        /\ round_answered credited = true
        /\ Dict.get user_id (participants credited)
           = Some (mkParticipant (p_name player) (p_score player + 1))
        /\ (forall u, u ≠ user_id ->
              Dict.get u (participants credited) = Dict.get u (participants session))
        /\ total_score credited = total_score session + 1)
  /\ (forall es,
        Forall (fun oe : Oracle * Event => inbound oe.2) es ->
        exists s',
          sessions (run cfg lower es st).1 !! g = Some s'
          /\ round_num s' = round_num session
          /\ grows session s'
          /\ total_score s' <= total_score session + 1
          /\ (round_answered session = true ->
              round_answered s' = true /\ total_score s' = total_score session)).
Proof.
  intros Hg Hs Hst Hsong Hname (Htext & Hnote & Hhash & Hslash & Hok).
  split; [|split; [|split]].
  - intros Hra. unfold on_message.
    rewrite bool_decide_eq_false_2 by done. rewrite bool_decide_eq_false_2 by done.
    rewrite Hs, Hnote. cbn [andb].
    rewrite bool_decide_eq_true_2 by done. rewrite Hsong.
    rewrite bool_decide_eq_false_2 by done. rewrite Hhash, Hslash. cbn [orb].
    by rewrite Hok, Hra.
  - intros Hra Hnone. unfold on_message.
    rewrite bool_decide_eq_false_2 by done. rewrite bool_decide_eq_false_2 by done.
    rewrite Hs, Hnote. cbn [andb].
    rewrite bool_decide_eq_true_2 by done. rewrite Hsong.
    rewrite bool_decide_eq_false_2 by done. rewrite Hhash, Hslash. cbn [orb].
    by rewrite Hok, Hra, Hnone.
  - intros Hra player Hplayer credited. split; [|split; [|split; [|split]]].
    + by apply on_message_accepts.
    + done.
    + subst credited. simpl. rewrite dict_get_set. by rewrite decide_True.
    + intros u Hu. subst credited. simpl. rewrite dict_get_set.
      by rewrite decide_False.
    + subst credited.
      rewrite (total_score_set_credit (participants session) user_id player) by done.
      done.
  - intros es Hes.
    destruct (run_same_round cfg lower g es st session Hes Hs Hst)
      as (s' & Hs' & _ & Hround & _ & Hgrows & Hcredit).
    exists s'. split; [done|]. split; [done|]. split; [done|].
    destruct Hcredit as [[Hf Ht]|(Hf & Hf' & Ht)].
    + split; [lia|]. intros Hra. split; congruence.
    + split; [lia|]. intros Hra. congruence.
Qed.

Lemma alice_is_credited_and_bob_is_late :
  Demo.group ≠ []
  /\ sessions Demo.round1 !! Demo.group = Some DemoSessions.round1_session
  /\ status DemoSessions.round1_session = Playing
  /\ current_song DemoSessions.round1_session = Some Demo.moon
  /\ song_name Demo.moon ≠ []
  /\ correct_submission ascii_lower [26376; 20142]%N (song_name Demo.moon)
  /\ round_answered DemoSessions.round1_session = false
  /\ Dict.get Demo.alice (participants DemoSessions.round1_session)
     = Some (mkParticipant [65%N] 0)
  /\ (on_message Demo.cfg ascii_lower Demo.group Demo.alice [65%N] [26376; 20142]%N
                 Demo.round1).2
     = [MCorrect [65%N] [26376; 20142]%N [65%N] 1]
  /\ sessions DemoAnswers.alice_answered !! Demo.group
     = Some DemoAnswers.alice_answered_session
  /\ status DemoAnswers.alice_answered_session = Playing
  /\ current_song DemoAnswers.alice_answered_session = Some Demo.moon
  /\ round_answered DemoAnswers.alice_answered_session = true
  /\ on_message Demo.cfg ascii_lower Demo.group Demo.bob [66%N] [26376; 20142]%N
                DemoAnswers.alice_answered
     = (DemoAnswers.alice_answered, []).
Proof.
  assert (Demo.group ≠ []) as H1 by discriminate.
  assert (sessions Demo.round1 !! Demo.group = Some DemoSessions.round1_session) as H2
    by (vm_compute; reflexivity).
  assert (status DemoSessions.round1_session = Playing) as H3 by (vm_compute; reflexivity).
  assert (current_song DemoSessions.round1_session = Some Demo.moon) as H4
    by (vm_compute; reflexivity).
  assert (song_name Demo.moon ≠ []) as H5 by discriminate.
  assert (correct_submission ascii_lower [26376; 20142]%N (song_name Demo.moon)) as H6.
  { unfold correct_submission. vm_compute. repeat split; discriminate. }
  assert (round_answered DemoSessions.round1_session = false) as H7
    by (vm_compute; reflexivity).
  assert (Dict.get Demo.alice (participants DemoSessions.round1_session)
          = Some (mkParticipant [65%N] 0)) as H8 by (vm_compute; reflexivity).
  assert (sessions DemoAnswers.alice_answered !! Demo.group
          = Some DemoAnswers.alice_answered_session) as H9 by (vm_compute; reflexivity).
  assert (status DemoAnswers.alice_answered_session = Playing) as H10
    by (vm_compute; reflexivity).
  assert (current_song DemoAnswers.alice_answered_session = Some Demo.moon) as H11
    by (vm_compute; reflexivity).
  assert (round_answered DemoAnswers.alice_answered_session = true) as H12
    by (vm_compute; reflexivity).
  do 8 (split; [assumption|]).
  split; [|do 4 (split; [assumption|])].
  - destruct (first_correct_answer_is_credited Demo.cfg ascii_lower Demo.group Demo.alice
                [65%N] [26376; 20142]%N Demo.round1 DemoSessions.round1_session Demo.moon
                H1 H2 H3 H4 H5 H6) as (_ & _ & Hcredit & _).
    destruct (Hcredit H7 _ H8) as (Heq & _). by rewrite Heq.
  - exact (proj1 (first_correct_answer_is_credited Demo.cfg ascii_lower Demo.group
                    Demo.bob [66%N] [26376; 20142]%N DemoAnswers.alice_answered
                    DemoAnswers.alice_answered_session Demo.moon
                    H1 H9 H10 H11 H5 H6) H12).
Defined.

Lemma settlement_after_alice_scored :
  sessions DemoAnswers.alice_answered !! Demo.group
  = Some DemoAnswers.alice_answered_session
  /\ NoDup (Dict.keys (participants DemoAnswers.alice_answered_session))
  /\ participants DemoAnswers.alice_answered_session ≠ []
  /\ settlement_lines
       (_end_game Demo.oracle Demo.group DemoAnswers.alice_answered).2
     = [LTitle; LRounds 1; LBlank; LScoresHeader;
        LScore 1 [65%N] 1; LScore 2 [66%N] 0;
        LBlank; LWinner [65%N]; LPunishment Truth; LChallenge [66%N] Truth]
  /\ _load_stats Demo.group
       (_end_game Demo.oracle Demo.group DemoAnswers.alice_answered).1 !! Demo.alice
     = Some (mkEntry [65%N] 1 1)
  /\ _load_stats Demo.group
       (_end_game Demo.oracle Demo.group DemoAnswers.alice_answered).1 !! Demo.bob
     = None.
Proof.
  assert (sessions DemoAnswers.alice_answered !! Demo.group
          = Some DemoAnswers.alice_answered_session) as H1 by (vm_compute; reflexivity).
  assert (participants DemoAnswers.alice_answered_session ≠ []) as H2
    by (vm_compute; discriminate).
  assert (NoDup (Dict.keys (participants DemoAnswers.alice_answered_session))) as H3.
  { apply (bool_decide_unpack _). vm_compute. exact I. }
  split; [assumption|]. split; [assumption|]. split; [assumption|].
  destruct (settlement_ranks_merges_and_challenges Demo.oracle Demo.group
              DemoAnswers.alice_answered DemoAnswers.alice_answered_session H1 H3)
    as (_ & Hmsg & _ & Hledger & _).
  split; [|split; rewrite Hledger; vm_compute; reflexivity].
  destruct (Hmsg H2) as (w & m & _ & _ & Hout). vm_compute. reflexivity.
Defined.

(** ** Timers that were cancelled stay silent *)














(** ** Timer against answer *)




(** * More of the plugin *)

(** ** The catalogue filter *)

Lemma scan_tracks_spec tracks : forall songs,
  (length songs < 100)%nat ->
  scan_tracks tracks songs
  = take 100 (songs ++ omap song_of_track tracks).
Proof.
  induction tracks as [|track rest IH]; intros songs Hlen.
  - cbn [scan_tracks omap list_omap]. rewrite app_nil_r. by rewrite take_ge by lia.
  - cbn [scan_tracks omap list_omap].
    destruct (song_of_track track) as [song|]; [|by apply IH].
    cbv zeta.
    destruct (Nat.leb_spec 100 (length (songs ++ [song]))) as [Hfull|Hroom].
    + rewrite (cons_middle song songs (omap song_of_track rest)), app_assoc.
      rewrite take_app_le by done.
      rewrite take_ge; [done|]. rewrite length_app in *. simpl in *. lia.
    + rewrite IH by done.
      by rewrite (cons_middle song songs (omap song_of_track rest)), app_assoc.
Qed.

(** X1. [_fetch_playlist] keeps, in the order of the catalogue, the first
    hundred acceptable tracks among the first two hundred; a failed request
    or a code other than 200 gives no song. *)
Theorem fetch_playlist_first_hundred (result : option (Z * list Track)) :
  _fetch_playlist result
  = match result with
    | None => []
    | Some (code, tracks) =>
        if bool_decide (code = 200)
        then take 100 (omap song_of_track (take 200 tracks))
        else []
    end
  /\ (length (_fetch_playlist result) <= 100)%nat.
Proof.
  assert (_fetch_playlist result
          = match result with
            | None => []
            | Some (code, tracks) =>
                if bool_decide (code = 200)
                then take 100 (omap song_of_track (take 200 tracks))
                else []
            end) as Heq.
  { unfold _fetch_playlist. destruct result as [[code tracks]|]; [|done].
    destruct (decide (code = 200)) as [->|Hne].
    - rewrite bool_decide_eq_false_2 by (intros Hn; by apply Hn).
      rewrite bool_decide_eq_true_2 by done.
      by rewrite scan_tracks_spec by (simpl; lia).
    - rewrite bool_decide_eq_true_2 by done.
      by rewrite (bool_decide_eq_false_2 (code = 200)). }
  split; [exact Heq|]. rewrite Heq.
  destruct result as [[code tracks]|]; simpl; [|lia].
  case_bool_decide; simpl; [|lia]. rewrite length_take. lia.
Qed.

Lemma is_cjk_plain c :
  is_cjk c = true ->
  isspace c = false /\ (c =? 32)%N = false
  /\ ((65 <=? c) && (c <=? 90))%N = false.
Proof.
  unfold is_cjk, isspace. rewrite andb_true_iff, !N.leb_le. intros [Hlo Hhi].
  rewrite !orb_false_iff, !andb_false_iff, !N.leb_gt, !N.eqb_neq. lia.
Qed.

Lemma valid_song_name_spec name :
  _is_valid_song_name name = true
  <-> Forall (fun c => is_cjk c = true) (strip name)
      /\ (2 <= length (strip name) <= 7)%nat.
Proof.
  unfold _is_valid_song_name. cbv zeta.
  rewrite !andb_true_iff, forallb_forall, Forall_forall, !Nat.leb_le.
  setoid_rewrite <- list_elem_of_In. tauto.
Qed.

(** X2. Every song [_fetch_playlist] returns comes from one of the first two
    hundred tracks of an answer with code 200, is free (fee 0 or 8, and a
    track without the key counts as paid), has a title that is, once
    stripped, two to seven Chinese characters, and has an artist that is not
    empty. *)
Theorem fetched_song_is_free_and_chinese
  (result : option (Z * list Track)) (song : Song) :
  song ∈ _fetch_playlist result ->
  exists tracks track,
    result = Some (200, tracks)
    /\ track ∈ take 200 tracks
    /\ song_of_track track = Some song
    /\ song_id song = track_id track
    /\ (track_fee track = Some 0 \/ track_fee track = Some 8)
    /\ Forall (fun c => is_cjk c = true) (strip (song_name song))
    /\ (2 <= length (strip (song_name song)) <= 7)%nat
    /\ song_artist song ≠ [].
Proof.
  unfold _fetch_playlist. destruct result as [[code tracks]|].
  2: { intros H. by apply elem_of_nil in H. }
  case_bool_decide as Hcode; [intros H; by apply elem_of_nil in H|].
  assert (code = 200) as -> by (destruct (decide (code = 200)); [done|by destruct Hcode]).
  rewrite scan_tracks_spec by (simpl; lia). simpl.
  intros Hin. apply elem_of_take in Hin as (i & Hi & _).
  apply list_elem_of_lookup_2, list_elem_of_omap in Hi as (track & Htrack & Hsong).
  exists tracks, track. split; [done|]. split; [done|]. split; [done|].
  unfold song_of_track in Hsong. cbv zeta in Hsong.
  destruct (negb _) eqn:Hfee in Hsong; [done|].
  destruct (negb (_is_valid_song_name _)) eqn:Hname in Hsong; [done|].
  destruct (_ || _) in Hsong; [done|]. injection Hsong as <-. simpl.
  apply negb_false_iff in Hname. apply valid_song_name_spec in Hname as [Hcjk Hlen].
  apply negb_false_iff, orb_true_iff in Hfee.
  split; [done|]. split.
  - destruct (track_fee track) as [fee|]; simpl in Hfee.
    + destruct Hfee as [H0|H8]; [left|right]; f_equal; lia.
    + destruct Hfee; discriminate.
  - split; [done|]. split; [done|]. by case_bool_decide.
Qed.

Lemma moon_is_fetched :
  DemoCatalogue.moon ∈ _fetch_playlist (Some (200, DemoCatalogue.tracks))
  /\ _fetch_playlist (Some (200, DemoCatalogue.tracks))
     = [DemoCatalogue.moon; mkSong 4 unknown_song DemoCatalogue.faye]
  /\ Forall (fun c => is_cjk c = true) (strip (song_name DemoCatalogue.moon))
  /\ song_artist DemoCatalogue.moon ≠ [].
Proof.
  assert (_fetch_playlist (Some (200, DemoCatalogue.tracks))
          = [DemoCatalogue.moon; mkSong 4 unknown_song DemoCatalogue.faye]) as Heq
    by (vm_compute; reflexivity).
  assert (DemoCatalogue.moon ∈ _fetch_playlist (Some (200, DemoCatalogue.tracks))) as Hin
    by (rewrite Heq; left).
  split; [exact Hin|]. split; [exact Heq|].
  destruct (fetched_song_is_free_and_chinese _ _ Hin)
    as (tracks & track & _ & _ & _ & _ & _ & Hcjk & _ & Hartist).
  split; [exact Hcjk | exact Hartist].
Defined.

(** ** More on the matcher *)

Lemma contains_length (sub s : pystr) :
  contains sub s = true -> (length sub <= length s)%nat.
Proof.
  intros H. apply contains_spec in H as (before & after & ->).
  rewrite !length_app. lia.
Qed.

Lemma cjk_string_is_normal (s : pystr) :
  Forall (fun c => is_cjk c = true) s ->
  remove_spaces (ascii_lower s) = s.
Proof.
  induction 1 as [|c s Hc Hs IH]; [done|].
  destruct (is_cjk_plain c Hc) as (_ & Hsp & Hup).
  unfold ascii_lower, remove_spaces in *. simpl. rewrite Hup, Hsp. simpl.
  by rewrite IH.
Qed.

(** X3. A guess that is, once normalised, shorter than two characters never
    matches a title that has two characters or more once normalised; and
    every title the catalogue filter accepts is such a title: normalising it
    only strips it, which leaves two to seven characters. *)
Theorem short_guess_never_matches :
  (forall (lower : pystr -> pystr) (user_input correct_answer : pystr),
     (length (normalize lower user_input) < 2)%nat ->
     (2 <= length (normalize lower correct_answer))%nat ->
     _check_answer lower user_input correct_answer = false)
  /\ (forall title,
        _is_valid_song_name title = true ->
        normalize ascii_lower title = strip title
        /\ (2 <= length (normalize ascii_lower title) <= 7)%nat).
Proof.
  split.
  - intros lower u c Hu Hc. unfold _check_answer. cbv zeta.
    rewrite bool_decide_eq_false_2 by (intros Heq; rewrite Heq in Hu; lia).
    destruct (contains (normalize lower c) (normalize lower u)) eqn:Hcu.
    { apply contains_length in Hcu. lia. }
    destruct (Z.leb_spec 2 (Z.of_nat (length (normalize lower u)))); [lia|done].
  - intros title Hvalid. apply valid_song_name_spec in Hvalid as [Hcjk Hlen].
    unfold normalize. by rewrite cjk_string_is_normal.
Qed.

Lemma one_character_guess_at_moon :
  (length (normalize ascii_lower [26376]%N) < 2)%nat
  /\ (2 <= length (normalize ascii_lower [26376; 20142]%N))%nat
  /\ _is_valid_song_name [26376; 20142]%N = true
  /\ _check_answer ascii_lower [26376]%N [26376; 20142]%N = false
  /\ normalize ascii_lower [26376; 20142]%N = strip [26376; 20142]%N.
Proof.
  assert (length (normalize ascii_lower [26376]%N) < 2)%nat as H1 by (vm_compute; lia).
  assert (2 <= length (normalize ascii_lower [26376; 20142]%N))%nat as H2
    by (vm_compute; lia).
  assert (_is_valid_song_name [26376; 20142]%N = true) as H3 by reflexivity.
  do 3 (split; [assumption|]). split.
  - exact (proj1 short_guess_never_matches ascii_lower _ _ H1 H2).
  - exact (proj1 (proj2 short_guess_never_matches _ H3)).
Defined.

(** X4. A title that normalises to the empty string (a title made of spaces,
    say) is matched by every guess, the empty one included. *)
Theorem blank_title_matches_every_guess
  (lower : pystr -> pystr) (user_input correct_answer : pystr) :
  normalize lower correct_answer = [] ->
  _check_answer lower user_input correct_answer = true.
Proof.
  intros Hblank. unfold _check_answer. cbv zeta. rewrite Hblank.
  case_bool_decide; [done|].
  assert (contains [] (normalize lower user_input) = true) as ->; [|done].
  apply contains_spec. by exists [], (normalize lower user_input).
Qed.

Lemma title_of_spaces_matches_anything :
  normalize ascii_lower [32; 32]%N = []
  /\ _check_answer ascii_lower [120]%N [32; 32]%N = true.
Proof.
  assert (normalize ascii_lower [32; 32]%N = []) as H by reflexivity.
  split; [exact H|].
  exact (blank_title_matches_every_guess ascii_lower [120]%N [32; 32]%N H).
Defined.

Lemma lstrip_pad (pad s : pystr) :
  Forall (fun c => isspace c = true) pad -> lstrip (pad ++ s) = lstrip s.
Proof. induction 1 as [|c pad Hc _ IH]; [done|]. simpl. by rewrite Hc. Qed.

Lemma lstrip_all_space (s : pystr) :
  Forall (fun c => isspace c = true) s -> lstrip s = [].
Proof. induction 1 as [|c s Hc _ IH]; [done|]. simpl. by rewrite Hc. Qed.

Lemma lstrip_app_nonempty (s pad : pystr) :
  lstrip s ≠ [] -> lstrip (s ++ pad) = lstrip s ++ pad.
Proof.
  induction s as [|c s IH]; simpl; [done|].
  destruct (isspace c); [apply IH|done].
Qed.

Lemma rstrip_pad (s pad : pystr) :
  Forall (fun c => isspace c = true) pad -> rstrip (s ++ pad) = rstrip s.
Proof.
  intros Hpad. unfold rstrip. rewrite rev_app_distr.
  rewrite lstrip_pad; [done|]. by apply Forall_rev.
Qed.

Lemma strip_pad (before s after : pystr) :
  Forall (fun c => isspace c = true) before ->
  Forall (fun c => isspace c = true) after ->
  strip (before ++ s ++ after) = strip s.
Proof.
  intros Hb Ha. unfold strip. rewrite lstrip_pad by done.
  destruct (decide (lstrip s = [])) as [Hempty|Hne].
  - rewrite Hempty.
    assert (Forall (fun c => isspace c = true) s) as Hs.
    { destruct (lstrip_spec s) as (dropped & Heq & Hsp & _).
      rewrite Hempty, app_nil_r in Heq. by subst. }
    rewrite lstrip_all_space; [done|]. by apply Forall_app.
  - rewrite lstrip_app_nonempty by done. by apply rstrip_pad.
Qed.

(** X5. Whitespace around a guess or around the title never changes the
    verdict of the matcher. *)
Theorem padding_does_not_matter
  (lower : pystr -> pystr) (user_input correct_answer b1 a1 b2 a2 : pystr) :
  Forall (fun c => isspace c = true) (b1 ++ a1 ++ b2 ++ a2) ->
  _check_answer lower (b1 ++ user_input ++ a1) (b2 ++ correct_answer ++ a2)
  = _check_answer lower user_input correct_answer.
Proof.
  intros Hpad. apply Forall_app in Hpad as [Hb1 Hpad].
  apply Forall_app in Hpad as [Ha1 Hpad]. apply Forall_app in Hpad as [Hb2 Ha2].
  unfold _check_answer, normalize. by rewrite !strip_pad.
Qed.

Lemma padded_moon_matches :
  Forall (fun c => isspace c = true) ([32; 9] ++ [10] ++ [12288] ++ [])%N
  /\ _check_answer ascii_lower ([32; 9] ++ [26376; 20142] ++ [10])%N
                   ([12288] ++ [26376; 20142] ++ [])%N
     = _check_answer ascii_lower [26376; 20142]%N [26376; 20142]%N.
Proof.
  assert (Forall (fun c => isspace c = true) ([32; 9] ++ [10] ++ [12288] ++ [])%N) as H
    by (repeat constructor).
  split; [exact H|].
  exact (padding_does_not_matter ascii_lower _ _ _ _ _ _ H).
Defined.

(** ** The song source *)

Lemma random_choice_elem_of {A} (o : Oracle) (l : list A) :
  l ≠ [] -> exists x, random_choice o l = Some x /\ x ∈ l.
Proof.
  intros Hne. unfold random_choice.
  destruct (lookup_lt_is_Some_2 l (choice o mod length l)) as [x Hx].
  { apply Nat.mod_upper_bound. by destruct l. }
  exists x. split; [done|]. by eapply list_elem_of_lookup_2.
Qed.

Lemma _preload_playlists_played o st :
  played_songs (_preload_playlists o st) = played_songs st.
Proof.
  unfold _preload_playlists, PLAYLISTS. simpl.
  destruct (fetch o 3778678), (fetch o 19723756); done.
Qed.

Lemma recent_lookup (o : Oracle) (played : gmap Z Z) (song : Song) :
  filter (fun kv : Z * Z => now o - 86400 < kv.2) played !! song_id song = None
  <-> ~ recently_played o played song.
Proof.
  rewrite map_lookup_filter_None. unfold recently_played. simpl. split.
  - intros [Hnone|Hold] (ts & Hts & Hnew); [congruence|]. by apply (Hold ts).
  - intros Hnot. destruct (played !! song_id song) as [ts|] eqn:Hts; [|by left].
    right. intros ts' [= <-] Hnew. apply Hnot. by exists ts.
Qed.

(** How [_get_random_song] draws: the cache is reloaded if it is empty; the
    pool is what the group has not heard for 24 hours, or everything when
    nothing is left; the draw is recorded over the records that are still
    fresh. *)
Lemma _get_random_song_draws o g st :
  let st1 := match all_cached st with [] => _preload_playlists o st | _ => st end in
  let all_songs := all_cached st1 in
  let known := if bool_decide (g = []) then None else played_songs st1 !! g in
  let fresh := filter (fun kv : Z * Z => now o - 86400 < kv.2) <$> known in
  let unheard played :=
    List.filter (fun s => bool_decide (played !! song_id s = None)) all_songs in
  let pool :=
    match fresh with
    | Some played => match unheard played with [] => all_songs | l => l end
    | None => all_songs
    end in
  let kept :=
    match fresh with
    | Some played => match unheard played with [] => ∅ | _ => played end
    | None => ∅
    end in
  (all_songs = [] /\ _get_random_song o g st = (None, st1))
  \/ (all_songs ≠ [] /\ exists song,
        song ∈ pool
        /\ _get_random_song o g st
           = (Some song,
              if bool_decide (g = []) then st1
              else set_played_songs
                     (<[g := <[song_id song := now o]> kept]> (played_songs st1)) st1)).
Proof.
  intros st1 all_songs known fresh unheard pool kept.
  assert (forall (B : Type) (l : list Song) (x y : B),
            l ≠ [] -> match l with [] => x | _ :: _ => y end = y) as Hmatch
    by (intros B [|? ?] x y Hl; done).
  unfold _get_random_song. cbv zeta. fold st1. fold all_songs.
  destruct (decide (all_songs = [])) as [Hempty|Hne].
  { left. split; [done|]. by rewrite Hempty. }
  right. split; [done|]. rewrite Hmatch by done.
  fold known. subst fresh pool kept.
  destruct known as [played|] eqn:Hknown; cbn [fmap option_fmap option_map].
  - assert (g ≠ []) as Hg.
    { intros ->. unfold known in Hknown. by rewrite bool_decide_eq_true_2 in Hknown. }
    set (recent := filter (fun kv : Z * Z => now o - 86400 < kv.2) played).
    fold (unheard recent).
    destruct (decide (unheard recent = [])) as [Hnone|Hsome].
    + rewrite Hnone.
      destruct (random_choice_elem_of o all_songs Hne) as (song & Hsong & Hin).
      rewrite Hsong. exists song. split; [exact Hin|].
      rewrite bool_decide_eq_false_2 by done.
      cbn [played_songs set_played_songs]. rewrite lookup_insert_eq.
      cbn [default]. by rewrite insert_insert_eq.
    + rewrite !Hmatch by done.
      assert (forall l : list Song,
                l ≠ [] -> match l with [] => all_songs | s :: l0 => s :: l0 end = l)
        as Hpool by (intros [|? ?] ?; done).
      rewrite (Hpool _ Hsome).
      destruct (random_choice_elem_of o (unheard recent) Hsome) as (song & Hsong & Hin).
      rewrite Hsong. exists song. split; [exact Hin|].
      rewrite bool_decide_eq_false_2 by done.
      cbn [played_songs set_played_songs]. rewrite lookup_insert_eq.
      cbn [default]. by rewrite insert_insert_eq.
  - destruct (random_choice_elem_of o all_songs Hne) as (song & Hsong & Hin).
    rewrite Hsong. exists song. split; [exact Hin|].
    unfold known in Hknown.
    destruct (decide (g = [])) as [->|Hg].
    + by rewrite bool_decide_eq_true_2.
    + rewrite bool_decide_eq_false_2 in Hknown by done.
      by rewrite bool_decide_eq_false_2, Hknown by done.
Qed.

Lemma filter_nil_iff {A} (f : A -> bool) (l : list A) :
  List.filter f l = [] <-> forall x, x ∈ l -> f x = false.
Proof.
  induction l as [|a l IH]; simpl.
  - split; [intros _ x Hx; by apply elem_of_nil in Hx | done].
  - destruct (f a) eqn:Hfa.
    + split; [done|]. intros H. assert (a ∈ a :: l) as Ha by left. specialize (H a Ha). congruence.
    + rewrite IH. split.
      * intros H x Hx. apply elem_of_cons in Hx as [->|Hx]; [done|by apply H].
      * intros H x Hx. apply H. by right.
Qed.

Lemma filter_elem_of {A} (f : A -> bool) (l : list A) x :
  x ∈ List.filter f l <-> x ∈ l /\ f x = true.
Proof. rewrite !list_elem_of_In. apply filter_In. Qed.

(** X6. [_get_random_song] answers with a song of the playlist cache. It
    answers [None] exactly when the cache is empty and stays empty after the
    reload, and then records nothing; it reloads only an empty cache. *)
Theorem drawn_song_is_cached (o : Oracle) (g : pystr) (st : State) :
  let r := _get_random_song o g st in
  (r.1 = None <-> all_cached r.2 = [])
  /\ (forall song, r.1 = Some song -> song ∈ all_cached r.2)
  /\ (all_cached st ≠ [] -> playlist_cache r.2 = playlist_cache st)
  /\ (r.1 = None -> played_songs r.2 = played_songs st).
Proof.
  intros r. subst r.
  pose proof (_get_random_song_draws o g st) as Hdraw. cbv zeta in Hdraw.
  set (st1 := match all_cached st with [] => _preload_playlists o st | _ => st end) in *.
  assert (all_cached st ≠ [] -> st1 = st) as Hkeep.
  { intros Hne. subst st1. by destruct (all_cached st). }
  assert (played_songs st1 = played_songs st) as Hplayed.
  { subst st1. destruct (all_cached st); [apply _preload_playlists_played|done]. }
  destruct Hdraw as [[Hempty ->]|(Hne & song & Hin & ->)]; cbn [fst snd].
  - split; [done|]. split; [done|]. split; [|done].
    intros Hcache. by rewrite (Hkeep Hcache).
  - assert (forall st2, playlist_cache st2 = playlist_cache st1 ->
                        all_cached st2 = all_cached st1) as Hsame
      by (intros st2 H; unfold all_cached; by rewrite H).
    set (st2 := if bool_decide (g = []) then st1 else _).
    assert (playlist_cache st2 = playlist_cache st1) as Hcache
      by (subst st2; by case_bool_decide).
    rewrite (Hsame st2 Hcache).
    split; [split; [done|intros H; by destruct Hne]|].
    split.
    + intros song' [= <-].
      destruct (if bool_decide (g = []) then None else played_songs st1 !! g)
        as [played|]; [|done].
      simpl in Hin.
      destruct (List.filter _ (all_cached st1)) eqn:Hf; [done|].
      rewrite <- Hf in Hin. by apply filter_elem_of in Hin as [? _].
    + split; [|done]. intros Hst. rewrite Hcache. by rewrite (Hkeep Hst).
Qed.

Lemma draw_from_demo_cache :
  all_cached Demo.st0 ≠ []
  /\ (_get_random_song Demo.oracle Demo.group Demo.st0).1 = Some Demo.moon
  /\ Demo.moon ∈ all_cached (_get_random_song Demo.oracle Demo.group Demo.st0).2
  /\ playlist_cache (_get_random_song Demo.oracle Demo.group Demo.st0).2
     = playlist_cache Demo.st0.
Proof.
  assert (all_cached Demo.st0 ≠ []) as H1 by (vm_compute; discriminate).
  assert ((_get_random_song Demo.oracle Demo.group Demo.st0).1 = Some Demo.moon) as H2
    by (vm_compute; reflexivity).
  destruct (drawn_song_is_cached Demo.oracle Demo.group Demo.st0) as (_ & Hin & Hkeep & _).
  split; [exact H1|]. split; [exact H2|]. split; [exact (Hin _ H2) | exact (Hkeep H1)].
Defined.

(** X7. No repeat within 24 hours: when the group has records and the cache
    holds a song the group has not heard during the last 24 hours, the song
    drawn is one it has not heard during the last 24 hours. *)
Theorem drawn_song_was_not_heard_recently
  (o : Oracle) (g : pystr) (st : State) (played : gmap Z Z) (song : Song) :
  g ≠ [] ->
  played_songs st !! g = Some played ->
  (_get_random_song o g st).1 = Some song ->
  (exists s, s ∈ all_cached (_get_random_song o g st).2
             /\ ~ recently_played o played s) ->
  ~ recently_played o played song.
Proof.
  intros Hg Hplayed.
  pose proof (_get_random_song_draws o g st) as Hdraw. cbv zeta in Hdraw.
  set (st1 := match all_cached st with [] => _preload_playlists o st | _ => st end) in *.
  assert (played_songs st1 = played_songs st) as Hsame.
  { subst st1. destruct (all_cached st); [apply _preload_playlists_played|done]. }
  rewrite bool_decide_eq_false_2 in Hdraw by done.
  rewrite Hsame, Hplayed in Hdraw. cbn [fmap option_fmap option_map] in Hdraw.
  destruct Hdraw as [[Hempty ->]|(Hne & song' & Hin & ->)]; cbn [fst snd]; [done|].
  intros [= ->] (s & Hs & Hfresh).
  cbn [playlist_cache set_played_songs all_cached] in Hs.
  change (s ∈ all_cached st1) in Hs.
  set (recent := filter (fun kv : Z * Z => now o - 86400 < kv.2) played) in *.
  destruct (List.filter (fun s => bool_decide (recent !! song_id s = None))
                        (all_cached st1)) as [|a l] eqn:Hf.
  - exfalso. pose proof (proj1 (filter_nil_iff _ _) Hf s Hs) as Hs'.
    apply bool_decide_eq_false in Hs'. apply Hs'. by apply recent_lookup.
  - rewrite <- Hf in Hin. apply filter_elem_of in Hin as [_ Hin].
    apply bool_decide_eq_true in Hin. by apply recent_lookup.
Qed.

Lemma demo_draw_skips_what_was_heard :
  Demo.group ≠ []
  /\ played_songs DemoSongs.heard !! Demo.group = Some (<[1 := 940]> (<[2 := -200000]> ∅))
  /\ (_get_random_song Demo.oracle Demo.group DemoSongs.heard).1 = Some Demo.song2
  /\ Demo.song2 ∈ all_cached (_get_random_song Demo.oracle Demo.group DemoSongs.heard).2
  /\ ~ recently_played Demo.oracle (<[1 := 940]> (<[2 := -200000]> ∅)) Demo.song2.
Proof.
  assert (Demo.group ≠ []) as H1 by discriminate.
  assert (played_songs DemoSongs.heard !! Demo.group
          = Some (<[1 := 940]> (<[2 := -200000]> ∅))) as H2 by (vm_compute; reflexivity).
  assert ((_get_random_song Demo.oracle Demo.group DemoSongs.heard).1 = Some Demo.song2)
    as H3 by (vm_compute; reflexivity).
  assert (Demo.song2
          ∈ all_cached (_get_random_song Demo.oracle Demo.group DemoSongs.heard).2) as H4.
  { replace (all_cached (_get_random_song Demo.oracle Demo.group DemoSongs.heard).2)
      with [Demo.moon; Demo.song2; Demo.song3] by (vm_compute; reflexivity).
    right; left. }
  assert (~ recently_played Demo.oracle (<[1 := 940]> (<[2 := -200000]> ∅)) Demo.song3)
    as H5.
  { intros (ts & Hts & _). vm_compute in Hts. discriminate. }
  assert (Demo.song3
          ∈ all_cached (_get_random_song Demo.oracle Demo.group DemoSongs.heard).2) as H6.
  { replace (all_cached (_get_random_song Demo.oracle Demo.group DemoSongs.heard).2)
      with [Demo.moon; Demo.song2; Demo.song3] by (vm_compute; reflexivity).
    right; right; left. }
  do 4 (split; [assumption|]).
  exact (drawn_song_was_not_heard_recently Demo.oracle Demo.group DemoSongs.heard _
           Demo.song2 H1 H2 H3 (ex_intro _ Demo.song3 (conj H6 H5))).
Defined.

(** X8. The draw is recorded. For a group with a non-empty id, after a song
    is drawn the group's records hold that song at the current time; every
    other record is an old one younger than 24 hours; when every cached song
    had been heard within 24 hours the records are reset to the drawn song
    alone; the records of other groups are untouched. *)
Theorem drawn_song_is_recorded (o : Oracle) (g : pystr) (st : State) (song : Song) :
  g ≠ [] ->
  (_get_random_song o g st).1 = Some song ->
  let st' := (_get_random_song o g st).2 in
  let old := default ∅ (played_songs st !! g) in
  exists played',
    played_songs st' !! g = Some played'
    /\ played' !! song_id song = Some (now o)
    /\ (forall id ts, id ≠ song_id song -> played' !! id = Some ts ->
                      old !! id = Some ts /\ now o - 86400 < ts)
    /\ ((forall s, s ∈ all_cached st' -> recently_played o old s) ->
        played' = {[ song_id song := now o ]})
    /\ (forall g', g' ≠ g -> played_songs st' !! g' = played_songs st !! g').
Proof.
  intros Hg.
  pose proof (_get_random_song_draws o g st) as Hdraw. cbv zeta in Hdraw.
  set (st1 := match all_cached st with [] => _preload_playlists o st | _ => st end) in *.
  assert (played_songs st1 = played_songs st) as Hsame.
  { subst st1. destruct (all_cached st); [apply _preload_playlists_played|done]. }
  rewrite bool_decide_eq_false_2 in Hdraw by done.
  rewrite Hsame in Hdraw.
  destruct Hdraw as [[Hempty ->]|(Hne & song' & Hin & ->)]; cbn [fst snd]; [done|].
  intros [= ->]. cbv zeta. cbn [played_songs set_played_songs].
  match goal with
  | |- context [all_cached (set_played_songs ?m st1)] =>
      change (all_cached (set_played_songs m st1)) with (all_cached st1)
  end.
  eexists. split; [apply lookup_insert_eq|].
  split; [apply lookup_insert_eq|].
  destruct (played_songs st !! g) as [played|] eqn:Hplayed;
    cbn [fmap option_fmap option_map default] in *.
  - set (recent := filter (fun kv : Z * Z => now o - 86400 < kv.2) played) in *.
    destruct (List.filter (fun s => bool_decide (recent !! song_id s = None))
                          (all_cached st1)) as [|a l] eqn:Hf.
    + split.
      { intros id ts Hid. rewrite lookup_insert_ne by done.
        by rewrite lookup_empty. }
      split; [intros _; apply insert_empty|].
      intros g' Hg'. by rewrite lookup_insert_ne.
    + split.
      { intros id ts Hid. rewrite lookup_insert_ne by done.
        subst recent. rewrite map_lookup_filter_Some. by intros [? ?]. }
      split.
      * intros Hall. exfalso.
        assert (a ∈ List.filter (fun s => bool_decide (recent !! song_id s = None))
                       (all_cached st1)) as Ha by (rewrite Hf; left).
        apply filter_elem_of in Ha as [Ha Hfresh].
        apply bool_decide_eq_true in Hfresh.
        apply (proj1 (recent_lookup o played a)) in Hfresh.
        apply Hfresh. by apply Hall.
      * intros g' Hg'. by rewrite lookup_insert_ne.
  - split.
    { intros id ts Hid. rewrite lookup_insert_ne by done. by rewrite lookup_empty. }
    split; [intros _; apply insert_empty|].
    intros g' Hg'. by rewrite lookup_insert_ne.
Qed.

Lemma demo_draw_is_recorded :
  Demo.group ≠ []
  /\ (_get_random_song Demo.oracle Demo.group DemoSongs.heard).1 = Some Demo.song2
  /\ exists played',
       played_songs (_get_random_song Demo.oracle Demo.group DemoSongs.heard).2
         !! Demo.group = Some played'
       /\ played' !! 2 = Some 1000.
Proof.
  assert (Demo.group ≠ []) as H1 by discriminate.
  assert ((_get_random_song Demo.oracle Demo.group DemoSongs.heard).1 = Some Demo.song2)
    as H2 by (vm_compute; reflexivity).
  destruct (drawn_song_is_recorded Demo.oracle Demo.group DemoSongs.heard Demo.song2 H1 H2)
    as (played' & Hp & Hnow & _).
  split; [exact H1|]. split; [exact H2|].
  exists played'. split; [exact Hp | exact Hnow].
Defined.

(** ** The leaderboard over time *)

Lemma ledger_grows_same st st' :
  stats_files st' = stats_files st -> ledger_grows st st'.
Proof.
  intros Heq g users u e Hg Hu. exists users, e. rewrite Heq. repeat split; [done|done|lia|lia].
Qed.

Lemma ledger_grows_trans st1 st2 st3 :
  ledger_grows st1 st2 -> ledger_grows st2 st3 -> ledger_grows st1 st3.
Proof.
  intros H12 H23 g users u e Hg Hu.
  destruct (H12 _ _ _ _ Hg Hu) as (users2 & e2 & Hg2 & Hu2 & Hs2 & Hw2).
  destruct (H23 _ _ _ _ Hg2 Hu2) as (users3 & e3 & Hg3 & Hu3 & Hs3 & Hw3).
  exists users3, e3. repeat split; [done|done|lia|lia].
Qed.

Lemma ledger_grows_add_score g uid nick pts st :
  0 <= pts -> ledger_grows st (_add_score g uid nick pts st).
Proof.
  intros Hpts g' users u e Hg Hu.
  destruct (decide (g' = g)) as [->|Hne].
  - pose proof (_add_score_load g uid nick pts st u) as Hload.
    unfold _load_stats in Hload at 1.
    assert (exists users', stats_files (_add_score g uid nick pts st) !! g = Some users')
      as [users' Hg'].
    { unfold _add_score, _save_stats. simpl. rewrite lookup_insert_eq. by eexists. }
    rewrite Hg' in Hload. simpl in Hload.
    unfold _load_stats in Hload. rewrite Hg in Hload. simpl in Hload.
    exists users'. destruct (decide (u = uid)) as [->|Hu'].
    + rewrite Hu in Hload. simpl in Hload. eexists. split; [done|]. split; [done|].
      simpl. lia.
    + exists e. rewrite Hload. repeat split; [done|done|lia|lia].
  - exists users, e. rewrite _add_score_other_group by done.
    repeat split; [done|done|lia|lia].
Qed.

Lemma ledger_grows_save_scores g l : forall st, ledger_grows st (save_scores g l st).
Proof.
  induction l as [|[k p] l IH]; intros st; [by apply ledger_grows_same|].
  rewrite save_scores_cons.
  destruct (Z.ltb_spec 0 (p_score p)) as [Hpos|_]; [|apply IH].
  eapply ledger_grows_trans; [|apply IH].
  apply ledger_grows_add_score. lia.
Qed.

Lemma ledger_grows_end_game o g st : ledger_grows st (_end_game o g st).1.
Proof.
  unfold _end_game. destruct (sessions st !! g) as [session|]; [|by apply ledger_grows_same].
  cbn [participants set_status].
  destruct (cancel_timeout_frame session st) as (_ & Hsf & _).
  destruct (participants session) as [|x roster] eqn:Hp.
  - apply ledger_grows_same. simpl. done.
  - cbn [fst]. set (ranking := sorted_scores_of _).
    set (st2 := set_sessions _ (cancel_timeout session st)).
    eapply ledger_grows_trans; [apply (ledger_grows_same st st2); by subst st2|].
    eapply ledger_grows_trans; [apply (ledger_grows_save_scores g ranking)|].
    by apply ledger_grows_same.
Qed.

Lemma ledger_grows_next_round cfg o g st : ledger_grows st (_next_round cfg o g st).1.
Proof.
  unfold _next_round.
  destruct (sessions st !! g) as [session|]; [|by apply ledger_grows_same].
  destruct (max_rounds cfg <? round_num session + 1); [apply ledger_grows_end_game|].
  pose proof (_get_random_song_same_game o g st) as (_ & _ & _ & Hsf).
  destruct (_get_random_song o g st) as [[song|] st1]; simpl in Hsf.
  - apply ledger_grows_same. unfold begin_round, create_task. simpl.
    match goal with
    | |- context [cancel_timeout ?x st1] =>
        by destruct (cancel_timeout_frame x st1) as (_ & -> & _)
    end.
  - pose proof (ledger_grows_end_game o g st1) as Hend.
    destruct (_end_game o g st1) as [st2 out]. simpl in *.
    eapply ledger_grows_trans; [|exact Hend]. by apply ledger_grows_same.
Qed.

Lemma ledger_grows_start_game cfg o g st : ledger_grows st (_start_game cfg o g st).1.
Proof.
  unfold _start_game, _get_session.
  destruct (sessions st !! g) as [session|]; simpl.
  - match goal with
    | |- context [_next_round cfg o g ?x] =>
        pose proof (ledger_grows_next_round cfg o g x) as Hn;
        destruct (_next_round cfg o g x)
    end.
    simpl in *. eapply ledger_grows_trans; [|exact Hn]. by apply ledger_grows_same.
  - match goal with
    | |- context [_next_round cfg o g ?x] =>
        pose proof (ledger_grows_next_round cfg o g x) as Hn;
        destruct (_next_round cfg o g x)
    end.
    simpl in *. eapply ledger_grows_trans; [|exact Hn]. by apply ledger_grows_same.
Qed.

Lemma ledger_grows_step cfg lower o e st : ledger_grows st (step cfg lower o e st).1.
Proof.
  destruct e as [g u nick origin|g u nick|g|g u|g|g u nick|g u nick text|tid|i|];
    simpl.
  - unfold cmd_create_game. repeat case_match; simplify_eq; by apply ledger_grows_same.
  - unfold cmd_start_game.
    pose proof (ledger_grows_start_game cfg o g st) as Hstart.
    repeat case_match; simplify_eq; simpl; try (by apply ledger_grows_same); done.
  - unfold cmd_hint. repeat case_match; simplify_eq; by apply ledger_grows_same.
  - unfold cmd_answer. repeat case_match; simplify_eq; simpl;
      try (by apply ledger_grows_same); apply ledger_grows_same; simpl;
      match goal with
      | |- context [cancel_timeout ?x st] =>
          by destruct (cancel_timeout_frame x st) as (_ & -> & _)
      end.
  - unfold cmd_end_game. repeat case_match; simplify_eq; by apply ledger_grows_same.
  - unfold cmd_admin_end_game. repeat case_match; simplify_eq; by apply ledger_grows_same.
  - unfold on_message. repeat case_match; simplify_eq; simpl;
      try (by apply ledger_grows_same); apply ledger_grows_same; simpl;
      match goal with
      | |- context [cancel_timeout ?x st] =>
          by destruct (cancel_timeout_frame x st) as (_ & -> & _)
      end.
  - unfold _round_timeout.
    destruct (timers st !! tid) as [t|]; [|by apply ledger_grows_same].
    pose proof (ledger_grows_next_round cfg o (tk_group t) st) as Hn.
    destruct (_next_round cfg o (tk_group t) st).
    repeat case_match; simplify_eq; simpl; try (by apply ledger_grows_same); done.
  - unfold resume.
    destruct (suspended st !! i) as [[g|g]|]; [| |by apply ledger_grows_same].
    + apply (ledger_grows_next_round cfg o g (set_suspended _ st)).
    + apply (ledger_grows_end_game o g (set_suspended _ st)).
  - apply ledger_grows_same. by destruct (terminate_weakens st) as (_ & _ & _ & ->).
Qed.

(** X9. The leaderboard only grows: over any run of the event loop, with the
    leaderboard files read and written without error, no group's leaderboard
    loses a user and no user's historical score or count of scoring games
    goes down. *)
Theorem leaderboard_only_grows (cfg : Config) (lower : pystr -> pystr)
  (es : list (Oracle * Event)) (st : State) :
  ledger_grows st (run cfg lower es st).1.
Proof.
  revert st. induction es as [|[o e] es IH]; intros st; [by apply ledger_grows_same|].
  simpl. pose proof (ledger_grows_step cfg lower o e st) as H1.
  destruct (step cfg lower o e st) as [st1 out1]. simpl in H1.
  pose proof (IH st1) as H2. destruct (run cfg lower es st1) as [st2 out2].
  simpl in *. by eapply ledger_grows_trans.
Qed.


(** ** Shutting down *)

Lemma cancel_lookup tid st tid' :
  timers (cancel tid st) !! tid'
  = if decide (tid' = tid) then cancel_task <$> timers st !! tid
    else timers st !! tid'.
Proof.
  unfold cancel. simpl. destruct (decide (tid' = tid)) as [->|Hne].
  - apply list_lookup_alter_eq.
  - by apply list_lookup_alter_ne.
Qed.

Lemma cancel_task_dead t : ~ live t -> cancel_task t = t.
Proof. unfold live, cancel_task. destruct (tk_state t); intros H; tauto. Qed.

(** X11. [terminate] cancels the timer every session holds: afterwards no
    timer held in a session's [timeout_task] can still fire, each task is
    either as it was or cancelled, the tasks no session holds are as they
    were, and the sessions, the leaderboards and the sleeping handlers are
    untouched. *)
Theorem terminate_cancels_held_timers (st : State) :
  let st' := terminate st in
  (forall g s tid t,
     sessions st !! g = Some s -> timeout_task s = Some tid ->
     timers st' !! tid = Some t -> ~ live t)
  /\ (forall tid t,
        timers st !! tid = Some t ->
        timers st' !! tid = Some t \/ timers st' !! tid = Some (cancel_task t))
  /\ (forall tid,
        (forall g s, sessions st !! g = Some s -> timeout_task s ≠ Some tid) ->
        timers st' !! tid = timers st !! tid)
  /\ sessions st' = sessions st
  /\ stats_files st' = stats_files st
  /\ suspended st' = suspended st.
Proof.
  intros st'. subst st'.
  destruct (terminate_weakens st) as (Hse & _ & Hsu & Hsf).
  assert ((forall g s tid t,
             sessions st !! g = Some s -> timeout_task s = Some tid ->
             timers (terminate st) !! tid = Some t -> ~ live t)
          /\ (forall tid t,
                timers st !! tid = Some t ->
                timers (terminate st) !! tid = Some t
                \/ timers (terminate st) !! tid = Some (cancel_task t))
          /\ (forall tid,
                (forall g s, sessions st !! g = Some s -> timeout_task s ≠ Some tid) ->
                timers (terminate st) !! tid = timers st !! tid)) as (H1 & H2 & H3).
  { unfold terminate.
    apply (map_fold_weak_ind
             (fun r (m : gmap pystr GameSession) =>
                (forall g s tid t,
                   m !! g = Some s -> timeout_task s = Some tid ->
                   timers r !! tid = Some t -> ~ live t)
                /\ (forall tid t,
                      timers st !! tid = Some t ->
                      timers r !! tid = Some t \/ timers r !! tid = Some (cancel_task t))
                /\ (forall tid,
                      (forall g s, m !! g = Some s -> timeout_task s ≠ Some tid) ->
                      timers r !! tid = timers st !! tid))).
    - split; [intros g s tid t Hg; by rewrite lookup_empty in Hg|]. split; [by left|done].
    - intros g session m r Hfresh (IH1 & IH2 & IH3).
      unfold cancel_timeout.
      destruct (timeout_task session) as [tid0|] eqn:Htask.
      + split; [|split].
        * intros g' s tid t Hg' Hs Ht. rewrite cancel_lookup in Ht.
          destruct (decide (tid = tid0)) as [->|Hne].
          -- destruct (timers r !! tid0) as [t0|]; [|done]. simpl in Ht.
             injection Ht as <-. apply not_live_cancel_task.
          -- apply lookup_insert_Some in Hg' as [[<- <-]|[Hg Hm]]; [congruence|].
             by apply (IH1 g' s tid t).
        * intros tid t Ht. rewrite cancel_lookup.
          destruct (decide (tid = tid0)) as [->|Hne]; [|by apply IH2].
          destruct (IH2 _ _ Ht) as [->| ->]; simpl; [by right|].
          right. f_equal. apply cancel_task_dead, not_live_cancel_task.
        * intros tid Hfree. rewrite cancel_lookup.
          destruct (decide (tid = tid0)) as [->|Hne].
          -- exfalso. apply (Hfree g session); [apply lookup_insert_eq|done].
          -- apply IH3. intros g' s Hg'. apply (Hfree g' s).
             rewrite lookup_insert_ne; [done|]. intros <-. congruence.
      + split; [|split; [done|]].
        * intros g' s tid t Hg' Hs Ht.
          apply lookup_insert_Some in Hg' as [[<- <-]|[Hg Hm]]; [congruence|].
          by apply (IH1 g' s tid t).
        * intros tid Hfree. apply IH3. intros g' s Hg'. apply (Hfree g' s).
          rewrite lookup_insert_ne; [done|]. intros <-. congruence. }
  done.
Qed.

(** ** Groups *)

(** X12. Outside a group chat nothing happens: with an empty group id every
    command leaves the state as it is and only answers that it works in
    groups, and a plain message leaves the state as it is and gets no
    answer. *)
Theorem private_chat_changes_nothing
  (cfg : Config) (lower : pystr -> pystr) (o : Oracle) (e : Event) (st : State) :
  inbound e -> acts_on st e = Some [] ->
  (step cfg lower o e st).1 = st
  /\ (step cfg lower o e st).2
     = match e with Message _ _ _ _ => [] | _ => [MGroupOnly] end.
Proof.
  destruct e as [g u nick origin|g u nick|g|g u|g|g u nick|g u nick text|tid|i|];
    simpl; intros Hin Hg; try done; injection Hg as ->.
  - done.
  - done.
  - done.
  - done.
  - done.
  - done.
  - unfold on_message. by destruct (bool_decide (strip text = [])).
Qed.

Lemma private_start_is_refused :
  inbound (StartGame [] Demo.alice [65%N])
  /\ (step Demo.cfg ascii_lower Demo.oracle (StartGame [] Demo.alice [65%N]) Demo.lobby).1
     = Demo.lobby
  /\ (step Demo.cfg ascii_lower Demo.oracle (StartGame [] Demo.alice [65%N]) Demo.lobby).2
     = [MGroupOnly].
Proof.
  assert (inbound (StartGame [] Demo.alice [65%N])) as H1 by exact I.
  assert (acts_on Demo.lobby (StartGame [] Demo.alice [65%N]) = Some []) as H2
    by reflexivity.
  split; [exact H1|].
  exact (private_chat_changes_nothing Demo.cfg ascii_lower Demo.oracle
           (StartGame [] Demo.alice [65%N]) Demo.lobby H1 H2).
Defined.

Lemma group_view_same g st st' :
  sessions st' !! g = sessions st !! g ->
  stats_files st' !! g = stats_files st !! g ->
  played_songs st' !! g = played_songs st !! g ->
  group_view g st' = group_view g st.
Proof. unfold group_view. by intros -> -> ->. Qed.

Lemma group_view_frame g st st' :
  sessions st' = sessions st -> stats_files st' = stats_files st ->
  played_songs st' = played_songs st -> group_view g st' = group_view g st.
Proof. unfold group_view. by intros -> -> ->. Qed.

Lemma group_view_trans g st1 st2 st3 :
  group_view g st2 = group_view g st1 -> group_view g st3 = group_view g st2 ->
  group_view g st3 = group_view g st1.
Proof. congruence. Qed.

Lemma _get_random_song_played_elsewhere o g st g' :
  g' ≠ g -> played_songs (_get_random_song o g st).2 !! g' = played_songs st !! g'.
Proof.
  intros Hne.
  pose proof (_get_random_song_draws o g st) as Hdraw. cbv zeta in Hdraw.
  set (st1 := match all_cached st with [] => _preload_playlists o st | _ => st end) in *.
  assert (played_songs st1 = played_songs st) as Hsame.
  { subst st1. destruct (all_cached st); [apply _preload_playlists_played|done]. }
  destruct Hdraw as [[_ ->]|(_ & song & _ & ->)]; cbn [fst snd].
  - by rewrite Hsame.
  - case_bool_decide; [by rewrite Hsame|].
    cbn [played_songs set_played_songs]. rewrite lookup_insert_ne by done.
    by rewrite Hsame.
Qed.

Lemma group_view_end_game o g st g' :
  g' ≠ g -> group_view g' (_end_game o g st).1 = group_view g' st.
Proof.
  intros Hne. destruct (_end_game_frame o g st) as (Hse & Hpl & _).
  apply group_view_same.
  - rewrite Hse. by apply lookup_delete_ne.
  - unfold _end_game. destruct (sessions st !! g) as [session|]; [|done].
    cbn [participants set_status].
    destruct (cancel_timeout_frame session st) as (_ & Hsf & _).
    destruct (participants session); cbn [fst]; [by simpl; rewrite Hsf|].
    cbn [stats_files set_sessions]. rewrite save_scores_other_group by done.
    simpl. by rewrite Hsf.
  - by rewrite Hpl.
Qed.

Lemma group_view_next_round cfg o g st g' :
  g' ≠ g -> group_view g' (_next_round cfg o g st).1 = group_view g' st.
Proof.
  intros Hne. unfold _next_round.
  destruct (sessions st !! g) as [session|]; [|done].
  destruct (max_rounds cfg <? round_num session + 1); [by apply group_view_end_game|].
  pose proof (_get_random_song_same_game o g st) as (Hse & _ & _ & Hsf).
  pose proof (_get_random_song_played_elsewhere o g st g' Hne) as Hpl.
  destruct (_get_random_song o g st) as [[song|] st1]; simpl in Hse, Hsf, Hpl.
  - apply group_view_same; unfold begin_round, create_task; simpl.
    + rewrite lookup_insert_ne by done.
      match goal with
      | |- context [cancel_timeout ?x st1] =>
          destruct (cancel_timeout_frame x st1) as (-> & _)
      end.
      by rewrite Hse.
    + match goal with
      | |- context [cancel_timeout ?x st1] =>
          destruct (cancel_timeout_frame x st1) as (_ & -> & _)
      end.
      by rewrite Hsf.
    + match goal with
      | |- context [cancel_timeout ?x st1] =>
          destruct (cancel_timeout_frame x st1) as (_ & _ & _ & -> & _)
      end.
      done.
  - pose proof (group_view_end_game o g st1 g' Hne) as Hend.
    destruct (_end_game o g st1) as [st2 out]. simpl in *.
    rewrite Hend. apply group_view_same; [by rewrite Hse|by rewrite Hsf|done].
Qed.

Lemma group_view_start_game cfg o g st g' :
  g' ≠ g -> group_view g' (_start_game cfg o g st).1 = group_view g' st.
Proof.
  intros Hne. unfold _start_game, _get_session.
  destruct (sessions st !! g) as [session|]; simpl.
  - match goal with
    | |- context [_next_round cfg o g ?x] =>
        pose proof (group_view_next_round cfg o g x g' Hne) as Hn;
        destruct (_next_round cfg o g x)
    end.
    simpl in *. rewrite Hn. apply group_view_same; simpl; [|done|done].
    by rewrite lookup_insert_ne.
  - match goal with
    | |- context [_next_round cfg o g ?x] =>
        pose proof (group_view_next_round cfg o g x g' Hne) as Hn;
        destruct (_next_round cfg o g x)
    end.
    simpl in *. rewrite Hn. apply group_view_same; simpl; [|done|done].
    by rewrite !lookup_insert_ne.
Qed.

Lemma group_view_terminate g st : group_view g (terminate st) = group_view g st.
Proof.
  unfold terminate.
  apply (map_fold_weak_ind
           (fun r (_ : gmap pystr GameSession) => group_view g r = group_view g st)).
  - done.
  - intros g0 session m r _ Hr. rewrite <- Hr.
    destruct (cancel_timeout_frame session r) as (Hse & Hsf & _ & Hpl & _).
    by apply group_view_frame.
Qed.

(** X13. Groups do not interfere: an event about one group leaves the
    session, the leaderboard and the record of heard songs of every other
    group as they were; shutting down leaves them as they were for every
    group. *)
Theorem other_groups_are_untouched
  (cfg : Config) (lower : pystr -> pystr) (o : Oracle) (e : Event) (st : State)
  (g' : pystr) :
  acts_on st e ≠ Some g' ->
  group_view g' (step cfg lower o e st).1 = group_view g' st.
Proof.
  destruct e as [g u nick origin|g u nick|g|g u|g|g u nick|g u nick text|tid|i|];
    simpl; intros Hg.
  - assert (g' ≠ g) as Hne by congruence.
    unfold cmd_create_game. repeat case_match; simplify_eq; simpl; try done;
      (apply group_view_same; simpl; [by rewrite lookup_insert_ne|done|done]).
  - assert (g' ≠ g) as Hne by congruence.
    unfold cmd_start_game.
    pose proof (group_view_start_game cfg o g st g' Hne) as Hstart.
    repeat case_match; simplify_eq; simpl; try done; by apply group_view_same.
  - assert (g' ≠ g) as Hne by congruence.
    unfold cmd_hint. repeat case_match; simplify_eq; simpl; try done;
      (apply group_view_same; simpl; [by rewrite lookup_insert_ne|done|done]).
  - unfold cmd_answer. repeat case_match; simplify_eq; simpl; try done;
      match goal with
      | |- context [cancel_timeout ?x st] =>
          destruct (cancel_timeout_frame x st) as (Hse & Hsf & _ & Hpl & _)
      end; by apply group_view_frame.
  - unfold cmd_end_game. repeat case_match; simplify_eq; done.
  - unfold cmd_admin_end_game. repeat case_match; simplify_eq; done.
  - assert (g' ≠ g) as Hne by congruence.
    unfold on_message. repeat case_match; simplify_eq; simpl; try done.
    + apply group_view_same; simpl; [by rewrite lookup_insert_ne|done|done].
    + apply group_view_same; simpl; [by rewrite lookup_insert_ne|done|done].
    + match goal with
      | |- context [cancel_timeout ?x st] =>
          destruct (cancel_timeout_frame x st) as (Hse & Hsf & _ & Hpl & _)
      end.
      apply group_view_same; simpl; [|by rewrite Hsf|by rewrite Hpl].
      rewrite lookup_insert_ne by done. by rewrite Hse.
  - unfold _round_timeout.
    destruct (timers st !! tid) as [t|] eqn:Ht; [|done].
    simpl in Hg. assert (g' ≠ tk_group t) as Hne by congruence.
    pose proof (group_view_next_round cfg o (tk_group t) st g' Hne) as Hn.
    destruct (_next_round cfg o (tk_group t) st).
    repeat case_match; simplify_eq; simpl; try done; by apply group_view_same.
  - unfold resume.
    destruct (suspended st !! i) as [[g|g]|]; [| |done].
    + assert (g' ≠ g) as Hne by congruence.
      by rewrite (group_view_next_round cfg o g (set_suspended _ st)).
    + assert (g' ≠ g) as Hne by congruence.
      by rewrite (group_view_end_game o g (set_suspended _ st)).
  - apply group_view_terminate.
Qed.

Lemma settling_the_demo_group_spares_the_other :
  acts_on DemoGroups.two_groups (HandlerWakes 0) ≠ Some DemoGroups.other
  /\ group_view DemoGroups.other
       (step Demo.cfg ascii_lower Demo.oracle (HandlerWakes 0) DemoGroups.two_groups).1
     = group_view DemoGroups.other DemoGroups.two_groups.
Proof.
  assert (acts_on DemoGroups.two_groups (HandlerWakes 0) ≠ Some DemoGroups.other) as H1
    by (vm_compute; discriminate).
  split; [exact H1|].
  exact (other_groups_are_untouched Demo.cfg ascii_lower Demo.oracle (HandlerWakes 0)
           DemoGroups.two_groups DemoGroups.other H1).
Defined.

(** ** Fair play *)

Lemma fair_same cfg s s' :
  participants s' = participants s -> status s' = status s ->
  round_num s' = round_num s -> round_answered s' = round_answered s ->
  fair cfg s -> fair cfg s'.
Proof.
  intros Hp Hst Hr Ha [H1 H2 H3 H4 H5 H6].
  split; unfold total_score in *; rewrite ?Hp, ?Hst, ?Hr, ?Ha; done.
Qed.

Lemma fair_round_begun cfg song tid s :
  fair cfg s -> fair cfg (round_begun song tid s).
Proof.
  intros [H1 H2 H3 H4 H5 H6]. split; unfold total_score in *; simpl; try done; lia.
Qed.

Lemma fair_started cfg o song tid s :
  status s = Waiting -> fair cfg s ->
  fair cfg (round_begun song tid
              (set_start_time (now o) (set_round_num 0 (set_status Playing s)))).
Proof.
  intros Hw [H1 H2 H3 H4 H5 H6]. specialize (H4 Hw).
  split; unfold total_score in *; simpl; try done; lia.
Qed.

Lemma dict_set_length_present (d : list (pystr * Participant)) k v v0 :
  Dict.get k d = Some v0 -> length (Dict.set k v d) = length d.
Proof.
  intros Hg. pose proof (dict_set_keys_present d k v v0 Hg) as Hk.
  apply (f_equal length) in Hk. unfold Dict.keys in Hk. by rewrite !length_map in Hk.
Qed.

Lemma dict_set_Forall (P : pystr * Participant -> Prop)
  (d : list (pystr * Participant)) k v :
  (forall k', P (k', v)) -> Forall P d -> Forall P (Dict.set k v d).
Proof.
  intros Hv. induction 1 as [|[k' v'] d Hx Hd IH]; simpl.
  - by constructor.
  - destruct (decide (k = k')); constructor; done.
Qed.

Lemma fair_join cfg s u nick :
  Dict.get u (participants s) = None ->
  (max_players cfg <=? Z.of_nat (length (participants s))) = false ->
  fair cfg s ->
  fair cfg (set_participants (Dict.set u (mkParticipant nick 0) (participants s)) s).
Proof.
  intros Hnone Hroom [H1 H2 H3 H4 H5 H6].
  apply Z.leb_gt in Hroom.
  split; rewrite ?total_score_set_fresh by done; try done.
  - simpl. apply dict_set_Forall; [done|done].
  - simpl. rewrite dict_set_fresh by done. rewrite length_app. simpl. lia.
Qed.

Lemma fair_credit cfg s u player :
  status s = Playing -> round_answered s = false ->
  Dict.get u (participants s) = Some player ->
  fair cfg s ->
  fair cfg (set_participants
              (Dict.set u (mkParticipant (p_name player) (p_score player + 1))
                        (participants (set_round_answered true s)))
              (set_round_answered true s)).
Proof.
  intros Hplaying Hopen Hplayer [H1 H2 H3 H4 H5 H6].
  specialize (H6 Hplaying Hopen). unfold total_score in H6.
  assert (0 <= p_score player) as Hpos.
  { apply dict_get_Some_elem_of in Hplayer.
    rewrite Forall_forall in H1. by apply (H1 _ Hplayer). }
  split; cbn [participants set_round_answered];
    rewrite ?total_score_set_credit by done; cbn [status round_num round_answered
      set_participants set_round_answered]; try done; try lia.
  - simpl. apply dict_set_Forall; [|done]. intros k'. simpl. lia.
  - simpl. by rewrite (dict_set_length_present _ _ _ _ Hplayer).
  - congruence.
Qed.

Lemma fair_play_same cfg st st' :
  sessions st' = sessions st -> fair_play cfg st -> fair_play cfg st'.
Proof. intros Hs Hf g s. rewrite Hs. apply Hf. Qed.

Lemma fair_play_delete cfg st st' g0 :
  sessions st' = delete g0 (sessions st) -> fair_play cfg st -> fair_play cfg st'.
Proof.
  intros Hs Hf g s. rewrite Hs, lookup_delete. case_decide; [done|]. apply Hf.
Qed.

Lemma fair_play_put cfg st st' g0 s0 :
  sessions st' = <[g0 := s0]> (sessions st) ->
  group_id s0 = g0 -> fair cfg s0 ->
  fair_play cfg st -> fair_play cfg st'.
Proof.
  intros Hs Hid Hfair Hf g s. rewrite Hs, lookup_insert. case_decide as Heq.
  - subst g0. by intros [= <-].
  - apply Hf.
Qed.

Lemma fair_play_next_round cfg o g st :
  fair_play cfg st -> fair_play cfg (_next_round cfg o g st).1.
Proof.
  intros Hf. destruct (_next_round_sessions cfg o g st) as [Hd|(s & song & Hs & _ & Hi)].
  - by eapply fair_play_delete.
  - destruct (Hf g s Hs) as [Hid Hfair].
    eapply fair_play_put; [done|done| |done]. by apply fair_round_begun.
Qed.

Lemma fair_play_end_game cfg o g st :
  fair_play cfg st -> fair_play cfg (_end_game o g st).1.
Proof. destruct (_end_game_frame o g st) as (Hd & _). by eapply fair_play_delete. Qed.

Lemma fair_play_start_game cfg o g st s :
  sessions st !! g = Some s -> status s = Waiting ->
  fair_play cfg st -> fair_play cfg (_start_game cfg o g st).1.
Proof.
  intros Hs Hw Hf.
  destruct (_start_game_sessions cfg o g st) as [Hd|(song & tid & _ & Hi)].
  - by eapply fair_play_delete.
  - rewrite Hs in Hi. simpl in Hi. destruct (Hf g s Hs) as [Hid Hfair].
    eapply fair_play_put; [done|done| |done]. by apply fair_started.
Qed.

Lemma fair_play_step cfg lower o e st :
  fair_play cfg st -> fair_play cfg (step cfg lower o e st).1.
Proof.
  intros Hf. destruct e as [g u nick origin|g u nick|g|g u|g|g u nick|g u nick text|tid|i|];
    simpl.
  - unfold cmd_create_game. repeat case_match; simplify_eq; simpl; try done;
      (eapply fair_play_put; [done|done| |done];
       split; unfold total_score; simpl; try done; try lia;
       by repeat constructor).
  - unfold cmd_start_game.
    destruct (bool_decide (g = [])); [done|].
    destruct (sessions st !! g) as [s|] eqn:Hs; [|done].
    destruct (status s) eqn:Hstatus; [|by destruct (current_song s)|done].
    destruct (_ <? _); [done|]. destruct (_ && _); [done|].
    pose proof (fair_play_start_game cfg o g st s Hs Hstatus Hf) as Hstart.
    by destruct (_start_game cfg o g st).
  - unfold cmd_hint.
    destruct (bool_decide (g = [])); [done|].
    destruct (sessions st !! g) as [s|] eqn:Hs; [|done].
    destruct (bool_decide (status s ≠ Playing)); [done|].
    destruct (Hf g s Hs) as [Hid Hfair].
    assert (fair_play cfg (set_sessions
              (<[g := set_hint_level (hint_level s + 1) s]> (sessions st)) st)) as Hf'.
    { eapply fair_play_put; [done|done| |done]. by apply (fair_same cfg s). }
    cbn [current_song set_hint_level]. by destruct (current_song s).
  - unfold cmd_answer. repeat case_match; simplify_eq; simpl; try done;
      (eapply fair_play_same; [|exact Hf]); simpl;
      match goal with
      | |- context [cancel_timeout ?x st] =>
          by destruct (cancel_timeout_frame x st) as (-> & _)
      end.
  - unfold cmd_end_game. repeat case_match; simplify_eq; done.
  - unfold cmd_admin_end_game. repeat case_match; simplify_eq; done.
  - unfold on_message.
    destruct (bool_decide (strip text = [])); [done|].
    destruct (bool_decide (g = [])); [done|].
    destruct (sessions st !! g) as [s|] eqn:Hs; [|done].
    destruct (Hf g s Hs) as [Hid Hfair]. cbv zeta.
    destruct (contains join_signal (strip text) && _).
    { destruct (Dict.get u (participants s)) eqn:Hu; [done|].
      destruct (max_players cfg <=? _) eqn:Hroom; [done|].
      cbn [fst]. eapply fair_play_put; [done|done| |done]. by apply fair_join. }
    case_bool_decide as Hplaying; [|done].
    destruct (current_song s) as [song|]; [|done].
    destruct (bool_decide (song_name song = [])); [done|].
    destruct (_ || _); [done|].
    destruct (_check_answer lower _ _); [|done].
    destruct (round_answered s) eqn:Hopen; [done|].
    destruct (Dict.get u (participants s)) as [player|] eqn:Hu; [|done].
    cbn [fst]. eapply fair_play_put; [| | |exact Hf].
    + cbn [sessions set_suspended set_sessions]. f_equal.
      by destruct (cancel_timeout_frame (set_round_answered true s) st) as (-> & _).
    + done.
    + by apply fair_credit.
  - unfold _round_timeout.
    destruct (timers st !! tid) as [t|]; [|done].
    pose proof (fair_play_next_round cfg o (tk_group t) st Hf) as Hn.
    destruct (_next_round cfg o (tk_group t) st).
    repeat case_match; simplify_eq; simpl; done.
  - unfold resume. destruct (suspended st !! i) as [[g|g]|]; [| |done].
    + by apply (fair_play_next_round cfg o g (set_suspended _ st)).
    + by apply (fair_play_end_game cfg o g (set_suspended _ st)).
  - eapply fair_play_same; [|exact Hf]. by destruct (terminate_weakens st) as (-> & _).
Qed.

(** X14. Fair play. In every state the event loop reaches, handlers running
    from one [asyncio.sleep] to the next, each session is kept under the id
    of its group; no score is negative; the roster has at most [max_players]
    users (the creator alone if the limit is lower); a game that has not
    started has given no point; the points given do not exceed the number of
    the round; and while a round is unanswered there is one point less. *)
Theorem games_are_fair (cfg : Config) (lower : pystr -> pystr) (st : State)
  (g : pystr) (s : GameSession) :
  reachable cfg lower st -> sessions st !! g = Some s ->
  group_id s = g /\ fair cfg s.
Proof.
  intros Hr. revert g s. change (fair_play cfg st).
  induction Hr as [st (Hs & _)|o e st Hr IH].
  - intros g s. rewrite Hs. by rewrite lookup_empty.
  - by apply fair_play_step.
Qed.

Lemma demo_round_one_is_fair :
  sessions Demo.round1 !! Demo.group = Some DemoSessions.round1_session
  /\ group_id DemoSessions.round1_session = Demo.group
  /\ total_score DemoSessions.round1_session < round_num DemoSessions.round1_session.
Proof.
  assert (sessions Demo.round1 !! Demo.group = Some DemoSessions.round1_session) as Hs
    by (vm_compute; reflexivity).
  assert (status DemoSessions.round1_session = Playing) as Hp by (vm_compute; reflexivity).
  assert (round_answered DemoSessions.round1_session = false) as Ha
    by (vm_compute; reflexivity).
  destruct (games_are_fair Demo.cfg ascii_lower Demo.round1 Demo.group
              DemoSessions.round1_session demo_round1_reachable Hs) as [Hid Hfair].
  split; [exact Hs|]. split; [exact Hid|].
  exact (open_round_has_a_point_left _ _ Hfair Hp Ha).
Defined.

(** ** Cache cleaning *)

Lemma endswith_app (s suffix : pystr) : endswith (s ++ suffix) suffix = true.
Proof.
  unfold endswith. rewrite rev_app_distr. apply startswith_spec. by exists (rev s).
Qed.

Lemma stats_file_is_json g : endswith (stats_file_name g) dot_json = true.
Proof. unfold stats_file_name. rewrite app_assoc. apply endswith_app. Qed.

Lemma cleanup_loop_cons now max_age f rest n size :
  cleanup_loop now max_age (f :: rest) n size
  = if expired_file now max_age f then
      if d_locked f then (f :: rest, None)
      else cleanup_loop now max_age rest (n + 1) (size + d_size f)
    else
      let '(kept, counters) := cleanup_loop now max_age rest n size in
      (f :: kept, counters).
Proof.
  cbn [cleanup_loop]. unfold expired_file.
  destruct (d_isfile f), (endswith (d_name f) dot_json), (max_age <? now - d_mtime f);
    reflexivity.
Qed.

(** What the loop leaves and counts, in closed form. *)
Lemma cleanup_loop_spec now max_age listing : forall n size,
  let deletable := expired_file now max_age in
  match cleanup_loop now max_age listing n size with
  | (kept, Some (n', size')) =>
      kept = List.filter (fun f => negb (deletable f)) listing
      /\ Forall (fun f => d_locked f = false) (List.filter deletable listing)
      /\ n' = n + Z.of_nat (length (List.filter deletable listing))
      /\ size' = size + foldr (fun f acc => d_size f + acc) 0 (List.filter deletable listing)
  | (kept, None) =>
      exists before f after,
        listing = before ++ f :: after
        /\ deletable f = true /\ d_locked f = true
        /\ Forall (fun f => d_locked f = false) (List.filter deletable before)
        /\ kept = List.filter (fun f => negb (deletable f)) before ++ f :: after
  end.
Proof.
  intros n size deletable. subst deletable. revert n size.
  induction listing as [|f rest IH]; intros n size.
  - simpl. repeat split; [constructor|lia|lia].
  - rewrite cleanup_loop_cons. cbn [List.filter].
    destruct (expired_file now max_age f) eqn:Hexp; cbn [negb].
    + destruct (d_locked f) eqn:Hlocked.
      { exists [], f, rest. repeat split; done. }
      specialize (IH (n + 1) (size + d_size f)).
      destruct (cleanup_loop now max_age rest (n + 1) (size + d_size f))
        as [kept [[n' size']|]].
      * destruct IH as (-> & Hl & -> & ->).
        split; [done|]. split; [by constructor|]. cbn [length foldr]. split; lia.
      * destruct IH as (before & f0 & after & -> & Hd & Hlock & Hl & ->).
        exists (f :: before), f0, after. cbn [List.filter app]. rewrite Hexp.
        cbn [negb]. repeat split; try done. by constructor.
    + specialize (IH n size).
      destruct (cleanup_loop now max_age rest n size) as [kept [[n' size']|]].
      * by destruct IH as (-> & Hl & -> & ->).
      * destruct IH as (before & f0 & after & -> & Hd & Hlock & Hl & ->).
        exists (f :: before), f0, after. cbn [List.filter app]. rewrite Hexp.
        done.
Qed.

Lemma filter_sublist {A} (f : A -> bool) (l : list A) : sublist (List.filter f l) l.
Proof.
  induction l as [|x l IH]; simpl; [constructor|].
  destruct (f x); by constructor.
Qed.

(** X15. Cleaning the cache spares the data: whatever the directory holds,
    [_cleanup_cache] creates and reorders nothing; it keeps every directory,
    every file whose name ends in .json, in particular the leaderboard file
    of every group, and every file modified within the last
    [cache_cleanup_hours] hours; and a directory that does not exist is left
    alone. *)
Theorem cleanup_spares_the_data
  (cache_cleanup_hours now : Z) (listing : list DirEntry) :
  _cleanup_cache cache_cleanup_hours now None = (None, LogNoDirectory)
  /\ exists kept,
       (_cleanup_cache cache_cleanup_hours now (Some listing)).1 = Some kept
       /\ sublist kept listing
       /\ (forall f, f ∈ listing ->
             removable cache_cleanup_hours now f = false -> f ∈ kept)
       /\ (forall f, f ∈ listing -> d_isfile f = false -> f ∈ kept)
       /\ (forall f g, f ∈ listing -> d_name f = stats_file_name g -> f ∈ kept)
       /\ (forall f, f ∈ listing ->
             now - d_mtime f <= cache_cleanup_hours * 3600 -> f ∈ kept).
Proof.
  split; [done|].
  unfold _cleanup_cache.
  pose proof (cleanup_loop_spec now (cache_cleanup_hours * 3600) listing 0 0) as Hspec.
  cbv zeta in Hspec.
  change (expired_file now (cache_cleanup_hours * 3600))
    with (removable cache_cleanup_hours now) in Hspec.
  assert (exists kept,
            (cleanup_loop now (cache_cleanup_hours * 3600) listing 0 0).1 = kept
            /\ sublist kept listing
            /\ (forall f, f ∈ listing ->
                  removable cache_cleanup_hours now f = false -> f ∈ kept))
    as (kept & Hkept & Hsub & Hspared).
  { destruct (cleanup_loop now (cache_cleanup_hours * 3600) listing 0 0)
      as [kept [[n' size']|]]; exists kept; (split; [done|]).
    - destruct Hspec as (-> & _). split; [apply filter_sublist|].
      intros f Hf Hrem. apply filter_elem_of. by rewrite Hrem.
    - destruct Hspec as (before & f0 & after & -> & _ & _ & _ & ->).
      split; [apply sublist_app; [apply filter_sublist|done]|].
      intros f Hf Hrem. apply elem_of_app in Hf as [Hf|Hf].
      + apply elem_of_app. left. apply filter_elem_of. by rewrite Hrem.
      + apply elem_of_app. by right. }
  exists kept. split.
  { destruct (cleanup_loop now (cache_cleanup_hours * 3600) listing 0 0)
      as [kept' [[n' size']|]]; simpl in *; by subst. }
  split; [done|]. split; [done|]. split; [|split].
  - intros f Hf Hdir. apply Hspared; [done|]. unfold removable, expired_file.
    by rewrite Hdir.
  - intros f g Hf Hname. apply Hspared; [done|]. unfold removable, expired_file.
    rewrite Hname, stats_file_is_json. by destruct (d_isfile f).
  - intros f Hf Hyoung. apply Hspared; [done|]. unfold removable, expired_file.
    destruct (Z.ltb_spec (cache_cleanup_hours * 3600) (now - d_mtime f)); [lia|].
    by rewrite andb_false_r.
Qed.

(** X16. What cleaning the cache removes: when no removal fails, exactly the
    regular files that do not end in .json and are older than
    [cache_cleanup_hours] hours are gone, the log counts them and adds up
    their sizes, and says that nothing had expired when there was none;
    when a removal fails, the log says so, and the file it failed on and
    everything listed after it are still there. *)
Theorem cleanup_removes_expired_files
  (cache_cleanup_hours now : Z) (listing : list DirEntry) :
  let gone := List.filter (removable cache_cleanup_hours now) listing in
  let result := _cleanup_cache cache_cleanup_hours now (Some listing) in
  (Forall (fun f => d_locked f = false) gone ->
   result.1 = Some (List.filter (fun f => negb (removable cache_cleanup_hours now f))
                                listing)
   /\ result.2 = match gone with
                 | [] => LogNothingExpired
                 | _ => LogCleaned (Z.of_nat (length gone))
                                   (foldr (fun f acc => d_size f + acc) 0 gone)
                 end)
  /\ (result.2 = LogFailed ->
      exists before f after kept,
        listing = before ++ f :: after
        /\ removable cache_cleanup_hours now f = true /\ d_locked f = true
        /\ result.1 = Some (kept ++ f :: after) /\ sublist kept before).
Proof.
  intros gone result. subst gone result. unfold _cleanup_cache.
  pose proof (cleanup_loop_spec now (cache_cleanup_hours * 3600) listing 0 0) as Hspec.
  cbv zeta in Hspec.
  change (expired_file now (cache_cleanup_hours * 3600))
    with (removable cache_cleanup_hours now) in Hspec.
  destruct (cleanup_loop now (cache_cleanup_hours * 3600) listing 0 0)
    as [kept [[n' size']|]]; cbn [fst snd].
  - destruct Hspec as (-> & Hl & -> & ->). split; [|by destruct (0 <? _)].
    intros _. split; [done|].
    destruct (List.filter (removable cache_cleanup_hours now) listing) as [|f l]; [done|].
    destruct (Z.ltb_spec 0 (0 + Z.of_nat (length (f :: l)))) as [_|Hle];
      [done | simpl in Hle; lia].
  - destruct Hspec as (before & f0 & after & -> & Hd & Hlock & Hl & ->). split.
    + intros Hall. exfalso.
      rewrite Forall_forall in Hall.
      assert (f0 ∈ List.filter (removable cache_cleanup_hours now) (before ++ f0 :: after))
        as Hin.
      { apply filter_elem_of. split; [|done]. apply elem_of_app. right. left. }
      rewrite (Hall _ Hin) in Hlock. discriminate.
    + intros _. exists before, f0, after. eexists.
      repeat split; try done. apply filter_sublist.
Qed.

Lemma demo_cache_is_cleaned :
  Forall (fun f => d_locked f = false)
         (List.filter (removable 48 200000) DemoCache.listing)
  /\ _cleanup_cache 48 200000 (Some DemoCache.listing)
     = (Some [DemoCache.leaderboard; DemoCache.folder; DemoCache.new_voice],
        LogCleaned 1 4000).
Proof.
  assert (Forall (fun f => d_locked f = false)
                 (List.filter (removable 48 200000) DemoCache.listing)) as H1
    by (vm_compute; repeat constructor).
  split; [exact H1|].
  destruct (proj1 (cleanup_removes_expired_files 48 200000 DemoCache.listing) H1)
    as [Hkept Hlog].
  apply injective_projections; [exact Hkept | exact Hlog].
Defined.

(** ** Hints and answers *)

Lemma lstrip_plain (s : pystr) :
  Forall (fun c => isspace c = false) s -> lstrip s = s.
Proof. destruct 1 as [|c s Hc _]; [done|]. simpl. by rewrite Hc. Qed.

Lemma strip_plain (s : pystr) :
  Forall (fun c => isspace c = false) s -> strip s = s.
Proof.
  intros Hs. unfold strip, rstrip. rewrite (lstrip_plain s Hs).
  rewrite lstrip_plain by (by apply Forall_rev). apply rev_involutive.
Qed.

Lemma plain_string_is_normal (s : pystr) :
  Forall (fun c => is_cjk c = true \/ c = star) s -> normalize ascii_lower s = s.
Proof.
  intros Hs. unfold normalize.
  rewrite strip_plain.
  2: { eapply Forall_impl; [exact Hs|]. intros c [Hc| ->]; [|done].
       by destruct (is_cjk_plain c Hc). }
  induction Hs as [|c s Hc Hs IH]; [done|].
  unfold ascii_lower, remove_spaces in *. simpl.
  destruct Hc as [Hc| ->].
  - destruct (is_cjk_plain c Hc) as (_ & Hsp & Hup). rewrite Hup, Hsp. simpl.
    by rewrite IH.
  - simpl. by rewrite IH.
Qed.

Lemma contains_same_length (sub s : pystr) :
  length sub = length s -> contains sub s = true -> sub = s.
Proof.
  intros Hlen H. apply contains_spec in H as (before & after & ->).
  rewrite !length_app in Hlen.
  destruct before; [|simpl in Hlen; lia]. destruct after; [|simpl in Hlen; lia].
  by rewrite app_nil_r.
Qed.

(** X17. Typing the hint back does not win: for a title made of Chinese
    characters, the hint of a level is accepted as an answer to the title
    exactly when the level has reached the length of the title, which is
    when the hint is the title itself. *)
Theorem masked_hint_is_no_answer (title : pystr) (level : Z) :
  title ≠ [] ->
  Forall (fun c => is_cjk c = true) title ->
  (_check_answer ascii_lower (_get_hint title level) title = true
   <-> Z.of_nat (length title) <= level)
  /\ (Z.of_nat (length title) <= level <-> _get_hint title level = title).
Proof.
  intros Hne Hcjk.
  pose proof (_get_hint_closed title level) as Hclosed. cbv zeta in Hclosed.
  set (revealed := Z.to_nat (Z.min level (Z.of_nat (length title)))) in *.
  assert (revealed <= length title)%nat as Hr by (unfold revealed; lia).
  assert (length (_get_hint title level) = length title) as Hlen.
  { rewrite Hclosed, length_app, length_take, length_replicate. lia. }
  assert (Z.of_nat (length title) <= level <-> _get_hint title level = title) as Hfull.
  { split.
    - intros Hlevel. rewrite Hclosed.
      replace revealed with (length title) by (unfold revealed; lia).
      by rewrite firstn_all, Nat.sub_diag, app_nil_r.
    - intros Heq.
      destruct (Z.le_gt_cases (Z.of_nat (length title)) level) as [|Hlt]; [done|].
      exfalso.
      assert (0 < length title)%nat as Hpos by (destruct title; [done|simpl; lia]).
      assert (revealed < length title)%nat as Hlt' by (unfold revealed; lia).
      assert (_get_hint title level !! revealed = Some star) as Hstar.
      { rewrite Hclosed, lookup_app_r by (rewrite length_take; lia).
        rewrite length_take. apply lookup_replicate_2. lia. }
      rewrite Heq in Hstar.
      rewrite Forall_forall in Hcjk.
      pose proof (Hcjk star (list_elem_of_lookup_2 _ _ _ Hstar)) as Hbad.
      vm_compute in Hbad. discriminate. }
  split; [|exact Hfull].
  assert (normalize ascii_lower title = title) as Htitle.
  { apply plain_string_is_normal. eapply Forall_impl; [exact Hcjk|]. by left. }
  assert (normalize ascii_lower (_get_hint title level) = _get_hint title level) as Hhint.
  { apply plain_string_is_normal. rewrite Hclosed. apply Forall_app. split.
    - apply Forall_take. eapply Forall_impl; [exact Hcjk|]. by left.
    - apply Forall_replicate. by right. }
  rewrite Hfull. unfold _check_answer. cbv zeta. rewrite Htitle, Hhint.
  case_bool_decide as Heq; [done|].
  destruct (contains title (_get_hint title level)) eqn:Hc1.
  { apply contains_same_length in Hc1; [|done]. by destruct Heq. }
  destruct (contains (_get_hint title level) title) eqn:Hc2.
  { apply contains_same_length in Hc2; [|done]. done. }
  rewrite andb_false_r. done.
Qed.

Lemma half_revealed_moon_is_no_answer :
  [26376; 20142]%N ≠ []
  /\ Forall (fun c => is_cjk c = true) [26376; 20142]%N
  /\ _check_answer ascii_lower (_get_hint [26376; 20142]%N 1) [26376; 20142]%N ≠ true.
Proof.
  assert ([26376; 20142]%N ≠ []) as H1 by discriminate.
  assert (Forall (fun c => is_cjk c = true) [26376; 20142]%N) as H2
    by (repeat constructor).
  split; [exact H1|]. split; [exact H2|].
  intros Hyes.
  apply (proj1 (proj1 (masked_hint_is_no_answer [26376; 20142]%N 1 H1 H2))) in Hyes.
  vm_compute in Hyes. by apply Hyes.
Defined.

(** ** A round that nobody answers *)




(** ** Ending a game on request *)

Lemma set_suspended_same st : set_suspended (suspended st) st = st.
Proof. by destruct st. Qed.

Lemma resume_last cfg o k st :
  resume cfg o (length (suspended st)) (set_suspended (suspended st ++ [k]) st)
  = match k with
    | ThenNextRound g => _next_round cfg o g st
    | ThenEndGame g => _end_game o g st
    end.
Proof.
  unfold resume. cbn [suspended set_suspended].
  rewrite lookup_app_r by lia. rewrite Nat.sub_diag. cbn [lookup list_lookup].
  assert (set_suspended (delete (length (suspended st)) (suspended st ++ [k]))
                        (set_suspended (suspended st ++ [k]) st) = st) as ->; [|done].
  rewrite delete_middle, app_nil_r. by destruct st.
Qed.

(** X19. Ending a game on request. For any user of the group, the quit
    command on a waiting or playing session only announces the answer of
    the round, if one is on, and goes to sleep; when the handler wakes up it
    is [_end_game] that runs, on the state as it was, so the session is
    gone. The forced end does the same for an administrator, with its own
    announcement, and is refused to anybody else without any change. *)
Theorem quit_settles_the_game
  (cfg : Config) (lower : pystr -> pystr) (o o' : Oracle)
  (g user_id nick : pystr) (st : State) (s : GameSession) :
  g ≠ [] -> sessions st !! g = Some s -> status s ≠ Ended ->
  let answer :=
    match status s, current_song s with
    | Playing, Some song => Some (song_name song, song_artist song)
    | _, _ => None
    end in
  let asleep := set_suspended (suspended st ++ [ThenEndGame g]) st in
  let wake := HandlerWakes (length (suspended st)) in
  step cfg lower o (EndGame g) st
  = (asleep, match answer with
             | Some (name, artist) => [MAnswerSettling name artist]
             | None => []
             end)
  /\ step cfg lower o (AdminEndGame g user_id nick) st
     = (if bool_decide (user_id ∈ admin_ids cfg)
        then (asleep, [MForceEnd nick answer]) else (st, [MAdminOnly]))
  /\ step cfg lower o' wake asleep = _end_game o' g st
  /\ sessions (step cfg lower o' wake asleep).1 !! g = None.
Proof.
  intros Hg Hs Hlive answer asleep wake.
  assert (step cfg lower o' wake asleep = _end_game o' g st) as Hwake.
  { subst wake asleep. cbn [step]. by rewrite resume_last. }
  split; [|split; [|split; [exact Hwake|]]].
  - cbn [step]. unfold cmd_end_game. rewrite bool_decide_eq_false_2 by done.
    rewrite Hs. subst answer asleep.
    destruct (status s) eqn:Hstatus; [done| |done].
    by destruct (current_song s).
  - cbn [step]. unfold cmd_admin_end_game. rewrite bool_decide_eq_false_2 by done.
    destruct (decide (user_id ∈ admin_ids cfg)) as [Hadmin|Hnot].
    + rewrite bool_decide_eq_false_2 by (intros Hn; by apply Hn).
      rewrite bool_decide_eq_true_2 by done. rewrite Hs. subst answer asleep.
      by destruct (status s) eqn:Hstatus.
    + rewrite bool_decide_eq_true_2 by done. by rewrite bool_decide_eq_false_2.
  - rewrite Hwake. destruct (_end_game_frame o' g st) as (-> & _).
    apply lookup_delete_eq.
Qed.

Lemma bob_quits_round_one :
  Demo.group ≠ []
  /\ sessions Demo.round1 !! Demo.group = Some DemoSessions.round1_session
  /\ status DemoSessions.round1_session ≠ Ended
  /\ (step Demo.cfg ascii_lower Demo.oracle (EndGame Demo.group) Demo.round1).2
     = [MAnswerSettling [26376; 20142]%N [65%N]]
  /\ sessions
       (step Demo.cfg ascii_lower Demo.oracle
             (HandlerWakes (length (suspended Demo.round1)))
             (set_suspended (suspended Demo.round1 ++ [ThenEndGame Demo.group])
                            Demo.round1)).1 !! Demo.group = None.
Proof.
  assert (Demo.group ≠ []) as H1 by discriminate.
  assert (sessions Demo.round1 !! Demo.group = Some DemoSessions.round1_session) as H2
    by (vm_compute; reflexivity).
  assert (status DemoSessions.round1_session ≠ Ended) as H3 by (vm_compute; discriminate).
  destruct (quit_settles_the_game Demo.cfg ascii_lower Demo.oracle Demo.oracle
              Demo.group Demo.bob [66%N] Demo.round1 DemoSessions.round1_session
              H1 H2 H3) as (Hquit & _ & _ & Hgone).
  do 3 (split; [assumption|]). split; [|exact Hgone].
  rewrite Hquit. vm_compute. reflexivity.
Defined.

(** ** The leaderboard command *)

Lemma insert_ranked_Permutation x l : insert_ranked x l ≡ₚ x :: l.
Proof.
  induction l as [|y l IH]; simpl; [done|].
  destruct (rank_score y <=? rank_score x); [done|].
  rewrite IH. apply Permutation_swap.
Qed.

Lemma sorted_users_Permutation l : sorted_users_of l ≡ₚ l.
Proof.
  induction l as [|x l IH]; simpl; [done|].
  by rewrite insert_ranked_Permutation, IH.
Qed.

Lemma insert_ranked_sorted x l :
  StronglySorted (fun a b => rank_score b <= rank_score a) l ->
  StronglySorted (fun a b => rank_score b <= rank_score a) (insert_ranked x l).
Proof.
  induction 1 as [|y l Hl IH Hy]; simpl.
  - repeat constructor.
  - destruct (Z.leb_spec (rank_score y) (rank_score x)) as [Hle|Hgt].
    + constructor; [by constructor|].
      constructor; [done|].
      eapply Forall_impl; [exact Hy|]. intros z Hz. simpl in *. lia.
    + constructor; [done|].
      rewrite insert_ranked_Permutation. constructor; [|done]. lia.
Qed.

Lemma sorted_users_sorted l :
  StronglySorted (fun a b => rank_score b <= rank_score a) (sorted_users_of l).
Proof.
  induction l as [|x l IH]; simpl; [constructor|]. by apply insert_ranked_sorted.
Qed.

Lemma insert_ranked_stable v x l :
  List.filter (fun y => rank_score y =? v) (insert_ranked x l)
  = List.filter (fun y => rank_score y =? v) (x :: l).
Proof.
  induction l as [|y l IH]; [done|].
  cbn [insert_ranked].
  destruct (Z.leb_spec (rank_score y) (rank_score x)) as [Hle|Hgt]; [done|].
  cbn [List.filter] in *. rewrite IH.
  destruct (Z.eqb_spec (rank_score x) v), (Z.eqb_spec (rank_score y) v); try done; lia.
Qed.

Lemma sorted_users_stable v l :
  List.filter (fun y => rank_score y =? v) (sorted_users_of l)
  = List.filter (fun y => rank_score y =? v) l.
Proof.
  induction l as [|x l IH]; [done|].
  cbn [sorted_users_of foldr]. rewrite insert_ranked_stable.
  cbn [List.filter]. fold (sorted_users_of l). by rewrite IH.
Qed.

Lemma sorted_app_inv {A} (R : A -> A -> Prop) (l1 l2 : list A) :
  StronglySorted R (l1 ++ l2) ->
  StronglySorted R l1 /\ forall x1 x2, x1 ∈ l1 -> x2 ∈ l2 -> R x1 x2.
Proof.
  induction l1 as [|a l1 IH]; simpl; intros Hs.
  - split; [constructor|]. intros x1 x2 Hx1. by apply elem_of_nil in Hx1.
  - apply StronglySorted_inv in Hs as [Hs Ha]. destruct (IH Hs) as [Hl1 Hcross].
    apply Forall_app in Ha as [Ha1 Ha2]. split; [by constructor|].
    intros x1 x2 Hx1 Hx2. apply elem_of_cons in Hx1 as [->|Hx1].
    + rewrite Forall_forall in Ha2. by apply Ha2.
    + by apply Hcross.
Qed.

(** X20. The leaderboard command. Outside a group it only says so, and an
    empty leaderboard gives the no-data notice. Otherwise the board has one
    line for each of the ten best users, or for all if there are fewer:
    the users are split into those shown and those left out, the shown ones
    in descending order of score, ranked 1, 2, 3 and so on, users of equal
    score in the order of the file; nobody left out has more points than
    somebody shown; and a missing nickname, score or count is shown as
    "用户" with the last four characters of the id, 0 and 0. *)
Theorem ranking_shows_the_ten_best (g : pystr) (users : list (pystr * RankEntry)) :
  cmd_ranking [] users = RankingGroupOnly
  /\ (g ≠ [] -> cmd_ranking g [] = RankingNoData)
  /\ (g ≠ [] -> users ≠ [] ->
      exists shown hidden,
        cmd_ranking g users = RankingBoard (imap rank_line shown)
        /\ shown ++ hidden ≡ₚ users
        /\ length shown = Nat.min 10 (length users)
        /\ StronglySorted (fun a b => rank_score b <= rank_score a) shown
        /\ (forall h x, h ∈ hidden -> x ∈ shown -> rank_score h <= rank_score x)
        /\ (forall v, List.filter (fun y => rank_score y =? v) (shown ++ hidden)
                      = List.filter (fun y => rank_score y =? v) users)
        /\ (forall i uid data,
              shown !! i = Some (uid, data) ->
              imap rank_line shown !! i
              = Some (mkRankLine (Z.of_nat i + 1)
                                 (default (user_prefix ++ last_four uid) (r_nickname data))
                                 (default 0 (r_score data))
                                 (default 0 (r_wins data))))).
Proof.
  split; [done|]. split.
  { intros Hg. unfold cmd_ranking. by rewrite bool_decide_eq_false_2. }
  intros Hg Husers.
  exists (take 10 (sorted_users_of users)), (drop 10 (sorted_users_of users)).
  pose proof (sorted_users_sorted users) as Hsorted.
  split; [|split; [|split; [|split; [|split; [|split]]]]].
  - unfold cmd_ranking. rewrite bool_decide_eq_false_2 by done.
    by destruct users.
  - rewrite take_drop. apply sorted_users_Permutation.
  - rewrite length_take. by rewrite (Permutation_length (sorted_users_Permutation users)).
  - rewrite <- (take_drop 10 (sorted_users_of users)) in Hsorted.
    by apply sorted_app_inv in Hsorted as [? _].
  - intros h x Hh Hx.
    rewrite <- (take_drop 10 (sorted_users_of users)) in Hsorted.
    apply sorted_app_inv in Hsorted as [_ Hcross]. by apply (Hcross x h).
  - intros v. rewrite take_drop. apply sorted_users_stable.
  - intros i uid data Hi. rewrite list_lookup_imap, Hi. done.
Qed.

Lemma demo_board_has_ten_lines :
  DemoBoard.users ≠ []
  /\ exists shown hidden : list (pystr * RankEntry),
       cmd_ranking Demo.group DemoBoard.users = RankingBoard (imap rank_line shown)
       /\ length shown = 10%nat
       /\ length hidden = 2%nat.
Proof.
  assert (Demo.group ≠ []) as H1 by discriminate.
  assert (DemoBoard.users ≠ []) as H2 by discriminate.
  destruct (proj2 (proj2 (ranking_shows_the_ten_best Demo.group DemoBoard.users)) H1 H2)
    as (shown & hidden & Hboard & Hperm & Hlen & _).
  split; [exact H2|]. exists shown, hidden. split; [exact Hboard|].
  split; [exact Hlen|].
  apply Permutation_length in Hperm. rewrite length_app, Hlen in Hperm.
  simpl in Hperm. injection Hperm as Hperm. lia.
Defined.

(** ** Loading the playlists *)

Lemma playlist_get_set (d : list (pystr * list Song)) k k' v :
  Dict.get k' (Dict.set k v d) = if decide (k' = k) then Some v else Dict.get k' d.
Proof.
  induction d as [|[k0 v0] d IH]; simpl.
  - by destruct (decide (k' = k)).
  - destruct (decide (k = k0)) as [->|Hne]; simpl.
    + by destruct (decide (k' = k0)).
    + rewrite IH. destruct (decide (k' = k0)) as [->|]; [|done].
      by rewrite decide_False by done.
Qed.

Lemma playlist_set_songs (d : list (pystr * list Song)) k v :
  v ≠ [] -> concat (map snd (Dict.set k v d)) ≠ [].
Proof.
  intros Hv. induction d as [|[k0 v0] d IH]; simpl.
  - rewrite app_nil_r. done.
  - destruct (decide (k = k0)); simpl.
    + destruct v; [done|]. done.
    + destruct v0; [done|]. done.
Qed.

(** X21. Loading the playlists keeps what it cannot refresh: a playlist whose
    fetch brings songs is replaced by them, one whose fetch brings nothing
    keeps the songs it had, no other entry of the cache changes, and a cache
    that had songs still has some; sessions, tasks, leaderboards and play
    records are untouched. *)
Theorem preload_keeps_what_it_cannot_refresh (o : Oracle) (st : State) :
  let st' := _preload_playlists o st in
  (forall name playlist_id,
     (name, playlist_id) ∈ PLAYLISTS ->
     Dict.get name (playlist_cache st')
     = match fetch o playlist_id with
       | [] => Dict.get name (playlist_cache st)
       | songs => Some songs
       end)
  /\ (forall name,
        name ∉ map fst PLAYLISTS ->
        Dict.get name (playlist_cache st') = Dict.get name (playlist_cache st))
  /\ (all_cached st ≠ [] -> all_cached st' ≠ [])
  /\ same_game st st'
  /\ played_songs st' = played_songs st.
Proof.
  intros st'. subst st'. unfold _preload_playlists, PLAYLISTS.
  cbn [foldl map fst].
  split; [|split; [|split; [|split]]].
  - intros name playlist_id Hin.
    apply elem_of_cons in Hin as [[= -> ->]|Hin];
      [|apply elem_of_cons in Hin as [[= -> ->]|Hin]; [|by apply elem_of_nil in Hin]].
    + destruct (fetch o 3778678) as [|a l], (fetch o 19723756) as [|b m];
        cbn [playlist_cache set_playlist_cache]; rewrite ?playlist_get_set;
        repeat case_decide; done.
    + destruct (fetch o 3778678) as [|a l], (fetch o 19723756) as [|b m];
        cbn [playlist_cache set_playlist_cache]; rewrite ?playlist_get_set;
        repeat case_decide; done.
  - intros name Hname.
    apply not_elem_of_cons in Hname as [Hn1 Hname].
    apply not_elem_of_cons in Hname as [Hn2 _].
    destruct (fetch o 3778678) as [|a l], (fetch o 19723756) as [|b m];
      cbn [playlist_cache set_playlist_cache]; rewrite ?playlist_get_set;
      repeat case_decide; done.
  - intros Hsongs. unfold all_cached in *.
    destruct (fetch o 3778678) as [|a l], (fetch o 19723756) as [|b m];
      cbn [playlist_cache set_playlist_cache]; try done;
      by apply playlist_set_songs.
  - destruct (fetch o 3778678), (fetch o 19723756); done.
  - destruct (fetch o 3778678), (fetch o 19723756); done.
Qed.

(** ** Creating a game *)

(** X22. Creating a game. In a group, after the create command the group
    has a game that is not over; a game that was waiting or playing is left
    exactly as it was, with its roster, and only reported; otherwise a game
    is created that has the sender as its creator and only participant, at
    score 0, is waiting, in round 0, without song or timer; the tasks and
    the leaderboards are untouched; and asking again, whoever asks, changes
    nothing. *)
Theorem create_opens_one_game (g user_id nick origin : pystr) (st : State) :
  g ≠ [] ->
  let r := cmd_create_game g user_id nick origin st in
  let fresh :=
    mkSession g Waiting [(user_id, mkParticipant nick 0)] None 0 0 0 None
              origin user_id false in
  (exists s, sessions r.1 !! g = Some s /\ status s ≠ Ended)
  /\ (forall s, sessions st !! g = Some s -> status s ≠ Ended ->
        r = (st, [match status s with
                  | Waiting => MWaitingInfo (Z.of_nat (length (participants s)))
                  | _ => MPlayingInfo (round_num s)
                  end]))
  /\ ((forall s, sessions st !! g = Some s -> status s = Ended) ->
      r = (set_sessions (<[g := fresh]> (sessions st)) st, [MCreated nick]))
  /\ timers r.1 = timers st /\ stats_files r.1 = stats_files st
  /\ (forall user_id' nick' origin',
        (cmd_create_game g user_id' nick' origin' r.1).1 = r.1).
Proof.
  intros Hg r fresh. subst r. unfold cmd_create_game.
  rewrite !bool_decide_eq_false_2 by done. cbv zeta.
  destruct (sessions st !! g) as [s|] eqn:Hs.
  - destruct (status s) eqn:Hstatus; cbn [fst snd].
    + split; [exists s; by rewrite Hstatus|].
      split; [intros s0 [= <-] _; by rewrite Hstatus|].
      split; [intros Hall; specialize (Hall s eq_refl); congruence|].
      split; [done|]. split; [done|].
      intros u' n' o'. by rewrite Hs, Hstatus.
    + split; [exists s; by rewrite Hstatus|].
      split; [intros s0 [= <-] _; by rewrite Hstatus|].
      split; [intros Hall; specialize (Hall s eq_refl); congruence|].
      split; [done|]. split; [done|].
      intros u' n' o'. by rewrite Hs, Hstatus.
    + cbn [sessions set_sessions]. rewrite lookup_insert_eq.
      split; [by exists fresh|]. split; [intros s0 [= <-]; congruence|].
      split; [done|]. split; [done|]. split; [done|].
      intros u' n' o'. done.
  - cbn [fst snd sessions set_sessions]. rewrite lookup_insert_eq.
    split; [by exists fresh|]. split; [done|].
    split; [done|]. split; [done|]. split; [done|].
    intros u' n' o'. done.
Qed.

Lemma alice_creates_then_bob_asks :
  Demo.group ≠ []
  /\ (cmd_create_game Demo.group Demo.alice [65%N] [] Demo.st0).2 = [MCreated [65%N]]
  /\ (cmd_create_game Demo.group Demo.bob [66%N] []
        (cmd_create_game Demo.group Demo.alice [65%N] [] Demo.st0).1).1
     = (cmd_create_game Demo.group Demo.alice [65%N] [] Demo.st0).1.
Proof.
  assert (Demo.group ≠ []) as H1 by discriminate.
  assert (forall s, sessions Demo.st0 !! Demo.group = Some s -> status s = Ended) as H2
    by (intros s Hs; vm_compute in Hs; discriminate).
  destruct (create_opens_one_game Demo.group Demo.alice [65%N] [] Demo.st0 H1)
    as (_ & _ & Hcreated & _ & _ & Hagain).
  split; [exact H1|]. split.
  - by rewrite (Hcreated H2).
  - exact (Hagain Demo.bob [66%N] []).
Defined.

(** ** Revealing the answer *)



(** ** The songs in play *)

Lemma fetched_playable result song : song ∈ _fetch_playlist result -> playable song.
Proof.
  unfold _fetch_playlist. destruct result as [[code tracks]|].
  2: { intros H. by apply elem_of_nil in H. }
  case_bool_decide as Hcode; [intros H; by apply elem_of_nil in H|].
  rewrite scan_tracks_spec by (simpl; lia). simpl.
  intros Hin. apply elem_of_take in Hin as (i & Hi & _).
  apply list_elem_of_lookup_2, list_elem_of_omap in Hi as (track & Htrack & Hsong).
  unfold song_of_track in Hsong. cbv zeta in Hsong.
  destruct (negb _) eqn:Hfee in Hsong; [done|].
  destruct (negb (_is_valid_song_name _)) eqn:Hname in Hsong; [done|].
  destruct (_ || _) in Hsong; [done|]. injection Hsong as <-.
  apply negb_false_iff in Hname. split; [done|]. simpl. by case_bool_decide.
Qed.

Lemma fetched_length result : (length (_fetch_playlist result) <= 100)%nat.
Proof.
  unfold _fetch_playlist. destruct result as [[code tracks]|]; [|simpl; lia].
  case_bool_decide; [simpl; lia|].
  rewrite scan_tracks_spec by (simpl; lia). rewrite length_take. lia.
Qed.

Lemma playlist_set_Forall (P : pystr * list Song -> Prop)
  (d : list (pystr * list Song)) k v :
  (forall k', P (k', v)) -> Forall P d -> Forall P (Dict.set k v d).
Proof.
  intros Hv. induction 1 as [|[k' v'] d Hx Hd IH]; simpl.
  - by constructor.
  - destruct (decide (k = k')); constructor; done.
Qed.

Lemma cache_playable_preload o st :
  from_catalogue o ->
  Forall (fun entry : pystr * list Song =>
            (length entry.2 <= 100)%nat /\ Forall playable entry.2)
         (playlist_cache st) ->
  Forall (fun entry : pystr * list Song =>
            (length entry.2 <= 100)%nat /\ Forall playable entry.2)
         (playlist_cache (_preload_playlists o st)).
Proof.
  intros Ho Hcache. unfold _preload_playlists, PLAYLISTS. cbn [foldl].
  assert (forall playlist_id k',
            (fun entry : pystr * list Song =>
               (length entry.2 <= 100)%nat /\ Forall playable entry.2)
              (k', fetch o playlist_id)) as Hfetch.
  { intros playlist_id k'. destruct (Ho playlist_id) as [result ->]. simpl.
    split; [apply fetched_length|].
    apply Forall_forall. intros song Hsong. by eapply fetched_playable. }
  pose proof (Hfetch 3778678) as H1. pose proof (Hfetch 19723756) as H2.
  destruct (fetch o 3778678) as [|a l], (fetch o 19723756) as [|b m];
    cbn [playlist_cache set_playlist_cache]; try done;
    repeat (apply playlist_set_Forall; [done|]); done.
Qed.

Lemma all_cached_playable st :
  Forall (fun entry : pystr * list Song =>
            (length entry.2 <= 100)%nat /\ Forall playable entry.2)
         (playlist_cache st) ->
  Forall playable (all_cached st).
Proof.
  unfold all_cached. induction 1 as [|[k v] d [_ Hv] Hd IH]; simpl; [constructor|].
  apply Forall_app. by split.
Qed.

Lemma songs_playable_draw o g st :
  from_catalogue o ->
  Forall (fun entry : pystr * list Song =>
            (length entry.2 <= 100)%nat /\ Forall playable entry.2)
         (playlist_cache st) ->
  Forall (fun entry : pystr * list Song =>
            (length entry.2 <= 100)%nat /\ Forall playable entry.2)
         (playlist_cache (_get_random_song o g st).2)
  /\ forall song, (_get_random_song o g st).1 = Some song -> playable song.
Proof.
  intros Ho Hcache.
  pose proof (_get_random_song_draws o g st) as Hdraw. cbv zeta in Hdraw.
  set (st1 := match all_cached st with [] => _preload_playlists o st | _ => st end) in *.
  assert (Forall (fun entry : pystr * list Song =>
                    (length entry.2 <= 100)%nat /\ Forall playable entry.2)
                 (playlist_cache st1)) as Hcache1.
  { subst st1. destruct (all_cached st); [by apply cache_playable_preload|done]. }
  destruct Hdraw as [[_ ->]|(_ & song & Hin & ->)]; cbn [fst snd].
  - by split.
  - split; [by case_bool_decide|].
    intros song' [= <-].
    pose proof (all_cached_playable st1 Hcache1) as Hall.
    rewrite Forall_forall in Hall. apply Hall.
    destruct (if bool_decide (g = []) then None else played_songs st1 !! g)
      as [played|]; [|done].
    simpl in Hin.
    destruct (List.filter _ (all_cached st1)) eqn:Hf; [done|].
    rewrite <- Hf in Hin. by apply filter_elem_of in Hin as [? _].
Qed.

Lemma songs_playable_frame st st' :
  sessions st' = sessions st -> playlist_cache st' = playlist_cache st ->
  songs_playable st -> songs_playable st'.
Proof. intros Hs Hc [H1 H2]. split; [by rewrite Hc|]. intros g s. rewrite Hs. apply H2. Qed.

Lemma songs_playable_delete st st' g0 :
  sessions st' = delete g0 (sessions st) -> playlist_cache st' = playlist_cache st ->
  songs_playable st -> songs_playable st'.
Proof.
  intros Hs Hc [H1 H2]. split; [by rewrite Hc|].
  intros g s. rewrite Hs, lookup_delete. case_decide; [done|]. apply H2.
Qed.

Lemma songs_playable_put st st' g0 s0 :
  sessions st' = <[g0 := s0]> (sessions st) -> playlist_cache st' = playlist_cache st ->
  (forall song, current_song s0 = Some song -> playable song) ->
  songs_playable st -> songs_playable st'.
Proof.
  intros Hs Hc Hsong [H1 H2]. split; [by rewrite Hc|].
  intros g s. rewrite Hs, lookup_insert. case_decide as Heq.
  - intros song [= <-]. apply Hsong.
  - apply H2.
Qed.

Lemma songs_playable_end_game o g st :
  songs_playable st -> songs_playable (_end_game o g st).1.
Proof.
  destruct (_end_game_frame o g st) as (Hd & _ & Hc & _). by eapply songs_playable_delete.
Qed.

Lemma songs_playable_next_round cfg o g st :
  from_catalogue o -> songs_playable st -> songs_playable (_next_round cfg o g st).1.
Proof.
  intros Ho Hok. unfold _next_round.
  destruct (sessions st !! g) as [session|] eqn:Hs; [|done].
  destruct (max_rounds cfg <? round_num session + 1); [by apply songs_playable_end_game|].
  destruct Hok as [Hcache Hsessions].
  pose proof (_get_random_song_same_game o g st) as (Hse & _).
  destruct (songs_playable_draw o g st Ho Hcache) as [Hcache1 Hsong].
  destruct (_get_random_song o g st) as [[song|] st1]; simpl in Hse, Hcache1, Hsong.
  - unfold begin_round, create_task. cbn [fst].
    eapply (songs_playable_put st1); [| | |split; [done|by rewrite Hse]].
    + cbn [sessions set_sessions set_timers].
      match goal with
      | |- context [cancel_timeout ?x st1] =>
          by destruct (cancel_timeout_frame x st1) as (-> & _)
      end.
    + cbn [playlist_cache set_sessions set_timers].
      match goal with
      | |- context [cancel_timeout ?x st1] =>
          by destruct (cancel_timeout_frame x st1) as (_ & _ & _ & _ & ->)
      end.
    + simpl. intros song' [= <-]. by apply Hsong.
  - assert (songs_playable st1) as Hok1 by (split; [done|by rewrite Hse]).
    pose proof (songs_playable_end_game o g st1 Hok1) as Hend.
    by destruct (_end_game o g st1).
Qed.

Lemma songs_playable_start_game cfg o g st :
  from_catalogue o -> songs_playable st -> songs_playable (_start_game cfg o g st).1.
Proof.
  intros Ho Hok. unfold _start_game, _get_session.
  destruct (sessions st !! g) as [session|] eqn:Hs; simpl.
  - match goal with
    | |- context [_next_round cfg o g ?x] =>
        assert (songs_playable x) as Hx;
        [|pose proof (songs_playable_next_round cfg o g x Ho Hx) as Hn;
          by destruct (_next_round cfg o g x)]
    end.
    eapply songs_playable_put; [done|done| |exact Hok].
    simpl. intros song Hsong. by apply (proj2 Hok g session).
  - match goal with
    | |- context [_next_round cfg o g ?x] =>
        assert (songs_playable x) as Hx;
        [|pose proof (songs_playable_next_round cfg o g x Ho Hx) as Hn;
          by destruct (_next_round cfg o g x)]
    end.
    eapply songs_playable_put; [simpl; by rewrite insert_insert_eq|done| |exact Hok].
    simpl. done.
Qed.

Lemma songs_playable_step cfg lower o e st :
  from_catalogue o -> songs_playable st -> songs_playable (step cfg lower o e st).1.
Proof.
  intros Ho Hok.
  destruct e as [g u nick origin|g u nick|g|g u|g|g u nick|g u nick text|tid|i|];
    simpl.
  - unfold cmd_create_game. repeat case_match; simplify_eq; simpl; try done;
      (eapply songs_playable_put; [done|done| |done]; simpl; done).
  - unfold cmd_start_game.
    pose proof (songs_playable_start_game cfg o g st Ho Hok) as Hstart.
    repeat case_match; simplify_eq; simpl; done.
  - unfold cmd_hint.
    destruct (bool_decide (g = [])); [done|].
    destruct (sessions st !! g) as [s|] eqn:Hs; [|done].
    destruct (bool_decide (status s ≠ Playing)); [done|].
    assert (songs_playable (set_sessions
              (<[g := set_hint_level (hint_level s + 1) s]> (sessions st)) st)) as Hf'.
    { eapply songs_playable_put; [done|done| |done].
      simpl. intros song Hsong. by apply (proj2 Hok g s). }
    cbn [current_song set_hint_level]. by destruct (current_song s).
  - unfold cmd_answer. repeat case_match; simplify_eq; simpl; try done;
      (eapply songs_playable_frame; [| |exact Hok]); simpl;
      match goal with
      | |- context [cancel_timeout ?x st] =>
          destruct (cancel_timeout_frame x st) as (Hse & _ & _ & _ & Hca);
          by rewrite ?Hse, ?Hca
      end.
  - unfold cmd_end_game. repeat case_match; simplify_eq; done.
  - unfold cmd_admin_end_game. repeat case_match; simplify_eq; done.
  - unfold on_message.
    destruct (bool_decide (strip text = [])); [done|].
    destruct (bool_decide (g = [])); [done|].
    destruct (sessions st !! g) as [s|] eqn:Hs; [|done].
    cbv zeta.
    destruct (contains join_signal (strip text) && _).
    { destruct (Dict.get u (participants s)) eqn:Hu; [done|].
      destruct (max_players cfg <=? _) eqn:Hroom; [done|].
      cbn [fst]. eapply songs_playable_put; [done|done| |done].
      simpl. intros song Hsong. by apply (proj2 Hok g s). }
    case_bool_decide as Hplaying; [|done].
    destruct (current_song s) as [song|] eqn:Hsong; [|done].
    destruct (bool_decide (song_name song = [])); [done|].
    destruct (_ || _); [done|].
    destruct (_check_answer lower _ _); [|done].
    destruct (round_answered s) eqn:Hopen; [done|].
    destruct (Dict.get u (participants s)) as [player|] eqn:Hu; [|done].
    cbn [fst]. eapply songs_playable_put; [| | |exact Hok].
    + cbn [sessions set_suspended set_sessions]. f_equal.
      by destruct (cancel_timeout_frame (set_round_answered true s) st) as (-> & _).
    + cbn [playlist_cache set_suspended set_sessions].
      by destruct (cancel_timeout_frame (set_round_answered true s) st)
        as (_ & _ & _ & _ & ->).
    + simpl. intros song' Hsong'. by apply (proj2 Hok g s song').
  - unfold _round_timeout.
    destruct (timers st !! tid) as [t|]; [|done].
    pose proof (songs_playable_next_round cfg o (tk_group t) st Ho Hok) as Hn.
    destruct (_next_round cfg o (tk_group t) st).
    repeat case_match; simplify_eq; simpl; done.
  - unfold resume. destruct (suspended st !! i) as [[g|g]|]; [| |done].
    + by apply (songs_playable_next_round cfg o g (set_suspended _ st)).
    + by apply (songs_playable_end_game o g (set_suspended _ st)).
  - eapply songs_playable_frame; [| |exact Hok].
    + by destruct (terminate_weakens st) as (-> & _).
    + unfold terminate.
      apply (map_fold_weak_ind
               (fun r (_ : gmap pystr GameSession) =>
                  playlist_cache r = playlist_cache st)); [done|].
      intros g session m r _ <-.
      by destruct (cancel_timeout_frame session r) as (_ & _ & _ & _ & ->).
Qed.

(** X24. Every round plays a song of the catalogue filter. As long as each
    fetch answers the way [_fetch_playlist] does, a run of the event loop
    that starts with acceptable songs keeps them acceptable: every cached
    playlist has at most a hundred songs, and every song in the cache or in
    a session has a title that is, once stripped, two to seven Chinese
    characters, and an artist that is not empty. So the title of a round
    never normalises to the empty string, and is not changed by the
    normalisation beyond the stripping. *)
Theorem every_round_plays_a_catalogue_song
  (cfg : Config) (lower : pystr -> pystr) (es : list (Oracle * Event)) (st : State) :
  Forall (fun oe : Oracle * Event => from_catalogue oe.1) es ->
  songs_playable st ->
  let st' := (run cfg lower es st).1 in
  songs_playable st'
  /\ forall g s song,
       sessions st' !! g = Some s -> current_song s = Some song ->
       normalize ascii_lower (song_name song) = strip (song_name song)
       /\ (2 <= length (normalize ascii_lower (song_name song)) <= 7)%nat
       /\ song_artist song ≠ [].
Proof.
  intros Hes Hok st'.
  assert (songs_playable st') as Hok'.
  { subst st'. revert st Hok. induction Hes as [|[o e] es Ho Hes IH]; intros st Hok; [done|].
    simpl. pose proof (songs_playable_step cfg lower o e st Ho Hok) as H1.
    destruct (step cfg lower o e st) as [st1 out1]. simpl in H1.
    pose proof (IH st1 H1) as H2. by destruct (run cfg lower es st1). }
  split; [exact Hok'|].
  intros g s song Hs Hsong. destruct (proj2 Hok' g s song Hs Hsong) as [Hvalid Hartist].
  apply valid_song_name_spec in Hvalid as [Hcjk Hlen].
  unfold normalize. rewrite cjk_string_is_normal by done. done.
Qed.

Lemma demo_round_one_plays_a_catalogue_song :
  Forall (fun oe : Oracle * Event => from_catalogue oe.1)
         [(Demo.oracle, StartGame Demo.group Demo.alice [65%N])]
  /\ songs_playable Demo.lobby
  /\ songs_playable
       (run Demo.cfg ascii_lower
            [(Demo.oracle, StartGame Demo.group Demo.alice [65%N])] Demo.lobby).1.
Proof.
  assert (Forall (fun oe : Oracle * Event => from_catalogue oe.1)
                 [(Demo.oracle, StartGame Demo.group Demo.alice [65%N])]) as H1.
  { constructor; [|constructor]. intros playlist_id. by exists None. }
  assert (songs_playable Demo.lobby) as H2.
  { split.
    - vm_compute playlist_cache. repeat constructor; vm_compute; (lia || discriminate).
    - intros g s song Hs Hsong.
      destruct (decide (g = Demo.group)) as [->|Hne].
      + assert (sessions Demo.lobby !! Demo.group = Some Demo.lobby_session) as Hl
          by (vm_compute; reflexivity).
        rewrite Hl in Hs. injection Hs as <-. vm_compute in Hsong. discriminate.
      + assert (sessions Demo.lobby = {[ Demo.group := Demo.lobby_session ]}) as Hl
          by (vm_compute; reflexivity).
        rewrite Hl, lookup_singleton_ne in Hs by done. discriminate. }
  split; [exact H1|]. split; [exact H2|].
  exact (proj1 (every_round_plays_a_catalogue_song Demo.cfg ascii_lower _ Demo.lobby H1 H2)).
Defined.

(** ** Artists *)

Lemma str_join_Forall (P : N -> Prop) sep parts :
  Forall P sep -> Forall (Forall P) parts -> Forall P (str_join sep parts).
Proof.
  intros Hsep. induction 1 as [|p rest Hp Hrest IH]; [constructor|].
  cbn [str_join]. destruct rest as [|q rest]; [done|].
  apply Forall_app. split; [done|]. apply Forall_app. by split.
Qed.

Lemma str_join_nil sep parts :
  Forall (fun p => p ≠ []) parts -> parts ≠ [] -> str_join sep parts ≠ [].
Proof.
  destruct 1 as [|p rest Hp _]; [done|]. intros _. cbn [str_join].
  destruct rest; [done|]. destruct p; [done|]. done.
Qed.

Lemma lstrip_idem (s : pystr) : lstrip (lstrip s) = lstrip s.
Proof.
  destruct (lstrip_spec s) as (_ & _ & _ & Hfirst).
  destruct (lstrip s) as [|c r]; [done|]. simpl. by rewrite (Hfirst c r).
Qed.

Lemma rstrip_prefix (s : pystr) : exists dropped, s = rstrip s ++ dropped.
Proof.
  unfold rstrip. destruct (lstrip_spec (rev s)) as (dropped & Heq & _).
  exists (rev dropped). apply (f_equal (@rev N)) in Heq.
  by rewrite rev_involutive, rev_app_distr in Heq.
Qed.

Lemma strip_idem (s : pystr) : strip (strip s) = strip s.
Proof.
  unfold strip.
  assert (lstrip (rstrip (lstrip s)) = rstrip (lstrip s)) as ->.
  { destruct (rstrip_prefix (lstrip s)) as [dropped Heq].
    destruct (lstrip_spec s) as (_ & _ & _ & Hfirst).
    destruct (rstrip (lstrip s)) as [|c r]; [done|].
    simpl. by rewrite (Hfirst c (r ++ dropped)). }
  unfold rstrip. by rewrite rev_involutive, lstrip_idem.
Qed.

(** X25. The artist of a fetched song is made of the track's artist names:
    the names that are not blank, each stripped and made of Chinese
    characters only, joined by the ideographic comma in the order of the
    track; a track with a name that is not Chinese gives no song, and so
    does a track without any name, so that the stand-in for a missing
    artist is never used. *)
Theorem artist_joins_chinese_names (track : Track) (song : Song) :
  song_of_track track = Some song ->
  let names :=
    List.filter (fun n => negb (bool_decide (n = [])))
                (map (fun a => strip (default [] a)) (track_artists track)) in
  song_artist song = str_join artist_separator names
  /\ names ≠ []
  /\ Forall (fun n => n ≠ [] /\ Forall (fun c => is_cjk c = true) n) names
  /\ Forall (fun c => is_cjk c = true \/ [c] = artist_separator) (song_artist song).
Proof.
  intros Hsong names. unfold song_of_track in Hsong. cbv zeta in Hsong. fold names in Hsong.
  destruct (negb _) in Hsong; [done|].
  destruct (negb (_is_valid_song_name _)) in Hsong; [done|].
  destruct (bool_decide (names = []) || _) eqn:Hnames in Hsong; [done|].
  apply orb_false_iff in Hnames as [Hne Hall].
  apply bool_decide_eq_false in Hne.
  assert (Forall (fun n => n ≠ [] /\ Forall (fun c => is_cjk c = true) n) names) as Hcjk.
  { apply Forall_forall. intros n Hn.
    assert (n ≠ []) as Hn0.
    { subst names. apply filter_elem_of in Hn as [_ Hn].
      by apply negb_true_iff, bool_decide_eq_false in Hn. }
    split; [done|].
    assert (_is_chinese_artist_name n = true) as Hchinese.
    { destruct (_is_chinese_artist_name n) eqn:Hc; [done|]. exfalso.
      assert (existsb (fun n => negb (_is_chinese_artist_name n)) names = true) as Hex.
      { apply existsb_exists. exists n. split; [by apply list_elem_of_In|].
        by rewrite Hc. }
      congruence. }
    unfold _is_chinese_artist_name in Hchinese. cbv zeta in Hchinese.
    apply andb_true_iff in Hchinese as [Hchars _].
    assert (strip n = n) as Hstripped.
    { subst names. apply filter_elem_of in Hn as [Hn _].
      apply list_elem_of_fmap in Hn as (a & -> & _). apply strip_idem. }
    rewrite Hstripped in Hchars. apply Forall_forall. intros c Hc.
    rewrite forallb_forall in Hchars. apply Hchars. by apply list_elem_of_In. }
  injection Hsong as <-. cbn [song_artist].
  assert (str_join artist_separator names ≠ []) as Hjoin.
  { apply str_join_nil; [|done]. eapply Forall_impl; [exact Hcjk|]. by intros n [? _]. }
  rewrite bool_decide_eq_false_2 by done.
  split; [done|]. split; [done|]. split; [done|].
  apply str_join_Forall; [repeat constructor; by right|].
  eapply Forall_impl; [exact Hcjk|]. intros n [_ Hn].
  eapply Forall_impl; [exact Hn|]. by left.
Qed.

Lemma faye_sings_the_moon :
  song_of_track (mkTrack 1 (Some 0) (Some [26376; 20142]%N) [Some DemoCatalogue.faye])
  = Some DemoCatalogue.moon
  /\ song_artist DemoCatalogue.moon = DemoCatalogue.faye.
Proof.
  assert (song_of_track
            (mkTrack 1 (Some 0) (Some [26376; 20142]%N) [Some DemoCatalogue.faye])
          = Some DemoCatalogue.moon) as H1 by (vm_compute; reflexivity).
  split; [exact H1|].
  destruct (artist_joins_chinese_names _ _ H1) as (Hartist & _).
  rewrite Hartist. vm_compute. reflexivity.
Defined.
